(** * The schema.org processor of Genie (tool/webqa-process-schemaorg.js)

    A shallow embedding of the ontology resolver: the type classifier
    (flags, representation cycles, ancestor propagation), the property type
    resolver, the compound type builder, the canonical phrase synthesizer
    and the emitter, followed by the properties the specification states
    about them; then the loop of [run] that builds the hierarchy from the
    graph, and the paraphrase HIT creator that the file also holds, with
    further properties of all of these.

    Conventions.
    - A JavaScript object used as a dictionary ([typeHierarchy], a node's
      [properties], a canonical record, the [fields] of a compound type) and
      the [Map] [allproperties] are lists of key/value pairs in enumeration
      order (insertion order), the keys being distinct.  Names are ordinary
      identifiers: they are neither array indices nor members of
      [Object.prototype].
    - An [undefined] flag is [false]; [undefined] as a result is [None].
    - A thrown exception is [Err]; recursion that the source does not bound
      takes a fuel argument and reports [OutOfFuel] when it is used up.
    - [console.error] diagnostics are not part of the model.
    - Strings are sequences of ASCII characters: [toLowerCase] folds the
      letters [A] to [Z] and nothing else.  A name or a label with other
      characters (the sign U+212A, which JavaScript turns into [k]) is
      outside the model.
    - [new Ast.ArgumentDef] and [new Ast.FunctionDef] are the records of
      their arguments.  The constructors belong to the ThingTalk library,
      which is not part of this module: what they go on to do to the type
      they are handed (the direction they set on the fields of a struct, the
      dotted keys they add to a compound inside an array) is not modelled,
      and the statements below are about the names and the keys of fields
      and arguments, which it leaves alone. *)

From Stdlib Require Import String Ascii List Bool Arith Lia.
From stdpp Require Import base option list relations gmap strings.
Import ListNotations.
Local Open Scope string_scope.
Local Open Scope list_scope.

(* [set_solver] clears hypotheses it has already consumed. *)
Set Warnings "-clear-no-such-hyp".

(** ** Results of fallible computations *)

Inductive error : Type :=
| OutOfFuel
| TypeError
| StructNoFields (typename : string).

Inductive result (A : Type) : Type :=
| Ok (a : A)
| Err (e : error).
Arguments Ok {A} a.
Arguments Err {A} e.

Definition bind {A B : Type} (r : result A) (k : A -> result B) : result B :=
  match r with
  | Ok a => k a
  | Err e => Err e
  end.

Notation "'do' x <- r ; k" := (bind r (fun x => k))
  (at level 10, x name, r at level 100, k at level 200).

(** Threading a state through a [for] loop whose body may throw. *)
Fixpoint foldM {A S : Type} (body : S -> A -> result S) (l : list A) (s : S)
  : result S :=
  match l with
  | [] => Ok s
  | a :: l' => do s' <- body s a; foldM body l' s'
  end.

(** ** JavaScript objects as ordered dictionaries *)

Abbreviation JsObj V := (list (string * V)).

Fixpoint objGet {V : Type} (o : JsObj V) (k : string) : option V :=
  match o with
  | [] => None
  | (k', v) :: o' => if String.eqb k' k then Some v else objGet o' k
  end.

Definition objHas {V : Type} (o : JsObj V) (k : string) : bool :=
  match objGet o k with Some _ => true | None => false end.

(** [o[k] = v]: an existing key keeps its place, a new key goes last. *)
Fixpoint objSet {V : Type} (o : JsObj V) (k : string) (v : V) : JsObj V :=
  match o with
  | [] => [(k, v)]
  | (k', v') :: o' =>
      if String.eqb k' k then (k', v) :: o' else (k', v') :: objSet o' k v
  end.

Definition objKeys {V : Type} (o : JsObj V) : list string := map fst o.

(** [Array.prototype.includes] and [Set.prototype.has] on strings. *)
Definition includes (l : list string) (s : string) : bool :=
  existsb (String.eqb s) l.

(** ** Strings *)

Definition endsWith (s suffix : string) : bool :=
  let n := String.length s in
  let m := String.length suffix in
  (m <=? n)%nat && String.eqb (substring (n - m) m s) suffix.

Definition startsWith (s pre : string) : bool := String.prefix pre s.

(** [s.substring(0, s.length - k)] *)
Definition dropEnd (s : string) (k : nat) : string :=
  substring 0 (String.length s - k) s.

(** [s.substring(k)] *)
Definition dropStart (s : string) (k : nat) : string :=
  substring k (String.length s - k) s.

Definition lowerAscii (c : ascii) : ascii :=
  let n := nat_of_ascii c in
  if (65 <=? n)%nat && (n <=? 90)%nat then ascii_of_nat (n + 32) else c.

(** [s.toLowerCase()], on the ASCII letters. *)
Fixpoint toLowerCase (s : string) : string :=
  match s with
  | EmptyString => EmptyString
  | String c s' => String (lowerAscii c) (toLowerCase s')
  end.

Definition isLowerOrSpace (c : ascii) : bool :=
  let n := nat_of_ascii c in
  ((97 <=? n)%nat && (n <=? 122)%nat) || (n =? 32)%nat.

Fixpoint allChars (p : ascii -> bool) (s : string) : bool :=
  match s with
  | EmptyString => true
  | String c s' => p c && allChars p s'
  end.

(** [/^[a-z ]+$/.test(s)] *)
Definition lettersAndSpaces (s : string) : bool :=
  negb (String.eqb s "") && allChars isLowerOrSpace s.

(** [s.indexOf(pat) >= 0] *)
Fixpoint contains (s pat : string) : bool :=
  match s with
  | EmptyString => String.eqb pat ""
  | String _ s' => String.prefix pat s || contains s' pat
  end.

(** [/pat/i.test(s)] for a pattern of lower-case letters. *)
Definition testIgnoreCase (pat s : string) : bool := contains (toLowerCase s) pat.

(** [/^an? /i.test(s)] *)
Definition startsWithArticle (s : string) : bool :=
  let l := toLowerCase s in String.prefix "a " l || String.prefix "an " l.

(** [s.split(' ')] *)
Fixpoint splitSpaces (s : string) : list string :=
  match s with
  | EmptyString => [EmptyString]
  | String c s' =>
      if Ascii.eqb c " " then EmptyString :: splitSpaces s'
      else match splitSpaces s' with
           | w :: ws => String c w :: ws
           | [] => [String c EmptyString]
           end
  end.

(** [s.replace(' ', by)]: the first space only. *)
Fixpoint replaceFirstSpace (s by_ : string) : string :=
  match s with
  | EmptyString => EmptyString
  | String c s' =>
      if Ascii.eqb c " " then by_ +:+ s' else String c (replaceFirstSpace s' by_)
  end.

(** [s.replace(/ /g, by)] *)
Fixpoint replaceSpaces (s by_ : string) : string :=
  match s with
  | EmptyString => EmptyString
  | String c s' =>
      if Ascii.eqb c " " then by_ +:+ replaceSpaces s' by_
      else String c (replaceSpaces s' by_)
  end.

(** [[...new Set(l)]]: the first occurrence of every element, in order. *)
Fixpoint dedupe (seen l : list string) : list string :=
  match l with
  | [] => []
  | x :: l' => if includes seen x then dedupe seen l' else x :: dedupe (x :: seen) l'
  end.

(** ** ThingTalk types and argument definitions *)

Inductive Value : Type :=
| VString (s : string)
| VBoolean (b : bool).

Inductive ArgDirection : Type := OUT.

Inductive TType : Type :=
| TAny
| TBoolean
| TString
| TNumber
| TCurrency
| TTime
| TDate
| TLocation
| TEntity (kind : string)
| TMeasure (unit_ : string)
| TEnum (entries : list string)
| TArray (elem : TType)
| TCompound (name : string) (fields : list (string * ArgumentDef))
with ArgumentDef : Type :=
| mkArgumentDef (direction : option ArgDirection) (name : string) (type : TType)
    (nl_canonical : option (list (string * list string)))
    (impl : list (string * Value)).

Definition argName (a : ArgumentDef) : string :=
  match a with mkArgumentDef _ n _ _ _ => n end.
Definition argType (a : ArgumentDef) : TType :=
  match a with mkArgumentDef _ _ t _ _ => t end.
Definition argCanonical (a : ArgumentDef) : option (list (string * list string)) :=
  match a with mkArgumentDef _ _ _ c _ => c end.
Definition argImpl (a : ArgumentDef) : list (string * Value) :=
  match a with mkArgumentDef _ _ _ _ i => i end.

Definition isArray (t : TType) : bool :=
  match t with TArray _ => true | _ => false end.
Definition isMeasure (t : TType) : bool :=
  match t with TMeasure _ => true | _ => false end.
Definition isBoolean (t : TType) : bool :=
  match t with TBoolean => true | _ => false end.
Definition isEnumType (t : TType) : bool :=
  match t with TEnum _ => true | _ => false end.

(** A query of the generated class. *)
Record FunctionDef : Type := mkFunctionDef {
  fname : string;
  fextends : list string;
  fargs : list ArgumentDef;
  fcanonical : string;
  fconfirmation : string
}.

(** ** The static tables of the module *)

Definition KEYWORDS : list string :=
  [ "let"; "now"; "new"; "as"; "of"; "in"; "out"; "req"; "opt"; "notify"; "return";
    "join"; "edge"; "monitor"; "class"; "extends"; "mixin"; "this"; "import"; "null";
    "enum"; "aggregate"; "dataset"; "oninput"; "sort"; "asc"; "desc"; "bookkeeping";
    "compute"; "true"; "false" ].

Definition BLACKLISTED_PROPERTIES : list string :=
  [ "sameAs"; "affiliation"; "mainEntityOfPage"; "embedUrl"; "itemReviewed";
    "bestRating"; "worstRating"; "reviewBody"; "eligibleTransactionVolume";
    "addOn"; "areaServed"; "priceCurrency" ].

Definition STRUCTURED_HIERARCHIES : list string :=
  [ "StructuredValue"; "Rating"; "Offer" ].

Definition NON_STRUCT_TYPES : list string := [].

Definition PROPERTY_FORCE_ARRAY : list string :=
  [ "worksFor"; "recipeCuisine"; "recipeCategory" ].

Definition PROPERTY_FORCE_NOT_ARRAY : list string := [ "offers" ].

Definition PROPERTIES_NO_FILTER : list string :=
  [ "name"; "priceRange"; "gtin13"; "productID"; "mpn" ].

Definition PROPERTIES_DROP_WITH_GEO : list string :=
  [ "streetAddress"; "addressLocality" ].

Definition STRUCT_INCLUDE_THING_PROPERTIES : list string :=
  [ "LocationFeatureSpecification" ].

Definition BUILTIN_TYPEMAP : JsObj TType :=
  [ ("Time", TTime); ("Number", TNumber); ("Float", TNumber); ("Integer", TNumber);
    ("Text", TString); ("Boolean", TBoolean); ("DateTime", TDate); ("Date", TDate);
    ("DataType", TAny); ("URL", TEntity "tt:url");
    ("ImageObject", TEntity "tt:picture"); ("Barcode", TEntity "tt:picture");
    ("Mass", TMeasure "kg"); ("Energy", TMeasure "kcal");
    ("Distance", TMeasure "m"); ("Duration", TMeasure "ms");
    ("GeoCoordinates", TLocation); ("MonetaryAmount", TCurrency);
    ("QuantitativeValue", TAny) ].

Definition PROPERTY_TYPE_OVERRIDE : JsObj TType :=
  [ ("telephone", TEntity "tt:phone_number"); ("email", TEntity "tt:email_address");
    ("image", TEntity "tt:picture"); ("logo", TEntity "tt:picture");
    ("checkinTime", TTime); ("checkoutTime", TTime); ("price", TCurrency);
    ("weight", TMeasure "ms"); ("depth", TMeasure "m"); ("description", TString);
    ("addressCountry", TEntity "tt:country"); ("addressRegion", TEntity "tt:us_state");
    ("video", TEntity "org.schema:VideoObject");
    ("publisher", TEntity "org.schema:Organization");
    ("recipeYield", TString) ].

Definition PROPERTY_CANONICAL_OVERRIDE : JsObj (JsObj (list string)) :=
  [ ("url", [("base", ["url"; "link"])]);
    ("name", [("base", ["name"]); ("passive_verb", ["called"])]);
    ("description", [("base", ["description"; "summary"])]);
    ("geo", [("base", ["location"; "address"]);
             ("passive_verb", ["in #"; "around #"; "at #"; "on #"])]);
    ("streetAddress", [("base", ["street"])]);
    ("addressCountry", [("passive_verb", ["in #"]); ("base", ["country"])]);
    ("addressRegion", [("passive_verb", ["in #"]); ("base", ["state"])]);
    ("addressLocality", [("base", ["city"])]) ].

Definition MANUAL_PROPERTY_CANONICAL_OVERRIDE : JsObj (JsObj (list string)) :=
  [ ("datePublished", [("passive_verb", ["published on #"; "written on #"]);
                       ("base", ["date published"])]);
    ("ratingValue", [("passive_verb", ["rated # star"]); ("base", ["rating"])]);
    ("reviewRating", [("base", ["rating"])]);
    ("telephone", [("base", ["telephone"; "phone number"])]);
    ("servesCuisine",
       [("adjective", ["#"]);
        ("verb", ["serves # cuisine"; "serves # food"; "offer # cuisine";
                  "offer # food"; "serves"; "offers"]);
        ("property", ["# cuisine"; "# food"]);
        ("base", ["cuisine"; "food type"])]);
    ("amenityFeature", [("base", ["amenity"; "amenity feature"]);
                        ("verb", ["offers #"; "offer #"; "has #"; "have #"])]);
    ("checkinTime", [("base", ["checkin time"; "check in time"; "check-in time"])]);
    ("checkoutTime", [("base", ["checkout time"; "check out time"; "check-out time"])]);
    ("alumniOf",
       [("base", ["college degrees"; "universities"; "alma maters"]);
        ("reverse_property", ["alumni of #"; "alumnus of #"; "alumna of #";
                              "# alumnus"; "# alumni"; "# grad"; "# graduate"]);
        ("verb", ["went to #"; "graduated from #"; "attended #"; "studied at #"]);
        ("passive_verb", ["educated at #"; "graduated from #"])]);
    ("award",
       [("base", ["awards"]);
        ("reverse_property", ["winner of #"; "recipient of #"; "# winner";
                              "# awardee"; "# recipient"; "# holder"]);
        ("verb", ["has the award #"; "has received the # award";
                  "won the award for #"; "won the # award"; "received the # award";
                  "received the #"; "won the #"; "won #"; "holds the award for #";
                  "holds the # award"])]);
    ("affiliation",
       [("base", ["affiliations"]);
        ("reverse_property", ["member of #"]);
        ("passive_verb", ["affiliated with #"; "affiliated to #"])]);
    ("worksFor",
       [("base", ["employers"]);
        ("reverse_property", ["employee of #"; "# employee"]);
        ("verb", ["works for #"; "works at #"; "worked at #"; "worked for #"]);
        ("passive_verb", ["employed at #"; "employed by #"])]);
    ("author",
       [("base", ["author"; "creator"]);
        ("passive_verb", ["by"; "made by"; "written by"; "created by";
                          "authored by"; "uploaded by"; "submitted by"])]);
    ("publisher", [("base", ["publisher"]);
                   ("passive_verb", ["by"; "made by"; "published by"])]);
    ("prepTime", [("verb", ["takes # to prepare"; "needs # to prepare"]);
                  ("base", ["prep time"; "preparation time"; "time to prep";
                            "time to prepare"])]);
    ("cookTime", [("verb", ["takes # to cook"; "needs # to cook"]);
                  ("base", ["cook time"; "cooking time"; "time to cook"])]);
    ("totalTime", [("verb", ["takes #"; "requires #"; "needs #"; "uses #"; "consumes #"]);
                   ("base", ["total time"; "time in total"; "time to make"])]);
    ("recipeYield", [("verb", ["yields #"; "feeds #"; "produces #"; "results in #";
                               "is good for #"]);
                     ("passive_verb", ["yielding #"]);
                     ("base", ["yield amount"; "yield size"])]);
    ("recipeCategory", [("base", ["categories"])]);
    ("recipeIngredient", [("verb", ["contains"; "uses"; "has"]);
                          ("passive_verb", ["containing"; "using"]);
                          ("base", ["ingredients"])]);
    ("recipeInstructions", [("base", ["instructions"])]);
    ("recipeCuisines", [("adjective", ["#"]);
                        ("verb", ["belongs to the # cuisine"]);
                        ("base", ["cuisines"; "cuisine"])]);
    ("reviewBody", [("base", ["body"; "text"; "content"])]);
    ("saturatedFatContent",
       [("base", ["saturated fat content"; "saturated fat amount"; "saturated fat";
                  "trans fat"])]);
    ("mpn", [("base", ["manufacturer part number"])]) ].

(** ** The type hierarchy *)

Record PropertyDef : Type := mkProperty {
  types : list string;
  pcomment : string
}.

(** A node as [ensureType] and the triple loop build it. *)
Record RawDef : Type := mkRaw {
  rextends : list string;
  rproperties : JsObj PropertyDef;
  rcomment : string
}.

(** A node after the flag pass of [run]. *)
Record TypeDef : Type := mkType {
  extends : list string;
  properties : JsObj PropertyDef;
  comment : string;
  isAction : bool;
  isEnum : bool;
  enum : list string;
  isItemList : bool;
  itemType : option string;
  isStructSubType : bool;
  representAsStruct : bool
}.

Definition setRepresentAsStruct (d : TypeDef) (b : bool) : TypeDef :=
  {| extends := extends d; properties := properties d; comment := comment d;
     isAction := isAction d; isEnum := isEnum d; enum := enum d;
     isItemList := isItemList d; itemType := itemType d;
     isStructSubType := isStructSubType d; representAsStruct := b |}.

(** [typeHierarchy[k].representAsStruct = b] *)
Definition assignStruct (th : JsObj TypeDef) (k : string) (b : bool)
  : JsObj TypeDef :=
  map (fun e => if String.eqb (fst e) k
                then (fst e, setRepresentAsStruct (snd e) b) else e) th.

(** [typeHierarchy[k] && typeHierarchy[k].representAsStruct] *)
Definition isStruct (th : JsObj TypeDef) (k : string) : bool :=
  match objGet th k with
  | Some d => representAsStruct d
  | None => false
  end.

(** *** The flag pass *)

(** The loop of [isSubClass] over [extends]; [call] is the recursive call. *)
Fixpoint isSubClassLoop (th : JsObj RawDef) (call : string -> result bool)
  (subtypeof : string) (es : list string) : result bool :=
  match es with
  | [] => Ok false
  | _extend :: es' =>
      if String.eqb _extend subtypeof then Ok true
      else if negb (objHas th _extend) then isSubClassLoop th call subtypeof es'
      else do b <- call _extend;
           if b then Ok true else isSubClassLoop th call subtypeof es'
  end.

(** [isSubClass] of [run]: no visited set, so it only returns on a hierarchy
    whose [extends] chains from [typename] are finite. *)
Fixpoint isSubClass (fuel : nat) (th : JsObj RawDef) (typename subtypeof : string)
  : result bool :=
  match fuel with
  | O => Err OutOfFuel
  | S fuel' =>
      match objGet th typename with
      | None => Err TypeError
      | Some d =>
          isSubClassLoop th (fun e => isSubClass fuel' th e subtypeof) subtypeof
                         (rextends d)
      end
  end.

Definition getItemType (typename : string) (th : JsObj RawDef) : string :=
  (fix loop (suffixes : list string) : string :=
     match suffixes with
     | [] => "Thing"
     | suffix :: rest =>
         if endsWith typename suffix then
           let itemname := dropEnd typename (String.length suffix) in
           if objHas th itemname then itemname else "Thing"
         else loop rest
     end) ["List"; "Collection"; "Section"; "Catalog"].

(** The search for a structured base among [STRUCTURED_HIERARCHIES]. *)
Fixpoint anySubClass (fuel : nat) (th : JsObj RawDef) (typename : string)
  (bases : list string) : result bool :=
  match bases with
  | [] => Ok false
  | base :: rest =>
      do b <- isSubClass fuel th typename base;
      if b then Ok true else anySubClass fuel th typename rest
  end.

Definition classifyType (fuel : nat) (th : JsObj RawDef) (enums : JsObj (list string))
  (type : string) (d : RawDef) : result TypeDef :=
  do act <- isSubClass fuel th type "Action";
  do en <- (if objHas enums type then Ok true
            else isSubClass fuel th type "Enumeration");
  do il <- isSubClass fuel th type "ItemList";
  do st <- (if includes STRUCTURED_HIERARCHIES type then Ok true
            else anySubClass fuel th type STRUCTURED_HIERARCHIES);
  let st' := if includes NON_STRUCT_TYPES type then false else st in
  Ok {| extends := rextends d; properties := rproperties d; comment := rcomment d;
        isAction := act; isEnum := en;
        enum := if en then match objGet enums type with
                           | Some vs => vs | None => [] end
                else [];
        isItemList := il;
        itemType := if il then Some (getItemType type th) else None;
        isStructSubType := st'; representAsStruct := st' |}.

(** The loop writes flags only; [isSubClass] reads [extends] and the key set,
    which the loop leaves alone, so every node is classified against the
    hierarchy as built. *)
Fixpoint classifyEntries (fuel : nat) (th : JsObj RawDef) (enums : JsObj (list string))
  (entries : JsObj RawDef) : result (JsObj TypeDef) :=
  match entries with
  | [] => Ok []
  | (type, d) :: rest =>
      do d' <- classifyType fuel th enums type d;
      do rest' <- classifyEntries fuel th enums rest;
      Ok ((type, d') :: rest')
  end.

Definition classifyFlags (fuel : nat) (th : JsObj RawDef) (enums : JsObj (list string))
  : result (JsObj TypeDef) :=
  classifyEntries fuel th enums th.

(** *** Representation cycles *)

(** The types [findCycle] descends into from a node: for every property, in
    order, every candidate type that is not a builtin and is currently
    represented as a struct. *)
Definition structTargets (th : JsObj TypeDef) (d : TypeDef) : list string :=
  flat_map (fun p => List.filter
                       (fun type => negb (objHas BUILTIN_TYPEMAP type) && isStruct th type)
                       (types (snd p)))
           (properties d).

(** The two nested [for] loops of [findCycle]; [call] is the recursive call.
    The [cycle] argument of the source only feeds the diagnostic. *)
Fixpoint findCycleLoop (call : string -> gset string -> result (bool * gset string))
  (targets : list string) (visited : gset string) : result (bool * gset string) :=
  match targets with
  | [] => Ok (false, visited)
  | type :: rest =>
      do r <- call type visited;
      if fst r then Ok (true, snd r) else findCycleLoop call rest (snd r)
  end.

(** [findCycle]: the result and the [visited] set as the call leaves it. *)
Fixpoint findCycle (fuel : nat) (th : JsObj TypeDef) (typename lookfor : string)
  (visited : gset string) : result (bool * gset string) :=
  match fuel with
  | O => Err OutOfFuel
  | S fuel' =>
      if bool_decide (typename ∈ visited) then Ok (String.eqb typename lookfor, visited)
      else match objGet th typename with
           | None => Err TypeError
           | Some d =>
               findCycleLoop (fun type v => findCycle fuel' th type lookfor v)
                             (structTargets th d) ({[typename]} ∪ visited)
           end
  end.

Definition breakCycleStep (fuel : nat) (th : JsObj TypeDef) (typename : string)
  : result (JsObj TypeDef) :=
  match objGet th typename with
  | None => Err TypeError
  | Some d =>
      if isEnum d then Ok th
      else if negb (representAsStruct d) then Ok th
      else do r <- findCycle fuel th typename typename ∅;
           if fst r then Ok (assignStruct th typename false) else Ok th
  end.

Definition breakCycles (fuel : nat) (th : JsObj TypeDef) : result (JsObj TypeDef) :=
  foldM (breakCycleStep fuel) (objKeys th) th.

(** *** Ancestor propagation *)

Fixpoint recursiveMakeNonStruct (fuel : nat) (th : JsObj TypeDef) (typename : string)
  : result (JsObj TypeDef) :=
  match fuel with
  | O => Err OutOfFuel
  | S fuel' =>
      match objGet th typename with
      | None => Err TypeError
      | Some d =>
          foldM (fun th' _extend =>
                   if negb (objHas th' _extend) then Ok th'
                   else recursiveMakeNonStruct fuel' th' _extend)
                (extends d) (assignStruct th typename false)
      end
  end.

Definition propagateStep (fuel : nat) (th : JsObj TypeDef) (typename : string)
  : result (JsObj TypeDef) :=
  match objGet th typename with
  | None => Err TypeError
  | Some d =>
      if isEnum d then Ok th
      else if representAsStruct d then Ok th
      else recursiveMakeNonStruct fuel th typename
  end.

Definition propagateNonStruct (fuel : nat) (th : JsObj TypeDef)
  : result (JsObj TypeDef) :=
  foldM (propagateStep fuel) (objKeys th) th.

(** The classifier as [run] chains it. *)
Definition classify (fuel : nat) (th : JsObj RawDef) (enums : JsObj (list string))
  : result (JsObj TypeDef) :=
  do th0 <- classifyFlags fuel th enums;
  do th1 <- breakCycles fuel th0;
  propagateNonStruct fuel th1.

(** *** Emission order *)

(** [order.add(x)] on a [Set]: a member keeps its place. *)
Definition setAdd (order : list string) (x : string) : list string :=
  if includes order x then order else order ++ [x].

Definition emittable (d : TypeDef) : bool :=
  negb (isAction d || isEnum d || representAsStruct d).

Fixpoint toposort (fuel : nat) (th : JsObj TypeDef) (typename : string)
  (order : list string) : result (list string) :=
  match fuel with
  | O => Err OutOfFuel
  | S fuel' =>
      match objGet th typename with
      | None => Err TypeError
      | Some d =>
          if isAction d || isEnum d || representAsStruct d then Ok order
          else
            do order' <- foldM (fun o _extend =>
                                  if negb (objHas th _extend) then Ok o
                                  else toposort fuel' th _extend o)
                               (extends d) order;
            Ok (setAdd order' typename)
      end
  end.

Definition toposortAll (fuel : nat) (th : JsObj TypeDef) : result (list string) :=
  foldM (fun order type => if includes order type then Ok order
                           else toposort fuel th type order)
        (objKeys th) [].

(** The types of [order] for which [run] writes a definition. *)
Definition emittedTypes (th : JsObj TypeDef) (order : list string) : list string :=
  List.filter (fun typename =>
                 negb (String.eqb typename "ItemList") &&
                 negb (match objGet th typename with
                       | Some d => isItemList d | None => false end))
              order.

(** ** The processor *)

(** The fields of [SchemaProcessor] that the resolver reads. *)
Record SchemaProcessor : Type := mkSchemaProcessor {
  _manual : bool;
  _always_base_canonical : bool;
  _hasGeo : bool;
  _prefix : string;
  _wikidata_labels : JsObj (list string)
}.

Definition setHasGeo (self : SchemaProcessor) (b : bool) : SchemaProcessor :=
  {| _manual := _manual self; _always_base_canonical := _always_base_canonical self;
     _hasGeo := b; _prefix := _prefix self;
     _wikidata_labels := _wikidata_labels self |}.

Section Processor.

(** The part-of-speech tagger ([en-pos]) and the helpers of [lib/utils],
    which are outside this module.  The tagger gives one tag per token. *)
Variable posTag : list string -> list string.
Variable clean : string -> string.
Variable pluralize : string -> string.

(** *** Canonical phrases *)

Definition NOUN_TAGS : list string := ["NN"; "NNS"; "NNP"; "NNPS"].

(** [tags.includes(x)] where [x] may be [undefined]. *)
Definition includesOpt (l : list string) (x : option string) : bool :=
  match x with Some s => includes l s | None => false end.

(** [canonical[role] = (canonical[role] || []).concat(phrases)] *)
Definition addPhrases (canonical : JsObj (list string)) (role : string)
  (phrases : list string) : JsObj (list string) :=
  objSet canonical role
         (match objGet canonical role with Some l => l | None => [] end ++ phrases).

Definition addCanonical (canonical : JsObj (list string)) (name : string)
  (ptype : TType) : JsObj (list string) :=
  let name := toLowerCase name in
  if negb (lettersAndSpaces name) then canonical
  else
    let name := if isArray ptype then pluralize name else name in
    if endsWith name " content" && isMeasure ptype then
      let name := dropEnd name (String.length " content") in
      let base := [name +:+ " content"; name; name +:+ " amount"] in
      let verb := ["contains #" +:+ replaceSpaces name "_"] in
      addPhrases (addPhrases canonical "verb" verb) "base" base
    else if startsWith name "has " then
      addPhrases canonical "base" [dropStart name (String.length "has ")]
    else if startsWith name "is " then
      let name := dropStart name (String.length "is ") in
      let tags := posTag (splitSpaces name) in
      if includesOpt NOUN_TAGS (last tags) || endsWith name " of" then
        addPhrases canonical "reverse_property" [name]
      else if includesOpt ["VBN"; "JJ"; "JJR"] (head tags) then
        addPhrases canonical "passive_verb" [name]
      else canonical
    else
      let tags := posTag (splitSpaces name) in
      if includesOpt ["VBP"; "VBZ"; "VBD"] (head tags) then
        if (length tags =? 2)%nat && includesOpt NOUN_TAGS (tags !! 1%nat) then
          addPhrases (addPhrases canonical "verb" [replaceFirstSpace name " # "])
                     "base" [nth 1 (splitSpaces name) ""]
        else addPhrases canonical "verb" [name]
      else if endsWith name " of" then
        addPhrases canonical "reverse_property" [name]
      else if includesOpt ["VBN"; "VBG"; "JJ"; "JJR"] (head tags)
              && negb (includesOpt NOUN_TAGS (last tags)) then
        addPhrases canonical "passive_verb" [name]
      else addPhrases canonical "base" [name].

Definition cleanName (name : string) : string :=
  let name := clean name in
  if endsWith name " value" then dropEnd name (String.length " value") else name.

(** The candidate phrases of a property and the record they build. *)
Definition canonicalCandidates (self : SchemaProcessor) (name : string) : list string :=
  match objGet (_wikidata_labels self) name with
  | Some labels => labels
  | None => [cleanName name]
  end.

Definition synthesized (self : SchemaProcessor) (name : string) (ptype : TType)
  : JsObj (list string) :=
  fold_left (fun canonical candidate => addCanonical canonical candidate ptype)
            (dedupe [] (canonicalCandidates self name)) [].

Definition makeArgCanonical (self : SchemaProcessor) (name : string) (ptype : TType)
  : JsObj (list string) :=
  match objGet PROPERTY_CANONICAL_OVERRIDE name with
  | Some canonical => canonical
  | None =>
      match (if _manual self then objGet MANUAL_PROPERTY_CANONICAL_OVERRIDE name
             else None) with
      | Some canonical => canonical
      | None =>
          let canonical := synthesized self name ptype in
          if negb (objHas canonical "base") && _always_base_canonical self
          then objSet canonical "base" [name]
          else canonical
      end
  end.

(** *** Property types *)

(** The score [getBestPropertyType] gives a candidate type.  The fifth test
    reads [typeHierarchy.isItemList], the entry of the hierarchy under the
    key [isItemList]. *)
Definition candidateScore (th : JsObj TypeDef) (type : string) : Z :=
  if match objGet th type with Some d => isEnum d | None => false end then 5
  else if String.eqb type "Text" then 2
  else if objHas BUILTIN_TYPEMAP type then 4
  else if negb (objHas th type) then (-1)
  else if objHas th "isItemList" then 0
  else if isStruct th type then 3
  else 1.

(** The scoring loop; [None] is [best = undefined, bestScore = -Infinity]. *)
Definition bestCandidate (th : JsObj TypeDef) (candidates : list string)
  : option (string * Z) :=
  fold_left (fun best type =>
               let score := candidateScore th type in
               match best with
               | None => Some (type, score)
               | Some (_, bestScore) =>
                   if (bestScore <? score)%Z then Some (type, score) else best
               end)
            candidates None.

Definition isItemListType (th : JsObj TypeDef) (type : string) : bool :=
  match objGet th type with Some d => isItemList d | None => false end.

(** The array flag before the best candidate is known. *)
Definition arrayHeuristic (th : JsObj TypeDef) (propname : string)
  (property : PropertyDef) : bool :=
  let isArray := existsb (isItemListType th) (types property) in
  let isArray := if startsWithArticle (pcomment property) then true else isArray in
  let isArray := if includes PROPERTY_FORCE_ARRAY propname then true else isArray in
  if includes PROPERTY_FORCE_NOT_ARRAY propname then false else isArray.

(** [getBestPropertyType], the recursive call into [typeToThingTalk] being a
    parameter.  [None] is the pair [[undefined, undefined]]; the other
    results are [[best, tttype]].  [typeToThingTalk] never gives a falsy
    value, which leaves the [!tttype] exit of the source without a case. *)
Definition getBestPropertyTypeWith (typeToThingTalk : string -> result TType)
  (th : JsObj TypeDef) (propname : string) (property : PropertyDef)
  : result (option (string * TType)) :=
  if includes BLACKLISTED_PROPERTIES propname then Ok None
  else
    let isArray := arrayHeuristic th propname property in
    match bestCandidate th (types property) with
    | None => Ok None
    | Some (best, bestScore) =>
        if (bestScore <? 0)%Z then Ok None
        else
          match objGet PROPERTY_TYPE_OVERRIDE propname with
          | Some override => Ok (Some (best, override))
          | None =>
              let isArray := if isItemListType th best then false else isArray in
              if String.eqb best "QuantitativeValue" then
                if testIgnoreCase "number" propname || testIgnoreCase "level" propname
                   || testIgnoreCase "quantity" propname
                then Ok (Some (best, TNumber))
                else if testIgnoreCase "duration" propname
                then Ok (Some (best, TMeasure "ms"))
                else Ok (Some (best, TNumber))
              else
                do tttype <- typeToThingTalk best;
                let isArray := if isBoolean tttype || isEnumType tttype
                               then false else isArray in
                Ok (Some (best, if isArray then TArray tttype else tttype))
          end
    end.

(** *** Compound types *)

(** The loop of [recursiveCollectProperties] over the properties of a node. *)
Definition collectOwn (allproperties own : JsObj PropertyDef) : JsObj PropertyDef :=
  fold_left (fun all p => if objHas all (fst p) then all
                          else objSet all (fst p) (snd p))
            own allproperties.

Fixpoint recursiveCollectProperties (fuel : nat) (th : JsObj TypeDef)
  (startingTypename typename : string) (allproperties : JsObj PropertyDef)
  : result (JsObj PropertyDef) :=
  match fuel with
  | O => Err OutOfFuel
  | S fuel' =>
      match objGet th typename with
      | None => Ok allproperties
      | Some typedef =>
          if negb (includes STRUCT_INCLUDE_THING_PROPERTIES startingTypename)
             && negb (isStructSubType typedef)
          then Ok allproperties
          else
            let allproperties := collectOwn allproperties (properties typedef) in
            if negb (includes STRUCT_INCLUDE_THING_PROPERTIES startingTypename)
               && includes STRUCTURED_HIERARCHIES typename
            then Ok allproperties
            else foldM (fun all _extends =>
                          recursiveCollectProperties fuel' th startingTypename
                                                     _extends all)
                       (extends typedef) allproperties
      end
  end.

(** The [impl] annotations of a field of a compound type. *)
Definition fieldAnnotation (self : SchemaProcessor) (propertyname schemaOrgType : string)
  : JsObj Value :=
  let annotation := [("org_schema_type", VString schemaOrgType)] in
  if includes PROPERTIES_NO_FILTER propertyname then
    objSet annotation "filterable" (VBoolean false)
  else if _hasGeo self && includes PROPERTIES_DROP_WITH_GEO propertyname then
    objSet (objSet annotation "filterable" (VBoolean false)) "drop" (VBoolean true)
  else annotation.

(** One turn of the loop of [makeCompoundType] over [allproperties]; the
    state is [fields] and [anyfield]. *)
Definition addField (typeToThingTalk : string -> result TType)
  (self : SchemaProcessor) (th : JsObj TypeDef)
  (state : JsObj ArgumentDef * bool) (p : string * PropertyDef)
  : result (JsObj ArgumentDef * bool) :=
  do r <- getBestPropertyTypeWith typeToThingTalk th (fst p) (snd p);
  match r with
  | None => Ok state
  | Some (schemaOrgType, ttType) =>
      let canonical := makeArgCanonical self (fst p) ttType in
      let annotation := fieldAnnotation self (fst p) schemaOrgType in
      Ok (objSet (fst state) (fst p)
                 (mkArgumentDef None (fst p) ttType (Some canonical) annotation),
          true)
  end.

Definition makeCompoundTypeWith (typeToThingTalk : string -> result TType)
  (fuel : nat) (self : SchemaProcessor) (th : JsObj TypeDef)
  (startingTypename : string) : result TType :=
  do allproperties <- recursiveCollectProperties fuel th startingTypename
                                                 startingTypename [];
  do state <- foldM (addField typeToThingTalk self th) allproperties ([], false);
  if negb (snd state) then Err (StructNoFields startingTypename)
  else Ok (TCompound startingTypename (fst state)).

Fixpoint typeToThingTalk (fuel : nat) (self : SchemaProcessor) (th : JsObj TypeDef)
  (typename : string) : result TType :=
  match fuel with
  | O => Err OutOfFuel
  | S fuel' =>
      match objGet BUILTIN_TYPEMAP typename with
      | Some t => Ok t
      | None =>
          match objGet th typename with
          | None => Err TypeError
          | Some d =>
              if isItemList d then
                match itemType d with
                | None => Err TypeError
                | Some item =>
                    do t <- typeToThingTalk fuel' self th item; Ok (TArray t)
                end
              else if isEnum d && (0 <? length (enum d))%nat then Ok (TEnum (enum d))
              else if representAsStruct d then
                makeCompoundTypeWith (typeToThingTalk fuel' self th) fuel' self th
                                     typename
              else Ok (TEntity (_prefix self +:+ typename))
          end
      end
  end.

Definition getBestPropertyType (fuel : nat) (self : SchemaProcessor)
  (th : JsObj TypeDef) (propname : string) (property : PropertyDef)
  : result (option (string * TType)) :=
  getBestPropertyTypeWith (typeToThingTalk fuel self th) th propname property.

Definition makeCompoundType (fuel : nat) (self : SchemaProcessor)
  (th : JsObj TypeDef) (startingTypename : string) : result TType :=
  makeCompoundTypeWith (typeToThingTalk fuel self th) fuel self th startingTypename.

(** *** The emitter *)

(** The name under which [run] writes a property or a type. *)
Definition emittedName (name : string) : string :=
  if includes KEYWORDS name then "_" +:+ name else name.

(** One turn of the loop of [run] over the properties of an emitted type.
    The [string_values] annotation, which [recursiveAddStringValues] adds
    afterwards, is not part of the model. *)
Definition addArgument (fuel : nat) (self : SchemaProcessor) (th : JsObj TypeDef)
  (args : list ArgumentDef) (p : string * PropertyDef) : result (list ArgumentDef) :=
  do r <- getBestPropertyType fuel self th (fst p) (snd p);
  match r with
  | None => Ok args
  | Some (schemaOrgType, type) =>
      let propertyname := emittedName (fst p) in
      let canonical := makeArgCanonical self propertyname type in
      let annotation := [("org_schema_type", VString schemaOrgType)] in
      let annotation := if includes PROPERTIES_NO_FILTER propertyname
                        then objSet annotation "filterable" (VBoolean false)
                        else annotation in
      Ok (args ++ [mkArgumentDef (Some OUT) propertyname type (Some canonical)
                                 annotation])
  end.

Definition idArgument (self : SchemaProcessor) (typename : string) : ArgumentDef :=
  mkArgumentDef (Some OUT) "id" (TEntity (_prefix self +:+ typename)) None
                [("unique", VBoolean true); ("filterable", VBoolean false)].

Definition nameArgument : ArgumentDef :=
  mkArgumentDef (Some OUT) "name" TString None
                [("org_schema_type", VString "Text"); ("filterable", VBoolean false)].

(** One turn of the loop of [run] over [order]; the state is [queries]. *)
Definition emitType (fuel : nat) (self : SchemaProcessor) (th : JsObj TypeDef)
  (queries : JsObj FunctionDef) (typename : string) : result (JsObj FunctionDef) :=
  match objGet th typename with
  | None => Err TypeError
  | Some typedef =>
      if String.eqb typename "ItemList" || isItemList typedef then Ok queries
      else
        let args := [idArgument self typename] ++
                    (if String.eqb typename "Thing" then [] else [nameArgument]) in
        let self := setHasGeo self (objHas (properties typedef) "geo") in
        do args <- foldM (addArgument fuel self th) (properties typedef) args;
        let typename := emittedName typename in
        Ok (objSet queries typename
                   {| fname := typename; fextends := extends typedef; fargs := args;
                      fcanonical := clean typename; fconfirmation := clean typename |})
  end.

(** The queries of the class that [run] prints, from the classified
    hierarchy on. *)
Definition emitQueries (fuel : nat) (self : SchemaProcessor) (th : JsObj TypeDef)
  : result (JsObj FunctionDef) :=
  do order <- toposortAll fuel th;
  foldM (emitType fuel self th) order [].

End Processor.

(** * The vocabulary of the properties *)

(** A struct-typed property edge: [b] is a candidate type of a property of
    [a], is not a builtin and is represented as a struct. *)
Definition structEdge (th : JsObj TypeDef) (a b : string) : Prop :=
  exists d p, objGet th a = Some d /\ In p (properties d) /\ In b (types (snd p)) /\
              objHas BUILTIN_TYPEMAP b = false /\ isStruct th b = true.

(** What a call that answers [false] leaves behind: the nodes it added to
    [visited] have all their targets in [visited], none of them [lookfor]. *)
Definition closedOver (th : JsObj TypeDef) (lookfor : string) (V V' : gset string)
  : Prop :=
  forall y, y ∈ V' -> y ∉ V ->
  forall z, structEdge th y z -> z ∈ V' /\ z <> lookfor.

Definition falseSpec (th : JsObj TypeDef) (lookfor x : string) (V V' : gset string)
  : Prop :=
  V ⊆ V' /\ x ∈ V' /\ x <> lookfor /\ closedOver th lookfor V V'.

(** [th'] is [th] with [representAsStruct] cleared on some nodes. *)
Definition demotion (th th' : JsObj TypeDef) : Prop :=
  objKeys th' = objKeys th /\
  forall x d', objGet th' x = Some d' ->
    exists d, objGet th x = Some d /\
              d' = setRepresentAsStruct d (representAsStruct d') /\
              (representAsStruct d' = true -> representAsStruct d = true).

(** What the loop guarantees for a node once it has looked at it. *)
Definition acyclicAt (th : JsObj TypeDef) (x : string) : Prop :=
  forall d, objGet th x = Some d -> isEnum d = false -> representAsStruct d = true ->
            ~ tc (structEdge th) x x.

(** [b] is a parent of [a] that the hierarchy knows. *)
Definition parentEdge (th : JsObj TypeDef) (a b : string) : Prop :=
  exists d, objGet th a = Some d /\ In b (extends d) /\ objHas th b = true.

(** What a run of [recursiveMakeNonStruct] from the nodes [zs] does to a
    hierarchy: it clears the flag on exactly the nodes of [zs] and their
    ancestors. *)
Definition clearsFrom (th th' : JsObj TypeDef) (zs : list string) : Prop :=
  demotion th th' /\
  (forall z y, In z zs -> rtc (parentEdge th) z y -> isStruct th' y = false) /\
  (forall y, isStruct th y = true -> isStruct th' y = false ->
             exists z, In z zs /\ rtc (parentEdge th) z y).

(** A node is settled when being a non-struct it has no struct ancestor. *)
Definition settled (th : JsObj TypeDef) (x : string) : Prop :=
  isStruct th x = false ->
  forall y, rtc (parentEdge th) x y -> isStruct th y = false.

(** [x] transitively extends [b], through nodes of the hierarchy. *)
Inductive subClassOf (th : JsObj RawDef) : string -> string -> Prop :=
| sub_direct x d b :
    objGet th x = Some d -> In b (rextends d) -> subClassOf th x b
| sub_step x d e b :
    objGet th x = Some d -> In e (rextends d) -> objHas th e = true ->
    subClassOf th e b -> subClassOf th x b.

(** Membership in a structured lineage, as the flag pass decides it. *)
Definition structLineage (th : JsObj RawDef) (x : string) : Prop :=
  In x STRUCTURED_HIERARCHIES \/
  exists base, In base STRUCTURED_HIERARCHIES /\ subClassOf th x base.

Definition keySet (th : JsObj TypeDef) : gset string := list_to_set (objKeys th).

(** [t] is a candidate type of some property of the node. *)
Definition hasCandidate (d : TypeDef) (t : string) : Prop :=
  exists p, In p (properties d) /\ In t (types (snd p)).

(** [a] comes before [b] in the sequence. *)
Definition before (l : list string) (a b : string) : Prop :=
  exists l1 l2 l3, l = l1 ++ a :: l2 ++ b :: l3.

(** The invariant of [order]: its members are emittable nodes, and each
    comes after all of its emittable parents. *)
Definition parentsFirst (th : JsObj TypeDef) (order : list string) : Prop :=
  (forall t, In t order -> exists d, objGet th t = Some d /\ emittable d = true) /\
  (forall t d p dp, In t order -> objGet th t = Some d -> In p (extends d) ->
                    objGet th p = Some dp -> emittable dp = true -> before order p t).

(** The nodes whose properties [recursiveCollectProperties] reads, in the
    order in which it reads them. *)
Fixpoint visitedNodes (fuel : nat) (th : JsObj TypeDef) (startingTypename typename : string)
  : result (list string) :=
  match fuel with
  | O => Err OutOfFuel
  | S fuel' =>
      match objGet th typename with
      | None => Ok []
      | Some typedef =>
          if negb (includes STRUCT_INCLUDE_THING_PROPERTIES startingTypename)
             && negb (isStructSubType typedef)
          then Ok []
          else if negb (includes STRUCT_INCLUDE_THING_PROPERTIES startingTypename)
                  && includes STRUCTURED_HIERARCHIES typename
          then Ok [typename]
          else
            do above <- foldM (fun seen _extends =>
                                 do more <- visitedNodes fuel' th startingTypename _extends;
                                 Ok (seen ++ more))
                              (extends typedef) [];
            Ok (typename :: above)
      end
  end.

Definition ownProperties (th : JsObj TypeDef) (typename : string) : JsObj PropertyDef :=
  match objGet th typename with Some d => properties d | None => [] end.

(** The definition of a property in the first dictionary that has one. *)
Fixpoint firstSeen (objs : list (JsObj PropertyDef)) (p : string) : option PropertyDef :=
  match objs with
  | [] => None
  | o :: rest => match objGet o p with
                 | Some pd => Some pd
                 | None => firstSeen rest p
                 end
  end.

Section Fields.

Variable posTag : list string -> list string.
Variable clean : string -> string.
Variable pluralize : string -> string.

(** The field that a resolved property becomes. *)
Definition fieldOf (self : SchemaProcessor) (p : string * PropertyDef)
  (r : option (string * TType)) : option (string * ArgumentDef) :=
  match r with
  | None => None
  | Some (schemaOrgType, ttType) =>
      Some (fst p,
            mkArgumentDef None (fst p) ttType
              (Some (makeArgCanonical posTag clean pluralize self (fst p) ttType))
              (fieldAnnotation self (fst p) schemaOrgType))
  end.

(** The fields of the properties that resolve to a type, in order. *)
Fixpoint survivingFields (self : SchemaProcessor) (all : JsObj PropertyDef)
  (resolved : list (option (string * TType))) : JsObj ArgumentDef :=
  match all, resolved with
  | p :: all', r :: resolved' =>
      match fieldOf self p r with
      | Some f => f :: survivingFields self all' resolved'
      | None => survivingFields self all' resolved'
      end
  | _, _ => []
  end.

End Fields.

Definition resolvesToNone (r : option (string * TType)) : bool :=
  match r with None => true | Some _ => false end.

(** The score of a candidate type in the words of the specification. *)
Definition specScore (th : JsObj TypeDef) (type : string) : Z :=
  if match objGet th type with Some d => isEnum d | None => false end then 5
  else if objHas BUILTIN_TYPEMAP type && negb (String.eqb type "Text") then 4
  else if isStruct th type then 3
  else if String.eqb type "Text" then 2
  else if objHas th type then 1
  else (-1).

(** The maximum of the scores of the candidates; [None] when there is no
    candidate. *)
Definition maxScore (score : string -> Z) (candidates : list string) : option Z :=
  fold_left (fun m type => match m with
                           | None => Some (score type)
                           | Some z => Some (Z.max z (score type))
                           end)
            candidates None.

Definition negativeMax (m : option Z) : Prop :=
  match m with None => True | Some z => (z < 0)%Z end.

(** ** Sample hierarchies *)

Definition rawNode (ext : list string) (props : JsObj PropertyDef) : RawDef :=
  {| rextends := ext; rproperties := props; rcomment := "" |}.

Definition classified (r : result (JsObj TypeDef)) : JsObj TypeDef :=
  match r with Ok th => th | Err _ => [] end.

(** Two structured values that refer to each other. *)
Definition pairRaw : JsObj RawDef :=
  [ ("Thing", rawNode [] []);
    ("StructuredValue", rawNode ["Thing"] [("q", mkProperty ["Text"] "")]);
    ("A", rawNode ["StructuredValue"] [("b", mkProperty ["B"] "")]);
    ("B", rawNode ["StructuredValue"] [("a", mkProperty ["A"] "")]) ].

Definition pairFlagged : JsObj TypeDef :=
  Eval vm_compute in classified (classifyFlags 5 pairRaw []).

Definition pairClassified : JsObj TypeDef :=
  Eval vm_compute in classified (classify 5 pairRaw []).

(** An enumeration in a structured lineage that refers to itself. *)
Definition enumCycleRaw : JsObj RawDef :=
  [ ("Thing", rawNode [] []);
    ("Enumeration", rawNode ["Thing"] []);
    ("StructuredValue", rawNode ["Thing"] []);
    ("E", rawNode ["Enumeration"; "StructuredValue"] [("p", mkProperty ["E"] "")]) ].

Definition enumCycleClassified : JsObj TypeDef :=
  Eval vm_compute in classified (classify 5 enumCycleRaw []).

(** Stand-ins for the tagger and the string helpers, for the examples. *)
Definition nounTagger (tokens : list string) : list string :=
  map (fun _ => "NN") tokens.

Definition sameString (s : string) : string := s.

Definition sampleProcessor : SchemaProcessor :=
  {| _manual := false; _always_base_canonical := true; _hasGeo := false;
     _prefix := "org.schema:";
     _wikidata_labels := [("isPartOf", ["is part of"])] |}.

(** A property of the forced-not-array set whose only candidate is a
    list-wrapper class. *)
Definition offersProperty : PropertyDef :=
  mkProperty ["OfferCatalog"] "An offer to provide this item.".

Definition catalogRaw : JsObj RawDef :=
  [ ("Thing", rawNode [] []);
    ("ItemList", rawNode ["Thing"] []);
    ("OfferCatalog", rawNode ["ItemList"] []);
    ("Product", rawNode ["Thing"] [("offers", offersProperty)]) ].

Definition catalogClassified : JsObj TypeDef :=
  Eval vm_compute in classified (classify 5 catalogRaw []).

(** A keyword as the name of a property, of an emitted type and of a
    structured value. *)
Definition keywordRaw : JsObj RawDef :=
  [ ("Thing", rawNode [] []);
    ("StructuredValue", rawNode ["Thing"] [("class", mkProperty ["Text"] "The class.")]);
    ("Store", rawNode ["Thing"]
       [("spec", mkProperty ["StructuredValue"] "The specification.");
        ("class", mkProperty ["Text"] "The class.")]) ].

Definition keywordClassified : JsObj TypeDef :=
  Eval vm_compute in classified (classify 5 keywordRaw []).

(** A structured value that inherits a property of its own type. *)
Definition inheritedRaw : JsObj RawDef :=
  [ ("Thing", rawNode [] []);
    ("StructuredValue", rawNode ["Thing"] []);
    ("B", rawNode ["StructuredValue"] [("p", mkProperty ["A"] "")]);
    ("A", rawNode ["B"] []) ].

Definition inheritedClassified : JsObj TypeDef :=
  Eval vm_compute in classified (classify 5 inheritedRaw []).

(** * The vocabulary of the further properties *)

(** [b] is a parent of [a] that the hierarchy, as built, knows. *)
Definition rawParentEdge (th : JsObj RawDef) (a b : string) : Prop :=
  exists d, objGet th a = Some d /\ In b (rextends d) /\ objHas th b = true.

(** A hierarchy without a cycle of [extends]: every node ranks above its
    parents. *)
Definition rankedRaw (th : JsObj RawDef) (rank : string -> nat) : Prop :=
  forall a b, rawParentEdge th a b -> rank b < rank a.

Definition ranked (th : JsObj TypeDef) (rank : string -> nat) : Prop :=
  forall a b, parentEdge th a b -> rank b < rank a.

(** [y] is an ancestor (or the node itself) of a node that is neither an
    enumeration nor represented as a struct. *)
Definition belowNonStruct (th : JsObj TypeDef) (y : string) : Prop :=
  exists z dz, objGet th z = Some dz /\ isEnum dz = false /\
               representAsStruct dz = false /\ rtc (parentEdge th) z y.

(** What the scoring loop holds after the candidates [seen]: nothing, or
    the first of the candidates with the greatest score. *)
Definition firstMaximal (th : JsObj TypeDef) (seen : list string)
  (best : option (string * Z)) : Prop :=
  match best with
  | None => seen = []
  | Some (b, s) =>
      s = candidateScore th b /\
      exists l1 l2, seen = l1 ++ b :: l2 /\
        (forall c, In c l1 -> (candidateScore th c < s)%Z) /\
        (forall c, In c l2 -> (candidateScore th c <= s)%Z)
  end.

(** The phrases of a role in a canonical record, none if the role is not
    there. *)
Definition phrasesOf (canonical : JsObj (list string)) (role : string) : list string :=
  match objGet canonical role with Some l => l | None => [] end.

(** The roles the synthesizer writes. *)
Definition SYNTHESIZED_ROLES : list string :=
  ["base"; "verb"; "passive_verb"; "reverse_property"].

(** [canonical'] is [canonical] with phrases added at the end of
    synthesized roles. *)
Definition grows (canonical canonical' : JsObj (list string)) : Prop :=
  forall role,
    (exists added, phrasesOf canonical' role = phrasesOf canonical role ++ added) /\
    (objHas canonical role = true -> objHas canonical' role = true) /\
    (~ In role SYNTHESIZED_ROLES -> objGet canonical' role = objGet canonical role).

(** [f], filed under [name], is the query of an emittable type that is not
    a list wrapper: it has the emitted name of the type, the parents of the
    type, the argument [id], the argument [name] unless the type is
    [Thing], and then arguments named after properties of the type. *)
Definition queryOf (self : SchemaProcessor) (th : JsObj TypeDef) (name : string)
  (f : FunctionDef) : Prop :=
  fname f = name /\
  exists t d, name = emittedName t /\ objGet th t = Some d /\ emittable d = true /\
    isItemList d = false /\ t <> "ItemList" /\ fextends f = extends d /\
    exists rest,
      fargs f = idArgument self t
                :: (if String.eqb t "Thing" then [] else [nameArgument]) ++ rest /\
      forall a, In a rest ->
                exists p, In p (properties d) /\ argName a = emittedName (fst p).

(** * The graph builder of [run] *)

Definition BLACKLISTED_TYPES : list string :=
  [ "QualitativeValue"; "PropertyValue"; "BedType"; "MedicalBusiness"; "Researcher" ].

(** What the loop over the triples throws: the assertion of [getId], the
    read of [@id] on a missing [domainIncludes] or [rangeIncludes], the
    [Error] for a triple of another type. *)
Inductive buildError : Type :=
| AssertionError
| MissingIncludes
| UnknownTripleType (type : string).

Inductive built (A : Type) : Type :=
| Built (a : A)
| Failed (e : buildError).
Arguments Built {A} a.
Arguments Failed {A} e.

Definition buildBind {A B : Type} (r : built A) (k : A -> built B) : built B :=
  match r with
  | Built a => k a
  | Failed e => Failed e
  end.

Notation "'try' x <- r ; k" := (buildBind r (fun x => k))
  (at level 10, x name, r at level 100, k at level 200).

Definition SCHEMA_ORG : string := "http://schema.org/".

Definition getId (id : string) : built string :=
  if startsWith id SCHEMA_ORG then Built (dropStart id (String.length SCHEMA_ORG))
  else Failed AssertionError.

(** A value of [domainIncludes], [rangeIncludes] or [subClassOf]: one
    reference, or an array of references; each is kept as its [@id]. *)
Inductive Includes : Type :=
| OneRef (id : string)
| ManyRefs (ids : list string).

Fixpoint getIds (ids : list string) : built (list string) :=
  match ids with
  | [] => Built []
  | id :: rest => try x <- getId id; try xs <- getIds rest; Built (x :: xs)
  end.

Definition getIncludes (includes : Includes) : built (list string) :=
  match includes with
  | ManyRefs ids => getIds ids
  | OneRef id => try x <- getId id; Built [x]
  end.

(** A node of [@graph], with the members the loop reads; [@id], [@type]
    and the comment are strings. *)
Record Triple : Type := mkTriple {
  t_id : string;
  t_type : string;
  supersededBy : bool;
  domainIncludes : option Includes;
  rangeIncludes : option Includes;
  subClassOf_ : option Includes;
  rdfs_comment : string
}.

(** [typeHierarchy[k] = f(typeHierarchy[k])] on the node under [k]. *)
Definition updateNode (th : JsObj RawDef) (k : string) (f : RawDef -> RawDef)
  : JsObj RawDef :=
  map (fun e => if String.eqb (fst e) k then (fst e, f (snd e)) else e) th.

Definition ensureType (th : JsObj RawDef) (typename : string) : JsObj RawDef :=
  if objHas th typename then th
  else objSet th typename {| rextends := []; rproperties := []; rcomment := "" |}.

Definition ensureEnum (enums : JsObj (list string)) (enumname : string)
  : JsObj (list string) :=
  if objHas enums enumname then enums else objSet enums enumname [].

Definition setProperty (name : string) (pd : PropertyDef) (d : RawDef) : RawDef :=
  {| rextends := rextends d; rproperties := objSet (rproperties d) name pd;
     rcomment := rcomment d |}.

(** The loop of the [rdf:Property] case over the domains. *)
Definition addToDomains (name : string) (pd : PropertyDef) (domains : list string)
  (th : JsObj RawDef) : JsObj RawDef :=
  fold_left (fun th domain =>
               if objHas BUILTIN_TYPEMAP domain then th
               else if includes BLACKLISTED_TYPES domain then th
               else updateNode (ensureType th domain) domain (setProperty name pd))
            domains th.

Definition declareClass (name comment : string) (_extends : list string) (d : RawDef)
  : RawDef :=
  let kept := List.filter (fun ex => negb (includes BLACKLISTED_TYPES ex)) _extends in
  {| rextends := if (length kept =? 0)%nat && negb (String.eqb name "Thing")
                 then ["Thing"] else kept;
     rproperties := rproperties d;
     rcomment := comment |}.

Definition includesOf (i : option Includes) : built (list string) :=
  match i with
  | None => Failed MissingIncludes
  | Some incl => getIncludes incl
  end.

(** One turn of the loop over [@graph]; the state is [typeHierarchy] and
    [enums]. *)
Definition processTriple (state : JsObj RawDef * JsObj (list string)) (triple : Triple)
  : built (JsObj RawDef * JsObj (list string)) :=
  let (th, enums) := state in
  try id <- getId (t_id triple);
  if objHas BUILTIN_TYPEMAP id then Built state
  else if includes BLACKLISTED_TYPES id then Built state
  else if startsWith (t_type triple) SCHEMA_ORG then
    try enumtype <- getId (t_type triple);
    let enums := ensureEnum enums enumtype in
    Built (th, objSet enums enumtype
                      (match objGet enums enumtype with Some l => l | None => [] end
                       ++ [id]))
  else if String.eqb (t_type triple) "rdf:Property" then
    if supersededBy triple then Built state
    else
      try domains <- includesOf (domainIncludes triple);
      try ranges <- includesOf (rangeIncludes triple);
      if includes BLACKLISTED_PROPERTIES id then Built state
      else Built (addToDomains id (mkProperty ranges (rdfs_comment triple)) domains th,
                  enums)
  else if String.eqb (t_type triple) "rdfs:Class" then
    try _extends <- getIncludes (match subClassOf_ triple with
                                 | Some incl => incl
                                 | None => ManyRefs []
                                 end);
    Built (updateNode (ensureType th id) id
                      (declareClass id (rdfs_comment triple) _extends),
           enums)
  else Failed (UnknownTripleType (t_type triple)).

Fixpoint buildGraph (triples : list Triple) (state : JsObj RawDef * JsObj (list string))
  : built (JsObj RawDef * JsObj (list string)) :=
  match triples with
  | [] => Built state
  | triple :: rest => try state' <- processTriple state triple; buildGraph rest state'
  end.

(** ** The vocabulary of the builder's properties *)

(** An identifier the loop does not skip. *)
Definition kept (id : string) : bool :=
  negb (objHas BUILTIN_TYPEMAP id) && negb (includes BLACKLISTED_TYPES id).

Definition cleanNode (name : string) (d : RawDef) : Prop :=
  kept name = true /\
  (forall ex, In ex (rextends d) -> ~ In ex BLACKLISTED_TYPES) /\
  (forall p, In p (objKeys (rproperties d)) -> ~ In p BLACKLISTED_PROPERTIES) /\
  List.NoDup (objKeys (rproperties d)).

Definition wellBuilt (th : JsObj RawDef) : Prop :=
  List.NoDup (objKeys th) /\
  forall name d, objGet th name = Some d -> cleanNode name d.

(** [triple] is the class declaration of [name]. *)
Definition declares (triple : Triple) (name : string) : Prop :=
  t_id triple = SCHEMA_ORG +:+ name /\ kept name = true /\
  t_type triple = "rdfs:Class".

Definition hasParent (th : JsObj RawDef) (name : string) : Prop :=
  exists d, objGet th name = Some d /\ (name <> "Thing" -> rextends d <> []).

(** [triple] gives the class [domain] the property [p] with definition [pd]. *)
Definition definesProperty (triple : Triple) (domain p : string) (pd : PropertyDef)
  : Prop :=
  t_id triple = SCHEMA_ORG +:+ p /\
  t_type triple = "rdf:Property" /\
  supersededBy triple = false /\
  (exists domains, includesOf (domainIncludes triple) = Built domains /\
                   In domain domains) /\
  includesOf (rangeIncludes triple) = Built (types pd) /\
  pcomment pd = rdfs_comment triple.

(** The values [triple] declares for the enumeration [enumtype]. *)
Definition enumValueOf (enumtype : string) (triple : Triple) : list string :=
  match getId (t_id triple) with
  | Built id =>
      if kept id && String.eqb (t_type triple) (SCHEMA_ORG +:+ enumtype)
      then [id] else []
  | Failed _ => []
  end.

Definition enumValues (triples : list Triple) (enumtype : string) : list string :=
  flat_map (enumValueOf enumtype) triples.

(** The shape of a triple the loop accepts. *)
Definition accepted (triple : Triple) : Prop :=
  exists id, t_id triple = SCHEMA_ORG +:+ id /\
    (kept id = true ->
     startsWith (t_type triple) SCHEMA_ORG = true \/
     t_type triple = "rdf:Property" \/ t_type triple = "rdfs:Class").

(** * The paraphrase HIT creator *)

From Stdlib Require Import DecimalString DecimalNat.

(** A row of the input, with the columns [_transform] reads. *)
Record InputRow : Type := mkRow {
  row_id : string;
  target_code : string;
  utterance : string
}.

(** The template literal on the counter: its decimal digits. *)
Definition decimal (n : nat) : string := NilEmpty.string_of_uint (Nat.to_uint n).

(** The state of the transform stream. [_sentencesPerTask] is compared with
    the counter, which is a positive integer, by [===]. *)
Record ParaphraseHITCreator : Type := mkCreator {
  _sentencesPerTask : nat;
  _i : nat;
  _buffer : JsObj string
}.

Definition newCreator (sentencesPerTask : nat) : ParaphraseHITCreator :=
  {| _sentencesPerTask := sentencesPerTask; _i := 0; _buffer := [] |}.

(** [_transform(row)]: the next state and what is passed to [callback]. *)
Definition _transform (self : ParaphraseHITCreator) (row : InputRow)
  : ParaphraseHITCreator * list (JsObj string) :=
  let i := S (_i self) in
  let buffer := objSet (_buffer self) ("id" +:+ decimal i) (row_id row) in
  let buffer := objSet buffer ("thingtalk" +:+ decimal i) (target_code row) in
  let buffer := objSet buffer ("sentence" +:+ decimal i) (utterance row) in
  if (i =? _sentencesPerTask self)%nat
  then ({| _sentencesPerTask := _sentencesPerTask self; _i := 0; _buffer := [] |},
        [buffer])
  else ({| _sentencesPerTask := _sentencesPerTask self; _i := i; _buffer := buffer |},
        []).

(** [_flush] passes nothing on. *)
Definition _flush (self : ParaphraseHITCreator) : list (JsObj string) := [].

(** The objects the stream passes on, for the rows written to it. *)
Fixpoint hits (self : ParaphraseHITCreator) (rows : list InputRow) : list (JsObj string) :=
  match rows with
  | [] => _flush self
  | row :: rest => let (self', out) := _transform self row in out ++ hits self' rest
  end.

(** The columns of a task for [rows], numbered from [i]. *)
Fixpoint taskFrom (i : nat) (rows : list InputRow) : JsObj string :=
  match rows with
  | [] => []
  | row :: rest =>
      ("id" +:+ decimal i, row_id row)
        :: ("thingtalk" +:+ decimal i, target_code row)
        :: ("sentence" +:+ decimal i, utterance row)
        :: taskFrom (S i) rest
  end.

(** * Samples for the further properties *)

(** A rank for the sample hierarchies: [Thing] below [StructuredValue]
    below the rest. *)
Definition sampleRank (x : string) : nat :=
  if String.eqb x "Thing" then 0
  else if String.eqb x "StructuredValue" then 1 else 2.

(** The check of [rankedRaw] and [ranked] on a given hierarchy. *)
Definition rankedRawb (th : JsObj RawDef) (rank : string -> nat) : bool :=
  forallb (fun e => forallb (fun b => negb (objHas th b) || (rank b <? rank (fst e))%nat)
                            (rextends (snd e))) th.

Definition rankedb (th : JsObj TypeDef) (rank : string -> nat) : bool :=
  forallb (fun e => forallb (fun b => negb (objHas th b) || (rank b <? rank (fst e))%nat)
                            (extends (snd e))) th.

(** Two classes that extend each other. *)
Definition loopRaw : JsObj RawDef :=
  [ ("A", rawNode ["B"] []); ("B", rawNode ["A"] []) ].

(** The pair of structured values after the cycle-breaking loop. *)
Definition pairBroken : JsObj TypeDef :=
  Eval vm_compute in classified (breakCycles 5 pairFlagged).

(** A graph with two classes, one of them without a parent, a black-listed
    class, a property of both classes, a black-listed property and two
    values of an enumeration. *)
Definition classTriple (name : string) (parents : option Includes) : Triple :=
  {| t_id := SCHEMA_ORG +:+ name; t_type := "rdfs:Class"; supersededBy := false;
     domainIncludes := None; rangeIncludes := None; subClassOf_ := parents;
     rdfs_comment := "" |}.

Definition propertyTriple (name : string) (domains ranges : Includes) : Triple :=
  {| t_id := SCHEMA_ORG +:+ name; t_type := "rdf:Property"; supersededBy := false;
     domainIncludes := Some domains; rangeIncludes := Some ranges;
     subClassOf_ := None; rdfs_comment := "" |}.

Definition valueTriple (name enumtype : string) : Triple :=
  {| t_id := SCHEMA_ORG +:+ name; t_type := SCHEMA_ORG +:+ enumtype;
     supersededBy := false; domainIncludes := None; rangeIncludes := None;
     subClassOf_ := None; rdfs_comment := "" |}.

Definition sampleGraph : list Triple :=
  [ classTriple "Thing" None;
    classTriple "Store" None;
    classTriple "Researcher" (Some (OneRef "http://schema.org/Thing"));
    propertyTriple "openingHours"
      (ManyRefs ["http://schema.org/Store"; "http://schema.org/Thing"])
      (OneRef "http://schema.org/Text");
    propertyTriple "sameAs" (OneRef "http://schema.org/Thing")
      (OneRef "http://schema.org/URL");
    valueTriple "Friday" "DayOfWeek";
    valueTriple "Monday" "DayOfWeek" ].

Definition builtOf (r : built (JsObj RawDef * JsObj (list string)))
  : JsObj RawDef * JsObj (list string) :=
  match r with Built state => state | Failed _ => ([], []) end.

Definition sampleBuilt : JsObj RawDef * JsObj (list string) :=
  Eval vm_compute in builtOf (buildGraph sampleGraph ([], [])).

(** Five rows, for tasks of two sentences. *)
Definition sampleRow (n : string) : InputRow :=
  {| row_id := n; target_code := "now => @org.schema.Store() => notify;";
     utterance := "show me stores" |}.

(** * The vocabulary of the outcome of [makeCompoundType] and of the emitted sequence *)

(** The resolutions the loop of [makeCompoundType] asks for, in collection
    order: the first that throws ends the loop. *)
Fixpoint resolveAll (resolve : string -> PropertyDef -> result (option (string * TType)))
  (all : JsObj PropertyDef) : result (list (option (string * TType))) :=
  match all with
  | [] => Ok []
  | p :: rest =>
      do r <- resolve (fst p) (snd p);
      do resolved <- resolveAll resolve rest;
      Ok (r :: resolved)
  end.

(** The names of the properties that resolve to a type, in order. *)
Fixpoint survivingNames (all : JsObj PropertyDef)
  (resolved : list (option (string * TType))) : list string :=
  match all, resolved with
  | p :: all', r :: resolved' =>
      if resolvesToNone r then survivingNames all' resolved'
      else fst p :: survivingNames all' resolved'
  | _, _ => []
  end.

(** The nodes that are not actions, enumerations or structs, in the order
    of the hierarchy. *)
Definition emittableTypes (th : JsObj TypeDef) : list string :=
  map fst (List.filter (fun e => emittable (snd e)) th).

(** A struct with a property of its own and a property whose type is a
    struct without properties. *)
Definition nestedRaw : JsObj RawDef :=
  [ ("Thing", rawNode [] []);
    ("StructuredValue", rawNode ["Thing"] []);
    ("T", rawNode ["StructuredValue"] []);
    ("S", rawNode ["StructuredValue"]
       [("a", mkProperty ["Text"] "The a."); ("p", mkProperty ["T"] "The p.")]) ].

Definition nestedClassified : JsObj TypeDef :=
  Eval vm_compute in classified (classify 5 nestedRaw []).

(** A class named by a keyword, below a class that comes after the class
    that has the name the keyword is written under. *)
Definition collisionRaw : JsObj RawDef :=
  [ ("Thing", rawNode [] []);
    ("_new", rawNode ["Thing"] []);
    ("P", rawNode ["Thing"] []);
    ("new", rawNode ["P"] []) ].

Definition collisionClassified : JsObj TypeDef :=
  Eval vm_compute in classified (classify 5 collisionRaw []).

(** * Properties *)
Lemma bind_Ok {A B : Type} (r : result A) (k : A -> result B) (b : B) :
  bind r k = Ok b -> exists a, r = Ok a /\ k a = Ok b.
Proof. destruct r as [a|e]; simpl; [eauto | discriminate]. Qed.

Lemma foldM_app {A S : Type} (body : S -> A -> result S) (l1 l2 : list A) (s : S) :
  foldM body (l1 ++ l2) s = (do s' <- foldM body l1 s; foldM body l2 s').
Proof.
  revert s; induction l1 as [|a l1 IH]; intros s; simpl; [reflexivity|].
  destruct (body s a); simpl; auto.
Qed.

Lemma includes_true l s : includes l s = true <-> In s l.
Proof.
  unfold includes. rewrite existsb_exists. split.
  - intros (x & Hx & E). apply String.eqb_eq in E. now subst.
  - intros H. exists s. split; [assumption | apply String.eqb_refl].
Qed.

Lemma objGet_In {V : Type} (o : JsObj V) k v :
  objGet o k = Some v -> In (k, v) o.
Proof.
  induction o as [|[k' v'] o IH]; simpl; [discriminate|].
  destruct (String.eqb k' k) eqn:E.
  - apply String.eqb_eq in E. intros [= ->]. subst. now left.
  - intros H. right. auto.
Qed.

Lemma objGet_keys {V : Type} (o : JsObj V) k :
  In k (objKeys o) <-> exists v, objGet o k = Some v.
Proof.
  induction o as [|[k' v'] o IH]; simpl.
  - split; [tauto | intros [v H]; discriminate].
  - destruct (String.eqb k' k) eqn:E.
    + apply String.eqb_eq in E. subst. split; eauto.
    + apply String.eqb_neq in E. rewrite <- IH. split; [|tauto].
      intros [H|H]; [contradiction | assumption].
Qed.

(** ** Dictionaries *)

Lemma objGet_assignStruct th k b x :
  objGet (assignStruct th k b) x =
  if String.eqb x k then option_map (fun d => setRepresentAsStruct d b) (objGet th x)
  else objGet th x.
Proof.
  induction th as [|[k' d] th IH]; simpl.
  - now destruct (String.eqb x k).
  - destruct (String.eqb k' k) eqn:E1; simpl; destruct (String.eqb k' x) eqn:E2.
    + apply String.eqb_eq in E1, E2. subst. now rewrite String.eqb_refl.
    + exact IH.
    + apply String.eqb_neq in E1. apply String.eqb_eq in E2. subst.
      apply String.eqb_neq in E1. now rewrite E1.
    + exact IH.
Qed.

Lemma objKeys_assignStruct th k b : objKeys (assignStruct th k b) = objKeys th.
Proof.
  unfold objKeys, assignStruct. rewrite map_map. apply map_ext.
  intros [k' d]; simpl. now destruct (String.eqb k' k).
Qed.

Lemma objHas_true {V : Type} (o : JsObj V) k :
  objHas o k = true <-> exists v, objGet o k = Some v.
Proof.
  unfold objHas. destruct (objGet o k); split; eauto; try discriminate.
  intros [v H]; discriminate.
Qed.

Lemma isStruct_true th k :
  isStruct th k = true <-> exists d, objGet th k = Some d /\ representAsStruct d = true.
Proof.
  unfold isStruct. destruct (objGet th k) as [d|]; split.
  - eauto.
  - now intros (d' & [= <-] & H).
  - discriminate.
  - intros (d' & H & _). discriminate.
Qed.

(** ** Representation cycles *)

Lemma structTargets_edge th a d b :
  objGet th a = Some d -> (In b (structTargets th d) <-> structEdge th a b).
Proof.
  intros Ha. unfold structTargets, structEdge. rewrite in_flat_map. split.
  - intros (p & Hp & Hb). apply filter_In in Hb as [Hb Hc].
    apply andb_true_iff in Hc as [Hc1 Hc2]. apply negb_true_iff in Hc1.
    exists d, p. auto.
  - intros (d' & p & Hd & Hp & Hb & Hc1 & Hc2). rewrite Ha in Hd. injection Hd as <-.
    exists p. split; [assumption|]. apply filter_In. split; [assumption|].
    now rewrite Hc1, Hc2.
Qed.

Lemma findCycleLoop_false th lookfor call ts :
  (forall x V V', lookfor ∈ V -> call x V = Ok (false, V') ->
                  falseSpec th lookfor x V V') ->
  forall W W', lookfor ∈ W -> findCycleLoop call ts W = Ok (false, W') ->
  W ⊆ W' /\ (forall t, In t ts -> t ∈ W' /\ t <> lookfor) /\
  closedOver th lookfor W W'.
Proof.
  intros Hcall. induction ts as [|t ts IH]; intros W W' HW; simpl.
  - intros [= <-]. split; [set_solver|]. split; [intros t []|].
    intros y H1 H2; contradiction.
  - intros H. apply bind_Ok in H as ([b W1] & Ht & H). simpl in H.
    destruct b; [discriminate|].
    destruct (Hcall _ _ _ HW Ht) as (S1 & S2 & S3 & S4).
    destruct (IH W1 W' ltac:(set_solver) H) as (T1 & T2 & T3).
    split; [set_solver|]. split.
    + intros t' [<-|Hin]; [split; [set_solver | assumption] | auto].
    + intros y Hy HyW z Hz. destruct (decide (y ∈ W1)) as [Hy1|Hy1].
      * destruct (S4 y Hy1 HyW z Hz). split; [set_solver | assumption].
      * exact (T3 y Hy Hy1 z Hz).
Qed.

Lemma findCycle_false th lookfor fuel :
  forall x V V', lookfor ∈ V -> findCycle fuel th x lookfor V = Ok (false, V') ->
  falseSpec th lookfor x V V'.
Proof.
  induction fuel as [|fuel IH]; intros x V V' Hl; simpl; [discriminate|].
  case_bool_decide as Hx.
  - intros [= E <-]. apply String.eqb_neq in E.
    split; [set_solver|]. split; [assumption|]. split; [assumption|].
    intros y H1 H2; contradiction.
  - destruct (objGet th x) as [d|] eqn:Hd; [|discriminate]. intros H.
    apply (findCycleLoop_false th lookfor _ _ IH) in H as (S1 & S2 & S3);
      [|set_solver].
    split; [set_solver|]. split; [set_solver|]. split; [set_solver|].
    intros y Hy HyV z Hz. destruct (decide (y = x)) as [->|Hne].
    + apply S2. now apply (structTargets_edge th x d).
    + apply (S3 y Hy); [set_solver | assumption].
Qed.

(** A search from [lookfor] that answers [false]: no cycle through it. *)
Lemma findCycle_sound th lookfor fuel V' :
  findCycle fuel th lookfor lookfor ∅ = Ok (false, V') ->
  ~ tc (structEdge th) lookfor lookfor.
Proof.
  destruct fuel as [|fuel]; simpl; [discriminate|].
  case_bool_decide as Hx; [set_solver|].
  destruct (objGet th lookfor) as [d|] eqn:Hd; [|discriminate]. intros H.
  apply (findCycleLoop_false th lookfor _ _ (findCycle_false th lookfor fuel))
    in H as (S1 & S2 & S3); [|set_solver].
  assert (Hreach : forall a m, tc (structEdge th) a m ->
                     a = lookfor \/ (a ∈ V' /\ a <> lookfor) ->
                     m ∈ V' /\ m <> lookfor).
  { assert (Hstep : forall a m, structEdge th a m ->
                      a = lookfor \/ (a ∈ V' /\ a <> lookfor) ->
                      m ∈ V' /\ m <> lookfor).
    { intros a m Hedge [->|[Ha Hne]].
      - apply S2. now apply (structTargets_edge th lookfor d).
      - apply (S3 a Ha); [set_solver | assumption]. }
    intros a m Htc. induction Htc as [a m Hedge | a y m Hedge _ IHtc]; intros Ha.
    - eauto.
    - apply IHtc. right. eauto. }
  intros Hcyc. destruct (Hreach _ _ Hcyc (or_introl eq_refl)) as [_ Hne].
  now apply Hne.
Qed.

Lemma findCycleLoop_true th lookfor call ts :
  (forall x V V', call x V = Ok (true, V') -> rtc (structEdge th) x lookfor) ->
  forall W W', findCycleLoop call ts W = Ok (true, W') ->
  exists t, In t ts /\ rtc (structEdge th) t lookfor.
Proof.
  intros Hcall. induction ts as [|t ts IH]; intros W W'; simpl; [discriminate|].
  intros H. apply bind_Ok in H as ([b W1] & Ht & H). simpl in H. destruct b.
  - exists t. split; [now left | eauto].
  - destruct (IH _ _ H) as (t' & Hin & Hr). exists t'. split; [now right | assumption].
Qed.

Lemma findCycle_true th lookfor fuel :
  forall x V V', findCycle fuel th x lookfor V = Ok (true, V') ->
  rtc (structEdge th) x lookfor.
Proof.
  induction fuel as [|fuel IH]; intros x V V'; simpl; [discriminate|].
  case_bool_decide as Hx.
  - intros [= E _]. apply String.eqb_eq in E. subst. apply rtc_refl.
  - destruct (objGet th x) as [d|] eqn:Hd; [|discriminate]. intros H.
    apply (findCycleLoop_true th lookfor _ _ IH) in H as (t & Hin & Hr).
    eapply rtc_l; [|exact Hr]. now apply (structTargets_edge th x d).
Qed.

(** A search from [lookfor] that answers [true] has found a cycle. *)
Lemma findCycle_complete th lookfor fuel V' :
  findCycle fuel th lookfor lookfor ∅ = Ok (true, V') ->
  tc (structEdge th) lookfor lookfor.
Proof.
  destruct fuel as [|fuel]; simpl; [discriminate|].
  case_bool_decide as Hx; [set_solver|].
  destruct (objGet th lookfor) as [d|] eqn:Hd; [|discriminate]. intros H.
  apply (findCycleLoop_true th lookfor _ _ (findCycle_true th lookfor fuel))
    in H as (t & Hin & Hr).
  eapply tc_rtc_r; [|exact Hr]. apply tc_once. now apply (structTargets_edge th lookfor d).
Qed.

(** ** Hierarchies that differ by demotions *)

Lemma setRepresentAsStruct_same d : setRepresentAsStruct d (representAsStruct d) = d.
Proof. now destruct d. Qed.

Lemma demotion_refl th : demotion th th.
Proof.
  split; [reflexivity|]. intros x d' H. exists d'.
  now rewrite setRepresentAsStruct_same.
Qed.

Lemma demotion_trans th1 th2 th3 :
  demotion th1 th2 -> demotion th2 th3 -> demotion th1 th3.
Proof.
  intros [K1 D1] [K2 D2]. split; [congruence|]. intros x d3 H3.
  destruct (D2 x d3 H3) as (d2 & H2 & E2 & M2).
  destruct (D1 x d2 H2) as (d1 & H1 & E1 & M1).
  exists d1. split; [assumption|]. split; [|auto].
  rewrite E2, E1. reflexivity.
Qed.

Lemma demotion_assign th k : demotion th (assignStruct th k false).
Proof.
  split; [apply objKeys_assignStruct|]. intros x d'. rewrite objGet_assignStruct.
  destruct (String.eqb x k).
  - destruct (objGet th x) as [d|]; simpl; [|discriminate]. intros [= <-].
    exists d. split; [reflexivity|]. split; [reflexivity | discriminate].
  - intros H. exists d'. now rewrite setRepresentAsStruct_same.
Qed.

Lemma demotion_get th th' x d :
  demotion th th' -> objGet th x = Some d ->
  exists d', objGet th' x = Some d' /\
             d' = setRepresentAsStruct d (representAsStruct d') /\
             (representAsStruct d' = true -> representAsStruct d = true).
Proof.
  intros [K D] H.
  assert (Hin : In x (objKeys th')) by (rewrite K; apply objGet_keys; eauto).
  apply objGet_keys in Hin as [d' Hd']. exists d'. split; [assumption|].
  destruct (D x d' Hd') as (d0 & H0 & E & M). rewrite H in H0. injection H0 as <-. auto.
Qed.

Lemma demotion_objHas th th' x : demotion th th' -> objHas th' x = objHas th x.
Proof.
  intros HD. unfold objHas. destruct (objGet th x) as [d|] eqn:H.
  - destruct (demotion_get _ _ _ _ HD H) as (d' & -> & _). reflexivity.
  - destruct (objGet th' x) as [d'|] eqn:H'; [|reflexivity].
    destruct HD as [_ D]. destruct (D x d' H') as (d & H0 & _). congruence.
Qed.

Lemma demotion_isStruct th th' x :
  demotion th th' -> isStruct th' x = true -> isStruct th x = true.
Proof.
  intros [_ D] H. apply isStruct_true in H as (d' & Hd' & Hr).
  destruct (D x d' Hd') as (d & Hd & _ & M). apply isStruct_true. eauto.
Qed.

Lemma demotion_isStruct_false th th' x :
  demotion th th' -> isStruct th x = false -> isStruct th' x = false.
Proof.
  intros HD H. destruct (isStruct th' x) eqn:E; [|reflexivity].
  apply (demotion_isStruct _ _ _ HD) in E. congruence.
Qed.

Lemma demotion_structEdge th th' a b :
  demotion th th' -> structEdge th' a b -> structEdge th a b.
Proof.
  intros HD (d' & p & Hd' & Hp & Hb & Hc & Hs).
  destruct HD as [K D]. destruct (D a d' Hd') as (d & Hd & E & _).
  exists d, p. split; [assumption|]. rewrite E in Hp. simpl in Hp.
  repeat split; try assumption. eapply demotion_isStruct; [split; eassumption | assumption].
Qed.

Lemma demotion_cycle th th' a b :
  demotion th th' -> tc (structEdge th') a b -> tc (structEdge th) a b.
Proof.
  intros HD H. induction H as [a b H | a y b H _ IH].
  - apply tc_once. eapply demotion_structEdge; eassumption.
  - eapply tc_l; [|exact IH]. eapply demotion_structEdge; eassumption.
Qed.

(** ** The cycle-breaking loop *)

Lemma acyclicAt_demotion th th' x :
  demotion th th' -> acyclicAt th x -> acyclicAt th' x.
Proof.
  intros HD HA d' Hd' He Hr Hc. destruct HD as [K D].
  destruct (D x d' Hd') as (d & Hd & E & M).
  apply (HA d Hd); [rewrite E in He; exact He | auto |].
  eapply demotion_cycle; [split; eassumption | exact Hc].
Qed.

Lemma breakCycleStep_spec fuel th k th' :
  breakCycleStep fuel th k = Ok th' ->
  demotion th th' /\ acyclicAt th' k /\
  (forall x, x <> k -> objGet th' x = objGet th x).
Proof.
  unfold breakCycleStep. destruct (objGet th k) as [d|] eqn:Hd; [|discriminate].
  destruct (isEnum d) eqn:He.
  { intros [= <-]. split; [apply demotion_refl|]. split; [|reflexivity].
    intros d0 H0. congruence. }
  destruct (representAsStruct d) eqn:Hr; simpl.
  2:{ intros [= <-]. split; [apply demotion_refl|]. split; [|reflexivity].
      intros d0 H0. congruence. }
  intros H. apply bind_Ok in H as ([b V] & Hf & H). simpl in H. destruct b.
  - injection H as <-. split; [apply demotion_assign|]. split.
    + intros d0. rewrite objGet_assignStruct, String.eqb_refl, Hd. simpl.
      intros [= <-]. discriminate.
    + intros x Hx. rewrite objGet_assignStruct.
      apply String.eqb_neq in Hx. now rewrite Hx.
  - injection H as <-. split; [apply demotion_refl|]. split; [|reflexivity].
    intros _ _ _ _. eapply findCycle_sound; eassumption.
Qed.

Lemma breakCycles_loop fuel ks :
  forall th th', foldM (breakCycleStep fuel) ks th = Ok th' ->
  demotion th th' /\ (forall k, In k ks -> acyclicAt th' k).
Proof.
  induction ks as [|k ks IH]; intros th th'; simpl.
  - intros [= <-]. split; [apply demotion_refl | intros k []].
  - intros H. apply bind_Ok in H as (th1 & H1 & H).
    destruct (breakCycleStep_spec _ _ _ _ H1) as (D1 & A1 & _).
    destruct (IH _ _ H) as (D2 & A2). split; [eapply demotion_trans; eassumption|].
    intros x [<-|Hin]; [eapply acyclicAt_demotion; eassumption | auto].
Qed.

Lemma breakCycles_spec fuel th th' :
  breakCycles fuel th = Ok th' ->
  demotion th th' /\ (forall k, acyclicAt th' k).
Proof.
  intros H. apply breakCycles_loop in H as [D A]. split; [assumption|].
  intros k d Hd. apply (A k); [|assumption]. unfold breakCycles in *.
  destruct D as [K D]. rewrite <- K. apply objGet_keys. eauto.
Qed.

(** ** Ancestor propagation *)

Lemma demotion_parentEdge th th' a b :
  demotion th th' -> (parentEdge th' a b <-> parentEdge th a b).
Proof.
  intros HD. split.
  - intros (d' & Hd' & Hb & Hh). destruct HD as [K D].
    destruct (D a d' Hd') as (d & Hd & E & _). exists d. split; [assumption|].
    rewrite E in Hb. split; [exact Hb|].
    now rewrite <- (demotion_objHas th th' b (conj K D)).
  - intros (d & Hd & Hb & Hh).
    destruct (demotion_get _ _ _ _ HD Hd) as (d' & Hd' & E & _).
    exists d'. split; [assumption|]. rewrite E. split; [exact Hb|].
    now rewrite (demotion_objHas th th' b HD).
Qed.

Lemma demotion_ancestors th th' a b :
  demotion th th' -> (rtc (parentEdge th') a b <-> rtc (parentEdge th) a b).
Proof.
  intros HD. split; intros H; induction H as [|a y b H _ IH]; try apply rtc_refl;
    (eapply rtc_l; [|exact IH]); now apply (demotion_parentEdge th th' a y HD).
Qed.

Lemma isStruct_assignStruct th k x :
  isStruct (assignStruct th k false) x =
  if String.eqb x k then false else isStruct th x.
Proof.
  unfold isStruct. rewrite objGet_assignStruct. destruct (String.eqb x k); [|reflexivity].
  now destruct (objGet th x).
Qed.

Lemma recursiveMakeNonStruct_loop
  (call : JsObj TypeDef -> string -> result (JsObj TypeDef)) es :
  (forall th z th', objHas th z = true -> call th z = Ok th' -> clearsFrom th th' [z]) ->
  forall th th',
    foldM (fun s e => if negb (objHas s e) then Ok s else call s e) es th = Ok th' ->
    clearsFrom th th' (List.filter (fun e => objHas th e) es).
Proof.
  intros Hcall. induction es as [|e es IH]; intros th th'; simpl.
  - intros [= <-]. split; [apply demotion_refl|]. split; [intros z y []|].
    intros y H1 H2. congruence.
  - intros H. apply bind_Ok in H as (th1 & H1 & H).
    assert (Hstep : clearsFrom th th1 (if objHas th e then [e] else [])).
    { destruct (objHas th e) eqn:He; simpl in H1.
      - now apply Hcall.
      - injection H1 as <-. split; [apply demotion_refl|]. split; [intros z y []|].
        intros y Hy1 Hy2. congruence. }
    clear H1. destruct Hstep as (D1 & C1 & N1).
    destruct (IH _ _ H) as (D2 & C2 & N2). split; [eapply demotion_trans; eassumption|].
    assert (Hf : List.filter (fun e0 => objHas th1 e0) es
                 = List.filter (fun e0 => objHas th e0) es).
    { apply filter_ext. intros a. now apply demotion_objHas. }
    rewrite Hf in C2, N2. split.
    + intros z y Hz Hr. destruct (objHas th e) eqn:He.
      * destruct Hz as [<-|Hz].
        -- eapply demotion_isStruct_false; [exact D2|]. eapply C1; [now left | exact Hr].
        -- eapply C2; [exact Hz|]. now apply (demotion_ancestors th th1 z y D1).
      * eapply C2; [exact Hz|]. now apply (demotion_ancestors th th1 z y D1).
    + intros y Hy1 Hy2. destruct (isStruct th1 y) eqn:Hy.
      * destruct (N2 y Hy Hy2) as (z & Hz & Hr). exists z.
        split; [destruct (objHas th e); [now right | assumption]|].
        now apply (demotion_ancestors th th1 z y D1).
      * destruct (N1 y Hy1 Hy) as (z & Hz & Hr). exists z. split; [|assumption].
        destruct (objHas th e); [|destruct Hz]. destruct Hz as [<-|[]]. now left.
Qed.

Lemma recursiveMakeNonStruct_spec fuel :
  forall th z th', objHas th z = true ->
    recursiveMakeNonStruct fuel th z = Ok th' -> clearsFrom th th' [z].
Proof.
  induction fuel as [|fuel IH]; intros th z th' Hz; simpl; [discriminate|].
  destruct (objGet th z) as [d|] eqn:Hd; [|discriminate]. intros H.
  apply (recursiveMakeNonStruct_loop _ _ IH) in H as (D & C & N).
  pose proof (demotion_assign th z) as D0.
  assert (Hf : forall e, In e (List.filter (fun e => objHas (assignStruct th z false) e)
                                           (extends d)) -> parentEdge th z e).
  { intros e He. apply filter_In in He as [He1 He2]. exists d.
    split; [assumption|]. split; [assumption|].
    now rewrite <- (demotion_objHas th _ e D0). }
  split; [eapply demotion_trans; eassumption|]. split.
  - intros z' y [<-|[]] Hr. inversion Hr as [|a e b He Hr' Ea]; subst.
    + eapply demotion_isStruct_false; [exact D|].
      rewrite isStruct_assignStruct. now rewrite String.eqb_refl.
    + destruct He as (d0 & Hd0 & He1 & He2). rewrite Hd in Hd0. injection Hd0 as <-.
      eapply (C e y).
      * apply filter_In. split; [assumption|]. now rewrite (demotion_objHas th _ e D0).
      * now apply (demotion_ancestors th _ e y D0).
  - intros y Hy1 Hy2. exists z. split; [now left|].
    destruct (isStruct (assignStruct th z false) y) eqn:Hy.
    + destruct (N y Hy Hy2) as (e & He & Hr). eapply rtc_l; [apply Hf; exact He|].
      now apply (demotion_ancestors th _ e y D0).
    + rewrite isStruct_assignStruct in Hy. destruct (String.eqb y z) eqn:E; [|congruence].
      apply String.eqb_eq in E. subst. apply rtc_refl.
Qed.

Lemma clearsFrom_settled th th' zs x :
  clearsFrom th th' zs -> settled th x -> settled th' x.
Proof.
  intros (D & C & N) Hs Hx y Hr. apply (demotion_ancestors th th' x y D) in Hr.
  destruct (isStruct th x) eqn:E.
  - destruct (N x E Hx) as (z & Hz & Hzx). eapply C; [exact Hz|].
    eapply rtc_trans; eassumption.
  - eapply demotion_isStruct_false; [exact D|]. now apply Hs.
Qed.

Lemma clearsFrom_refl th : clearsFrom th th [].
Proof.
  split; [apply demotion_refl|]. split; [intros z y []|]. intros y H1 H2. congruence.
Qed.

Lemma propagateStep_spec fuel th k th' :
  propagateStep fuel th k = Ok th' ->
  exists zs, clearsFrom th th' zs /\
             (forall d', objGet th' k = Some d' -> isEnum d' = false -> settled th' k).
Proof.
  unfold propagateStep. destruct (objGet th k) as [d|] eqn:Hd; [|discriminate].
  destruct (isEnum d) eqn:He.
  { intros [= <-]. exists []. split; [apply clearsFrom_refl|]. intros d' Hd'. congruence. }
  destruct (representAsStruct d) eqn:Hr.
  { intros [= <-]. exists []. split; [apply clearsFrom_refl|]. intros d' Hd' _ Hs.
    unfold isStruct in Hs. rewrite Hd in Hs. congruence. }
  intros H. apply recursiveMakeNonStruct_spec in H; [|apply objHas_true; eauto].
  exists [k]. split; [assumption|]. intros d' Hd' _ _ y Hy.
  destruct H as (D & C & _). eapply C; [now left|].
  now apply (demotion_ancestors th th' k y D).
Qed.

Lemma propagate_loop fuel ks :
  forall th th', foldM (propagateStep fuel) ks th = Ok th' ->
  demotion th th' /\
  (forall x, settled th x -> settled th' x) /\
  (forall k d', In k ks -> objGet th' k = Some d' -> isEnum d' = false -> settled th' k).
Proof.
  induction ks as [|k ks IH]; intros th th'; simpl.
  - intros [= <-]. split; [apply demotion_refl|]. split; [auto | intros k d' []].
  - intros H. apply bind_Ok in H as (th1 & H1 & H).
    destruct (propagateStep_spec _ _ _ _ H1) as (zs & C1 & S1).
    destruct (IH _ _ H) as (D2 & P2 & S2).
    split; [eapply demotion_trans; [apply C1 | exact D2]|]. split.
    + intros x Hx. apply P2. eapply clearsFrom_settled; eassumption.
    + intros x d' [<-|Hin] Hd' He; [|eauto]. apply P2.
      destruct D2 as [K2 D2]. destruct (D2 k d' Hd') as (d1 & Hd1 & E & _).
      apply (S1 d1 Hd1). rewrite E in He. exact He.
Qed.

(** ** The flag pass *)

Lemma isSubClassLoop_spec th call b es :
  (forall e r, call e = Ok r -> (r = true <-> subClassOf th e b)) ->
  forall r, isSubClassLoop th call b es = Ok r ->
  (r = true <-> exists e, In e es /\ (e = b \/ (objHas th e = true /\ subClassOf th e b))).
Proof.
  intros Hcall. induction es as [|e es IH]; intros r; simpl.
  - intros [= <-]. split; [discriminate | intros (e & [] & _)].
  - destruct (String.eqb e b) eqn:Eb.
    { apply String.eqb_eq in Eb. intros [= <-]. split; [|reflexivity].
      intros _. exists e. split; [now left | now left]. }
    apply String.eqb_neq in Eb.
    assert (Hrest : forall r, isSubClassLoop th call b es = Ok r ->
                      ~ (objHas th e = true /\ subClassOf th e b) ->
                      (r = true <-> exists e0, In e0 (e :: es) /\
                         (e0 = b \/ (objHas th e0 = true /\ subClassOf th e0 b)))).
    { intros r0 H0 Hno. rewrite (IH r0 H0). split.
      - intros (e0 & Hin & H). exists e0. split; [now right | assumption].
      - intros (e0 & [<-|Hin] & H); [|eauto]. destruct H as [H|H]; contradiction. }
    destruct (objHas th e) eqn:He; simpl.
    + intros H. apply bind_Ok in H as (r0 & Hr0 & H). destruct r0.
      * injection H as <-. split; [|reflexivity]. intros _. exists e.
        split; [now left|]. right. split; [assumption|]. now apply (Hcall e true).
      * apply Hrest; [assumption|]. intros [_ Hs]. apply (Hcall e false Hr0) in Hs.
        discriminate.
    + intros H. apply Hrest; [assumption|]. intros [? _]. discriminate.
Qed.

Lemma isSubClass_spec fuel th b :
  forall x r, isSubClass fuel th x b = Ok r -> (r = true <-> subClassOf th x b).
Proof.
  induction fuel as [|fuel IH]; intros x r; simpl; [discriminate|].
  destruct (objGet th x) as [d|] eqn:Hd; [|discriminate]. intros H.
  rewrite (isSubClassLoop_spec _ _ _ _ IH r H). split.
  - intros (e & Hin & [->|[He Hs]]); [eapply sub_direct | eapply sub_step]; eassumption.
  - intros Hs. inversion Hs as [x0 d0 b0 Hd0 Hin | x0 d0 e b0 Hd0 Hin He Hs']; subst;
      rewrite Hd in Hd0; injection Hd0 as <-.
    + exists b. split; [assumption | now left].
    + exists e. split; [assumption | right; auto].
Qed.

Lemma anySubClass_spec fuel th x bases :
  forall r, anySubClass fuel th x bases = Ok r ->
  (r = true <-> exists base, In base bases /\ subClassOf th x base).
Proof.
  induction bases as [|b bases IH]; intros r; simpl.
  - intros [= <-]. split; [discriminate | intros (b & [] & _)].
  - intros H. apply bind_Ok in H as (r0 & Hr0 & H).
    pose proof (isSubClass_spec _ _ _ _ _ Hr0) as Hb. destruct r0.
    + injection H as <-. split; [|reflexivity]. intros _. exists b.
      split; [now left | now apply Hb].
    + rewrite (IH r H). split.
      * intros (b0 & Hin & Hs). exists b0. split; [now right | assumption].
      * intros (b0 & [<-|Hin] & Hs); [|eauto]. apply Hb in Hs. discriminate.
Qed.

Lemma classifyType_spec fuel th enums x d d' :
  classifyType fuel th enums x d = Ok d' ->
  extends d' = rextends d /\ properties d' = rproperties d /\
  (representAsStruct d' = true <-> structLineage th x).
Proof.
  unfold classifyType. intros H.
  apply bind_Ok in H as (act & _ & H). apply bind_Ok in H as (en & _ & H).
  apply bind_Ok in H as (il & _ & H). apply bind_Ok in H as (st & Hst & H).
  injection H as <-. simpl. split; [reflexivity|]. split; [reflexivity|].
  unfold structLineage. destruct (includes STRUCTURED_HIERARCHIES x) eqn:Hi.
  - injection Hst as <-. apply includes_true in Hi. split; auto.
  - rewrite (anySubClass_spec _ _ _ _ _ Hst). split; [auto|].
    intros [Hin|H]; [|assumption]. apply includes_true in Hin. congruence.
Qed.

Lemma classifyEntries_spec fuel th enums entries :
  forall res, classifyEntries fuel th enums entries = Ok res ->
  objKeys res = objKeys entries /\
  forall x d', objGet res x = Some d' ->
    exists d, objGet entries x = Some d /\ classifyType fuel th enums x d = Ok d'.
Proof.
  induction entries as [|[k d] entries IH]; intros res; simpl.
  - intros [= <-]. split; [reflexivity | discriminate].
  - intros H. apply bind_Ok in H as (d1 & Hd1 & H).
    apply bind_Ok in H as (rest & Hrest & H). injection H as <-.
    destruct (IH _ Hrest) as [K G]. split; [simpl; now rewrite K|].
    intros x d'. simpl. destruct (String.eqb k x) eqn:E.
    + apply String.eqb_eq in E. subst. intros [= <-]. eauto.
    + apply G.
Qed.

(** After the flag pass every node is settled: a node outside the
    structured lineages has no ancestor inside one. *)
Lemma classifyFlags_settled fuel th enums th0 :
  classifyFlags fuel th enums = Ok th0 -> forall x, settled th0 x.
Proof.
  intros H. apply classifyEntries_spec in H as [K G].
  assert (Hflag : forall x d', objGet th0 x = Some d' ->
            exists d, objGet th x = Some d /\ extends d' = rextends d /\
                      (representAsStruct d' = true <-> structLineage th x)).
  { intros x d' Hd'. destruct (G x d' Hd') as (d & Hd & Hc).
    apply classifyType_spec in Hc as (E1 & _ & E2). eauto. }
  assert (Hhas : forall x, objHas th0 x = true -> objHas th x = true).
  { intros x Hx. apply objHas_true in Hx as [d' Hd'].
    destruct (Hflag x d' Hd') as (d & Hd & _). apply objHas_true. eauto. }
  assert (Hstep : forall x y, parentEdge th0 x y -> isStruct th0 x = false ->
                              isStruct th0 y = false).
  { intros x y (dx & Hdx & Hin & Hy) Hx.
    destruct (isStruct th0 y) eqn:Ey; [|reflexivity]. exfalso.
    apply isStruct_true in Ey as (dy & Hdy & Ry).
    destruct (Hflag x dx Hdx) as (rx & Hrx & Ex & Fx).
    destruct (Hflag y dy Hdy) as (ry & Hry & _ & Fy).
    rewrite Ex in Hin. apply Fy in Ry.
    assert (Lx : structLineage th x).
    { right. destruct Ry as [Hb|(base & Hb & Hs)].
      - exists y. split; [assumption|]. eapply sub_direct; eassumption.
      - exists base. split; [assumption|]. eapply sub_step; try eassumption.
        now apply Hhas. }
    apply Fx in Lx. unfold isStruct in Hx. rewrite Hdx in Hx. congruence. }
  intros x Hx y Hr. induction Hr as [|x e y He _ IH]; [assumption|].
  apply IH. eapply Hstep; eassumption.
Qed.

(** ** The classifier as a whole *)

Lemma classify_phases fuel raw enums th :
  classify fuel raw enums = Ok th ->
  exists th0 th1, classifyFlags fuel raw enums = Ok th0 /\
                  breakCycles fuel th0 = Ok th1 /\
                  propagateNonStruct fuel th1 = Ok th.
Proof.
  unfold classify. intros H. apply bind_Ok in H as (th0 & H0 & H).
  apply bind_Ok in H as (th1 & H1 & H). eauto.
Qed.

Lemma breakCycles_enum fuel ks :
  forall th th', foldM (breakCycleStep fuel) ks th = Ok th' ->
  forall x d, objGet th x = Some d -> isEnum d = true -> objGet th' x = Some d.
Proof.
  induction ks as [|k ks IH]; intros th th'; simpl.
  - now intros [= <-].
  - intros H x d Hd He. apply bind_Ok in H as (th1 & H1 & H).
    apply (IH _ _ H); [|assumption].
    destruct (String.eqb_spec x k) as [->|Hne].
    + unfold breakCycleStep in H1. rewrite Hd, He in H1. now injection H1 as <-.
    + destruct (breakCycleStep_spec _ _ _ _ H1) as (_ & _ & Hother).
      now rewrite Hother.
Qed.

Lemma demotion_settled th th' x :
  demotion th th' -> isStruct th' x = isStruct th x -> settled th x -> settled th' x.
Proof.
  intros D E Hs Hx y Hr. rewrite E in Hx.
  eapply demotion_isStruct_false; [exact D|]. apply Hs; [assumption|].
  now apply (demotion_ancestors th th' x y D).
Qed.

Lemma parentEdge_target th x y :
  objHas th x = true -> rtc (parentEdge th) x y -> objHas th y = true.
Proof.
  intros Hx Hr. induction Hr as [|x e y He _ IH]; [assumption|].
  apply IH. now destruct He as (_ & _ & _ & He).
Qed.

(** C3. After ancestor propagation, every node that is not represented as a
    struct has only ancestors (nodes reached through [extends], at any
    depth) that are not represented as structs either. *)
Theorem nonstruct_ancestors_nonstruct fuel raw enums th :
  classify fuel raw enums = Ok th ->
  forall x d, objGet th x = Some d -> representAsStruct d = false ->
  forall y, rtc (parentEdge th) x y ->
  exists dy, objGet th y = Some dy /\ representAsStruct dy = false.
Proof.
  intros H x d Hd Hr y Hy.
  apply classify_phases in H as (th0 & th1 & H0 & H1 & H2).
  pose proof (classifyFlags_settled _ _ _ _ H0) as S0.
  pose proof (breakCycles_spec _ _ _ H1) as [D1 _].
  pose proof (propagate_loop _ _ _ _ H2) as (D2 & P2 & S2).
  assert (Hsettled : settled th x).
  { destruct (isEnum d) eqn:He.
    - apply P2. destruct D2 as [K2 G2]. destruct (G2 x d Hd) as (d1 & Hd1 & E1 & _).
      destruct D1 as [K1 G1]. destruct (G1 x d1 Hd1) as (d0 & Hd0 & E0 & _).
      assert (He0 : isEnum d0 = true) by (rewrite E1, E0 in He; exact He).
      pose proof (breakCycles_enum _ _ _ _ H1 x d0 Hd0 He0) as Hsame.
      apply (demotion_settled th0 th1 x (conj K1 G1)); [|apply S0].
      unfold isStruct. now rewrite Hsame, Hd0.
    - eapply (S2 x d); [|assumption..]. destruct D2 as [K2 _]. rewrite <- K2.
      apply objGet_keys. eauto. }
  assert (Hy' : objHas th y = true).
  { eapply parentEdge_target; [|exact Hy]. apply objHas_true. eauto. }
  apply objHas_true in Hy' as [dy Hdy]. exists dy. split; [assumption|].
  assert (Hx : isStruct th x = false) by (unfold isStruct; now rewrite Hd).
  specialize (Hsettled Hx y Hy). unfold isStruct in Hsettled. now rewrite Hdy in Hsettled.
Qed.

(** X25. After classification, a type that is still represented as a
    struct and is not an enumeration lies on no cycle of struct-typed
    property edges: the edges [findCycle] follows, from a type to the struct
    candidates of the properties it declares itself. *)
Theorem struct_types_acyclic fuel raw enums th :
  classify fuel raw enums = Ok th ->
  forall x d, objGet th x = Some d -> representAsStruct d = true -> isEnum d = false ->
  ~ tc (structEdge th) x x.
Proof.
  intros H x d Hd Hr He.
  apply classify_phases in H as (th0 & th1 & H0 & H1 & H2).
  pose proof (breakCycles_spec _ _ _ H1) as [_ A1].
  pose proof (propagate_loop _ _ _ _ H2) as (D2 & _ & _).
  exact (acyclicAt_demotion th1 th x D2 (A1 x) d Hd He Hr).
Qed.

(** ** Termination of the cycle search *)

Lemma keySet_elem th x : x ∈ keySet th <-> objHas th x = true.
Proof.
  unfold keySet. rewrite elem_of_list_to_set, list_elem_of_In, objGet_keys, objHas_true.
  reflexivity.
Qed.

Lemma structTargets_known th d t : In t (structTargets th d) -> objHas th t = true.
Proof.
  unfold structTargets. rewrite in_flat_map. intros (p & _ & Ht).
  apply filter_In in Ht as [_ Ht]. apply andb_true_iff in Ht as [_ Ht].
  apply isStruct_true in Ht as (d' & Hd' & _). apply objHas_true. eauto.
Qed.

Lemma findCycleLoop_total th (call : string -> gset string -> result (bool * gset string))
  n ts :
  (forall x V, objHas th x = true -> size (keySet th ∖ V) < n ->
               exists b V', call x V = Ok (b, V') /\ V ⊆ V') ->
  (forall t, In t ts -> objHas th t = true) ->
  forall W, size (keySet th ∖ W) < n ->
  exists b W', findCycleLoop call ts W = Ok (b, W') /\ W ⊆ W'.
Proof.
  intros Hcall. induction ts as [|t ts IH]; intros Hts W HW; simpl.
  - exists false, W. split; [reflexivity | set_solver].
  - destruct (Hcall t W (Hts t (or_introl eq_refl)) HW) as (b & W1 & -> & Hsub). simpl.
    destruct b; [exists true, W1; auto|].
    destruct (IH (fun t' Hin => Hts t' (or_intror Hin)) W1) as (b & W' & -> & Hsub').
    + eapply Nat.le_lt_trans; [|exact HW]. apply subseteq_size. set_solver.
    + exists b, W'. split; [reflexivity | set_solver].
Qed.

Lemma findCycle_total th lookfor fuel :
  forall x V, objHas th x = true -> size (keySet th ∖ V) < fuel ->
  exists b V', findCycle fuel th x lookfor V = Ok (b, V') /\ V ⊆ V'.
Proof.
  induction fuel as [|fuel IH]; intros x V Hx Hsize; [lia|]. simpl.
  case_bool_decide as Hv.
  - eexists _, V. split; [reflexivity | set_solver].
  - pose proof Hx as Hx'. apply objHas_true in Hx' as [d Hd]. rewrite Hd.
    assert (Hlt : size (keySet th ∖ ({[x]} ∪ V)) < size (keySet th ∖ V)).
    { apply subset_size. apply keySet_elem in Hx. set_solver. }
    destruct (findCycleLoop_total th (fun type v => findCycle fuel th type lookfor v)
                fuel (structTargets th d) IH (structTargets_known th d)
                ({[x]} ∪ V) ltac:(lia)) as (b & V' & -> & Hsub).
    exists b, V'. split; [reflexivity | set_solver].
Qed.

Lemma keySet_size th : List.NoDup (objKeys th) -> size (keySet th) = length (objKeys th).
Proof. intros H. apply size_list_to_set. now apply NoDup_ListNoDup. Qed.

Lemma findCycle_from_empty th x fuel :
  List.NoDup (objKeys th) -> length (objKeys th) < fuel -> objHas th x = true ->
  exists b V', findCycle fuel th x x ∅ = Ok (b, V') /\
               (b = true <-> tc (structEdge th) x x).
Proof.
  intros Hnd Hlen Hx.
  destruct (findCycle_total th x fuel x ∅ Hx) as (b & V' & H & _).
  { rewrite <- (keySet_size th Hnd) in Hlen. eapply Nat.le_lt_trans; [|exact Hlen].
    apply subseteq_size. set_solver. }
  exists b, V'. split; [assumption|]. destruct b.
  - split; [intros _; eapply findCycle_complete; eassumption | reflexivity].
  - split; [discriminate|]. intros Hc. exfalso.
    eapply findCycle_sound; eassumption.
Qed.

(** One turn of the cycle-breaking loop, as a function of the graph. *)
Lemma breakCycleStep_total fuel th k d :
  List.NoDup (objKeys th) -> length (objKeys th) < fuel -> objGet th k = Some d ->
  exists th', breakCycleStep fuel th k = Ok th' /\
    (isEnum d = false -> representAsStruct d = true ->
     (tc (structEdge th) k k -> isStruct th' k = false) /\
     (~ tc (structEdge th) k k -> th' = th)).
Proof.
  intros Hnd Hlen Hd. unfold breakCycleStep. rewrite Hd.
  destruct (isEnum d); [exists th; split; [reflexivity | discriminate]|].
  destruct (representAsStruct d) eqn:Hr; [|exists th; split; [reflexivity | discriminate]].
  simpl. destruct (findCycle_from_empty th k fuel Hnd Hlen) as (b & V' & -> & Hb).
  { apply objHas_true. eauto. }
  simpl. destruct b.
  - eexists. split; [reflexivity|]. intros _ _. split.
    + intros _. rewrite isStruct_assignStruct. now rewrite String.eqb_refl.
    + intros Hn. exfalso. apply Hn. now apply Hb.
  - exists th. split; [reflexivity|]. intros _ _. split; [|reflexivity].
    intros Hc. apply Hb in Hc. discriminate.
Qed.

Lemma breakCycles_loop_total fuel ks :
  forall th, List.NoDup (objKeys th) -> length (objKeys th) < fuel ->
    (forall k, In k ks -> objHas th k = true) ->
    exists th', foldM (breakCycleStep fuel) ks th = Ok th' /\ demotion th th' /\
                (forall x, ~ In x ks -> objGet th' x = objGet th x).
Proof.
  induction ks as [|k ks IH]; intros th Hnd Hlen Hks; simpl.
  - exists th. split; [reflexivity|]. split; [apply demotion_refl | reflexivity].
  - destruct (proj1 (objHas_true th k) (Hks k (or_introl eq_refl))) as [d Hd].
    destruct (breakCycleStep_total fuel th k d Hnd Hlen Hd) as (th1 & H1 & _).
    rewrite H1. simpl.
    destruct (breakCycleStep_spec _ _ _ _ H1) as (D1 & _ & O1).
    destruct (IH th1) as (th' & H' & D' & O').
    + destruct D1 as [K1 _]. now rewrite K1.
    + destruct D1 as [K1 _]. now rewrite K1.
    + intros k' Hin. rewrite (demotion_objHas th th1 k' D1). apply Hks. now right.
    + exists th'. split; [assumption|]. split; [eapply demotion_trans; eassumption|].
      intros x Hx. rewrite O'; [apply O1|]; intros E; apply Hx; [left; congruence | now right].
Qed.

Lemma structEdge_intro th a b da db :
  objGet th a = Some da -> objGet th b = Some db -> hasCandidate da b ->
  objHas BUILTIN_TYPEMAP b = false -> representAsStruct db = true ->
  structEdge th a b.
Proof.
  intros Ha Hb (p & Hp & Ht) Hn Hr. exists da, p. repeat split; try assumption.
  apply isStruct_true. eauto.
Qed.

Lemma cycle_avoiding th th' a x y :
  demotion th th' -> isStruct th' a = false ->
  tc (structEdge th') x y -> tc (fun u v => structEdge th u v /\ v <> a) x y.
Proof.
  intros D Ha H.
  assert (Hedge : forall u v, structEdge th' u v -> structEdge th u v /\ v <> a).
  { intros u v He. split; [eapply demotion_structEdge; eassumption|].
    intros ->. destruct He as (_ & _ & _ & _ & _ & _ & Hs). congruence. }
  induction H as [x y H | x z y H _ IH].
  - apply tc_once. auto.
  - eapply tc_l; [|exact IH]. auto.
Qed.

(** C2, as the code has it.  Of two types that are not enumerations, are
    represented as structs and each have a property with the other as a
    candidate type, the one the loop visits first is demoted; the one it
    visits later stays a struct when every cycle of struct-typed edges
    through it passes through the first. *)
Theorem mutual_pair_demotes_earlier fuel th l1 l2 l3 A B dA dB :
  List.NoDup (objKeys th) ->
  objKeys th = l1 ++ A :: l2 ++ B :: l3 ->
  length (objKeys th) < fuel ->
  objGet th A = Some dA -> objGet th B = Some dB ->
  isEnum dA = false -> isEnum dB = false ->
  representAsStruct dA = true -> representAsStruct dB = true ->
  hasCandidate dA B -> hasCandidate dB A ->
  objHas BUILTIN_TYPEMAP A = false -> objHas BUILTIN_TYPEMAP B = false ->
  exists th', breakCycles fuel th = Ok th' /\
    isStruct th' A = false /\
    (~ tc (fun u v => structEdge th u v /\ v <> A) B B -> isStruct th' B = true).
Proof.
  intros Hnd Hkeys Hlen HA HB EA EB RA RB CA CB NA NB.
  assert (Hmem : forall k, In k (objKeys th) -> objHas th k = true).
  { intros k Hk. apply objHas_true. now apply objGet_keys. }
  assert (Hsplit : List.NoDup (l1 ++ A :: l2 ++ B :: l3)) by now rewrite <- Hkeys.
  assert (HA1 : ~ In A l1).
  { intros Hin. apply NoDup_remove_2 in Hsplit. apply Hsplit. apply in_or_app. now left. }
  assert (HB1 : ~ In B l1 /\ B <> A /\ ~ In B l2 /\ ~ In B l3).
  { apply NoDup_app_remove_l in Hsplit as Hs2.
    apply NoDup_cons_iff in Hs2 as [HnA Hs3].
    pose proof (NoDup_remove_2 _ _ _ Hs3) as HnB.
    repeat split.
    - intros Hin. change (l1 ++ A :: l2 ++ B :: l3)
        with (l1 ++ (A :: l2) ++ B :: l3) in Hsplit.
      rewrite app_assoc in Hsplit. apply NoDup_remove_2 in Hsplit. apply Hsplit.
      apply in_or_app. left. apply in_or_app. now left.
    - intros ->. apply HnA. apply in_or_app. right. now left.
    - intros Hin. apply HnB. apply in_or_app. now left.
    - intros Hin. apply HnB. apply in_or_app. now right. }
  destruct HB1 as (HB1 & HBA & HB2 & HB3).
  assert (Hpre : forall th1, demotion th th1 ->
            List.NoDup (objKeys th1) /\ length (objKeys th1) < fuel /\
            forall k, In k (objKeys th) -> objHas th1 k = true).
  { intros th1 D1. pose proof D1 as [K1 _]. rewrite K1. repeat split; try assumption.
    intros k Hk. rewrite (demotion_objHas th th1 k D1). auto. }
  unfold breakCycles. rewrite Hkeys, foldM_app.
  (* the nodes before A *)
  destruct (breakCycles_loop_total fuel l1 th Hnd Hlen) as (tha & -> & Da & Oa).
  { intros k Hk. apply Hmem. rewrite Hkeys. apply in_or_app. now left. }
  simpl.
  destruct (Hpre tha Da) as (NDa & LEa & _).
  assert (HAa : objGet tha A = Some dA) by (rewrite Oa; assumption).
  assert (HBa : objGet tha B = Some dB) by (rewrite Oa; assumption).
  (* A closes a cycle and is demoted *)
  destruct (breakCycleStep_total fuel tha A dA NDa LEa HAa) as (thb & Hb & Sb).
  rewrite Hb. simpl.
  destruct (breakCycleStep_spec _ _ _ _ Hb) as (Db & _ & Ob).
  assert (HAb : isStruct thb A = false).
  { apply (Sb EA RA). eapply tc_l; [|apply tc_once].
    - eapply (structEdge_intro tha A B); eassumption.
    - eapply (structEdge_intro tha B A); eassumption. }
  assert (HBb : objGet thb B = Some dB) by (rewrite Ob; assumption).
  pose proof (demotion_trans _ _ _ Da Db) as Dab.
  destruct (Hpre thb Dab) as (NDb & LEb & Mb).
  (* the nodes between A and B *)
  rewrite foldM_app.
  destruct (breakCycles_loop_total fuel l2 thb NDb LEb) as (thc & -> & Dc & Oc).
  { intros k Hk. apply Mb. rewrite Hkeys. apply in_or_app. right. right.
    apply in_or_app. now left. }
  simpl.
  assert (HBc : objGet thc B = Some dB) by (rewrite Oc; assumption).
  pose proof (demotion_trans _ _ _ Dab Dc) as Dac.
  destruct (Hpre thc Dac) as (NDc & LEc & Mc).
  assert (HAc : isStruct thc A = false)
    by exact (demotion_isStruct_false thb thc A Dc HAb).
  (* B *)
  destruct (breakCycleStep_total fuel thc B dB NDc LEc HBc) as (thd & Hd & Sd).
  rewrite Hd. simpl.
  destruct (breakCycleStep_spec _ _ _ _ Hd) as (Dd & _ & _).
  pose proof (demotion_trans _ _ _ Dac Dd) as Dad.
  destruct (Hpre thd Dad) as (NDd & LEd & Md).
  (* the nodes after B *)
  destruct (breakCycles_loop_total fuel l3 thd NDd LEd) as (th' & -> & D' & O').
  { intros k Hk. apply Md. rewrite Hkeys. apply in_or_app. right. right.
    apply in_or_app. right. now right. }
  exists th'. split; [reflexivity|]. split.
  - eapply demotion_isStruct_false; [exact D'|].
    eapply demotion_isStruct_false; [exact Dd | exact HAc].
  - intros Hno. destruct (Sd EB RB) as [_ Hkeep].
    rewrite Hkeep in O'.
    + unfold isStruct. rewrite O', HBc; assumption.
    + intros Hc. apply Hno. exact (cycle_avoiding th thc A B B Dac HAc Hc).
Qed.

Lemma struct_types_acyclic_witness : ~ tc (structEdge pairClassified) "B" "B".
Proof.
  eapply (struct_types_acyclic 5 pairRaw [] pairClassified);
    [vm_compute; reflexivity | vm_compute; reflexivity | reflexivity | reflexivity].
Defined.

(** An enumeration in a structured lineage stays a struct and keeps its
    edge to itself, the loop skipping enumerations. *)
Lemma enum_struct_on_cycle :
  classify 5 enumCycleRaw [] = Ok enumCycleClassified /\
  isStruct enumCycleClassified "E" = true /\
  tc (structEdge enumCycleClassified) "E" "E".
Proof.
  split; [vm_compute; reflexivity|]. split; [reflexivity|].
  apply tc_once. eexists _, ("p", mkProperty ["E"] "").
  split; [reflexivity|]. split; [now left|]. split; [now left|]. split; reflexivity.
Qed.

Lemma nonstruct_ancestors_nonstruct_witness :
  exists dy, objGet pairClassified "StructuredValue" = Some dy /\
             representAsStruct dy = false.
Proof.
  eapply (nonstruct_ancestors_nonstruct 5 pairRaw [] pairClassified);
    [vm_compute; reflexivity | | |].
  - instantiate (2 := "A"). vm_compute. reflexivity.
  - reflexivity.
  - apply rtc_once. eexists. split; [reflexivity|]. split; [now left | reflexivity].
Defined.

Lemma mutual_pair_demotes_earlier_witness :
  exists th', breakCycles 5 pairFlagged = Ok th' /\
    isStruct th' "A" = false /\
    (~ tc (fun u v => structEdge pairFlagged u v /\ v <> "A") "B" "B" ->
     isStruct th' "B" = true).
Proof.
  eapply (mutual_pair_demotes_earlier 5 pairFlagged ["Thing"; "StructuredValue"] [] []
            "A" "B").
  - apply NoDup_ListNoDup. vm_compute. repeat constructor; set_solver.
  - reflexivity.
  - simpl. lia.
  - reflexivity.
  - reflexivity.
  - reflexivity.
  - reflexivity.
  - reflexivity.
  - reflexivity.
  - exists ("b", mkProperty ["B"] ""). split; now left.
  - exists ("a", mkProperty ["A"] ""). split; now left.
  - reflexivity.
  - reflexivity.
Defined.

(** C2, as stated, fails: of the pair it is the type visited first that is
    demoted, and the one visited later that stays a struct. *)
Lemma earlier_visited_is_demoted :
  objKeys pairFlagged = ["Thing"; "StructuredValue"; "A"; "B"] /\
  isStruct pairFlagged "A" = true /\ isStruct pairFlagged "B" = true /\
  structEdge pairFlagged "A" "B" /\ structEdge pairFlagged "B" "A" /\
  exists th', breakCycles 5 pairFlagged = Ok th' /\
              isStruct th' "A" = false /\ isStruct th' "B" = true.
Proof.
  split; [reflexivity|]. split; [reflexivity|]. split; [reflexivity|]. split; [|split].
  - eexists _, ("b", mkProperty ["B"] "").
    split; [reflexivity|]. split; [now left|]. split; [now left|]. split; reflexivity.
  - eexists _, ("a", mkProperty ["A"] "").
    split; [reflexivity|]. split; [now left|]. split; [now left|]. split; reflexivity.
  - eexists. split; [vm_compute; reflexivity|]. split; reflexivity.
Qed.

(** ** Emission order *)

Lemma before_app l ext a b : before l a b -> before (l ++ ext) a b.
Proof.
  intros (l1 & l2 & l3 & ->). exists l1, l2, (l3 ++ ext).
  rewrite <- !app_assoc. simpl. rewrite <- !app_assoc. reflexivity.
Qed.

Lemma before_snoc l a b : In a l -> before (l ++ [b]) a b.
Proof.
  intros H. apply in_split in H as (l1 & l2 & ->). exists l1, l2, [].
  rewrite <- app_assoc. reflexivity.
Qed.

Lemma before_filter (f : string -> bool) l a b :
  before l a b -> f a = true -> f b = true -> before (List.filter f l) a b.
Proof.
  intros (l1 & l2 & l3 & ->) Ha Hb.
  exists (List.filter f l1), (List.filter f l2), (List.filter f l3).
  rewrite List.filter_app. simpl. rewrite Ha. rewrite List.filter_app. simpl. now rewrite Hb.
Qed.

Lemma parentsFirst_nil th : parentsFirst th [].
Proof. split; intros t; [intros [] | intros d p dp []]. Qed.

Lemma toposort_loop th (call : string -> list string -> result (list string)) es :
  (forall e o o', objHas th e = true -> call e o = Ok o' -> parentsFirst th o ->
     parentsFirst th o' /\ (exists ext, o' = o ++ ext) /\
     (forall d, objGet th e = Some d -> emittable d = true -> In e o')) ->
  forall o o',
    foldM (fun o e => if negb (objHas th e) then Ok o else call e o) es o = Ok o' ->
    parentsFirst th o ->
    parentsFirst th o' /\ (exists ext, o' = o ++ ext) /\
    (forall e d, In e es -> objGet th e = Some d -> emittable d = true -> In e o').
Proof.
  intros Hcall. induction es as [|e es IH]; intros o o'; simpl.
  - intros [= <-] HI. split; [assumption|]. split; [exists []; now rewrite app_nil_r|].
    intros e d [].
  - intros H HI. apply bind_Ok in H as (o1 & H1 & H).
    assert (Hstep : parentsFirst th o1 /\ (exists ext, o1 = o ++ ext) /\
              (forall d, objGet th e = Some d -> emittable d = true -> In e o1)).
    { destruct (objHas th e) eqn:He; simpl in H1.
      - now apply Hcall.
      - injection H1 as <-. split; [assumption|].
        split; [exists []; now rewrite app_nil_r|]. intros d Hd.
        unfold objHas in He. now rewrite Hd in He. }
    destruct Hstep as (I1 & (ext1 & ->) & M1).
    destruct (IH _ _ H I1) as (I' & (ext' & ->) & M').
    split; [assumption|]. split; [exists (ext1 ++ ext'); now rewrite app_assoc|].
    intros e0 d [<-|Hin] Hd Hem; [|eauto].
    apply in_or_app. left. eauto.
Qed.

Lemma setAdd_parentsFirst th o t d :
  parentsFirst th o -> objGet th t = Some d -> emittable d = true ->
  (forall p dp, In p (extends d) -> objGet th p = Some dp -> emittable dp = true ->
                In p o) ->
  parentsFirst th (setAdd o t) /\ (exists ext, setAdd o t = o ++ ext) /\
  In t (setAdd o t).
Proof.
  intros [I1 I2] Hd Hem Hpar. unfold setAdd. destruct (includes o t) eqn:Hin.
  - apply includes_true in Hin. split; [split; assumption|].
    split; [exists []; now rewrite app_nil_r | assumption].
  - assert (Hnot : ~ In t o).
    { intros H. apply includes_true in H. congruence. }
    split; [|split; [eauto | apply in_or_app; right; now left]]. split.
    + intros t' H. apply in_app_or in H as [H|[<-|[]]]; eauto.
    + intros t' d' p dp H Hd' Hp Hdp Hemp. apply in_app_or in H as [H|[<-|[]]].
      * apply before_app. eauto.
      * rewrite Hd in Hd'. injection Hd' as <-. apply before_snoc. eauto.
Qed.

Lemma toposort_spec fuel th :
  forall t o o', objHas th t = true -> toposort fuel th t o = Ok o' ->
    parentsFirst th o ->
    parentsFirst th o' /\ (exists ext, o' = o ++ ext) /\
    (forall d, objGet th t = Some d -> emittable d = true -> In t o').
Proof.
  induction fuel as [|fuel IH]; intros t o o' Ht; simpl; [discriminate|].
  destruct (objGet th t) as [d|] eqn:Hd; [|discriminate].
  destruct (isAction d || isEnum d || representAsStruct d) eqn:Hskip.
  - intros [= <-] HI. split; [assumption|]. split; [exists []; now rewrite app_nil_r|].
    intros d' [= <-]. unfold emittable. rewrite Hskip. discriminate.
  - intros H HI. apply bind_Ok in H as (o1 & H1 & H). injection H as <-.
    destruct (toposort_loop th (toposort fuel th) (extends d) IH _ _ H1 HI)
      as (I1 & (ext1 & ->) & M1).
    destruct (setAdd_parentsFirst th (o ++ ext1) t d I1 Hd) as (I' & (ext' & E') & M').
    + unfold emittable. now rewrite Hskip.
    + intros p dp Hp Hdp Hemp. eauto.
    + split; [assumption|]. split; [exists (ext1 ++ ext'); now rewrite app_assoc|].
      intros _ _ _. assumption.
Qed.

Lemma toposortAll_loop fuel th ks :
  forall o o',
    foldM (fun order type => if includes order type then Ok order
                             else toposort fuel th type order) ks o = Ok o' ->
    (forall k, In k ks -> objHas th k = true) ->
    parentsFirst th o ->
    parentsFirst th o' /\ (exists ext, o' = o ++ ext) /\
    (forall k d, In k ks -> objGet th k = Some d -> emittable d = true -> In k o').
Proof.
  induction ks as [|k ks IH]; intros o o'; simpl.
  - intros [= <-] _ HI. split; [assumption|]. split; [exists []; now rewrite app_nil_r|].
    intros k d [].
  - intros H Hks HI. apply bind_Ok in H as (o1 & H1 & H).
    assert (Hstep : parentsFirst th o1 /\ (exists ext, o1 = o ++ ext) /\
              (forall d, objGet th k = Some d -> emittable d = true -> In k o1)).
    { destruct (includes o k) eqn:Hin.
      - injection H1 as <-. split; [assumption|].
        split; [exists []; now rewrite app_nil_r|]. intros _ _ _. now apply includes_true.
      - apply (toposort_spec fuel th k o o1); auto. }
    destruct Hstep as (I1 & (ext1 & ->) & M1).
    destruct (IH _ _ H (fun k' Hin => Hks k' (or_intror Hin)) I1) as (I' & (ext' & ->) & M').
    split; [assumption|]. split; [exists (ext1 ++ ext'); now rewrite app_assoc|].
    intros k0 d [<-|Hin] Hd Hem; [|eauto]. apply in_or_app. left. eauto.
Qed.

(** The sequence [order] holds exactly the nodes that are not actions,
    enumerations or structs, each after its parents there; so does what is
    left of it without the list wrappers. *)
Lemma emitted_parents_first fuel th order :
  toposortAll fuel th = Ok order ->
  (forall t, In t order <-> exists d, objGet th t = Some d /\ emittable d = true) /\
  (forall t d p, In t order -> objGet th t = Some d -> In p (extends d) ->
                 In p order -> before order p t) /\
  (forall t d p, In t (emittedTypes th order) -> objGet th t = Some d ->
                 In p (extends d) -> In p (emittedTypes th order) ->
                 before (emittedTypes th order) p t).
Proof.
  intros H. unfold toposortAll in H.
  apply toposortAll_loop in H as ([I1 I2] & _ & M);
    [| intros k Hk; apply objHas_true; now apply objGet_keys | apply parentsFirst_nil].
  assert (Hord : forall t d p, In t order -> objGet th t = Some d -> In p (extends d) ->
                               In p order -> before order p t).
  { intros t d p Ht Hd Hp Hpo. destruct (I1 p Hpo) as (dp & Hdp & Hemp). eauto. }
  split; [|split; [exact Hord|]].
  - intros t. split; [apply I1|]. intros (d & Hd & Hem). apply (M t d); try assumption.
    apply objGet_keys. eauto.
  - unfold emittedTypes. intros t d p Ht Hd Hp Hpo.
    apply filter_In in Ht as [Ht Ft]. apply filter_In in Hpo as [Hpo Fp].
    apply before_filter; eauto.
Qed.

(** ** Collected properties *)

Lemma objGet_objSet {V : Type} (o : JsObj V) k v x :
  objGet (objSet o k v) x = if String.eqb k x then Some v else objGet o x.
Proof.
  induction o as [|[k' v'] o IH]; simpl.
  - reflexivity.
  - destruct (String.eqb k' k) eqn:E; simpl.
    + apply String.eqb_eq in E. subst. now destruct (String.eqb k x).
    + rewrite IH. destruct (String.eqb k' x) eqn:E'; [|reflexivity].
      apply String.eqb_eq in E'. subst. now rewrite String.eqb_sym, E.
Qed.

Lemma objGet_collectOwn own : forall all p,
  objGet (collectOwn all own) p =
  match objGet all p with Some pd => Some pd | None => objGet own p end.
Proof.
  unfold collectOwn. induction own as [|[k pd] own IH]; intros all p; simpl.
  - now destruct (objGet all p).
  - rewrite IH. unfold objHas. destruct (objGet all k) eqn:Hk.
    + destruct (objGet all p) eqn:Hp; [reflexivity|].
      destruct (String.eqb k p) eqn:E; [|reflexivity].
      apply String.eqb_eq in E. subst. congruence.
    + rewrite objGet_objSet. destruct (String.eqb k p) eqn:E.
      * apply String.eqb_eq in E. subst. now rewrite Hk.
      * reflexivity.
Qed.

Lemma firstSeen_app l1 l2 p :
  firstSeen (l1 ++ l2) p =
  match firstSeen l1 p with Some pd => Some pd | None => firstSeen l2 p end.
Proof.
  induction l1 as [|o l1 IH]; simpl; [reflexivity|].
  destruct (objGet o p); [reflexivity | exact IH].
Qed.

Lemma recursiveCollect_loop th
  (collect : string -> JsObj PropertyDef -> result (JsObj PropertyDef))
  (visit : string -> result (list string)) es :
  (forall e all all', collect e all = Ok all' ->
     exists vs, visit e = Ok vs /\
       forall p, objGet all' p = firstSeen (all :: map (ownProperties th) vs) p) ->
  forall all all' seen,
    foldM (fun a e => collect e a) es all = Ok all' ->
    exists vs, foldM (fun s e => do more <- visit e; Ok (s ++ more)) es seen
               = Ok (seen ++ vs) /\
      forall p, objGet all' p = firstSeen (all :: map (ownProperties th) vs) p.
Proof.
  intros Hcall. induction es as [|e es IH]; intros all all' seen; simpl.
  - intros [= <-]. exists []. rewrite app_nil_r. split; [reflexivity|].
    intros p. simpl. now destruct (objGet all p).
  - intros H. apply bind_Ok in H as (all1 & H1 & H).
    destruct (Hcall _ _ _ H1) as (vs1 & -> & G1). simpl.
    destruct (IH _ _ (seen ++ vs1) H) as (vs & -> & G).
    exists (vs1 ++ vs). rewrite app_assoc. split; [reflexivity|].
    intros p. rewrite G. simpl. rewrite G1. simpl. rewrite map_app, firstSeen_app.
    destruct (objGet all p); [reflexivity|].
    now destruct (firstSeen (map (ownProperties th) vs1) p).
Qed.

Lemma recursiveCollect_spec th start fuel :
  forall t all all',
    recursiveCollectProperties fuel th start t all = Ok all' ->
    exists vs, visitedNodes fuel th start t = Ok vs /\
      forall p, objGet all' p = firstSeen (all :: map (ownProperties th) vs) p.
Proof.
  induction fuel as [|fuel IH]; intros t all all';
    cbn [recursiveCollectProperties visitedNodes]; [discriminate|].
  destruct (objGet th t) as [d|] eqn:Hd.
  2:{ intros [= <-]. exists []. split; [reflexivity|]. intros p. simpl.
      now destruct (objGet all p). }
  destruct (negb (includes STRUCT_INCLUDE_THING_PROPERTIES start)
            && negb (isStructSubType d)).
  { intros [= <-]. exists []. split; [reflexivity|]. intros p. simpl.
    now destruct (objGet all p). }
  assert (Hown : forall p, objGet (collectOwn all (properties d)) p =
                           firstSeen [all; ownProperties th t] p).
  { intros p. rewrite objGet_collectOwn. unfold ownProperties. rewrite Hd. simpl.
    destruct (objGet all p); [reflexivity|]. now destruct (objGet (properties d) p). }
  destruct (negb (includes STRUCT_INCLUDE_THING_PROPERTIES start)
            && includes STRUCTURED_HIERARCHIES t).
  { intros [= <-]. exists [t]. split; [reflexivity | exact Hown]. }
  intros H.
  destruct (recursiveCollect_loop th
              (recursiveCollectProperties fuel th start) (visitedNodes fuel th start)
              (extends d) (IH) _ _ [] H) as (vs & -> & G).
  simpl. exists (t :: vs). split; [reflexivity|]. intros p. rewrite G. simpl.
  rewrite Hown. simpl. destruct (objGet all p); [reflexivity|].
  now destruct (objGet (ownProperties th t) p).
Qed.

(** C8. The collection walks the parents in visitation order, and for every
    property name the first definition seen is the one kept: what has been
    collected is never overwritten by a node visited later. *)
Theorem first_seen_property_wins fuel th start typename all all' :
  recursiveCollectProperties fuel th start typename all = Ok all' ->
  (forall p pd, objGet all p = Some pd -> objGet all' p = Some pd) /\
  exists visited, visitedNodes fuel th start typename = Ok visited /\
    forall p, objGet all' p = firstSeen (all :: map (ownProperties th) visited) p.
Proof.
  intros H. apply recursiveCollect_spec in H as (vs & Hv & G). split; [|eauto].
  intros p pd Hp. rewrite G. simpl. now rewrite Hp.
Qed.

(** ** Compound types *)

Section CompoundFields.

Variable posTag : list string -> list string.
Variable clean : string -> string.
Variable pluralize : string -> string.

Lemma objSet_fresh {V : Type} (o : JsObj V) k v :
  objGet o k = None -> objSet o k v = o ++ [(k, v)].
Proof.
  induction o as [|[k' v'] o IH]; simpl; [reflexivity|].
  destruct (String.eqb k' k); [discriminate|]. intros H. now rewrite IH.
Qed.

Lemma objGet_snoc_other {V : Type} (o : JsObj V) k v x :
  k <> x -> objGet (o ++ [(k, v)]) x = objGet o x.
Proof.
  intros Hne. induction o as [|[k' v'] o IH]; simpl.
  - apply String.eqb_neq in Hne. now rewrite Hne.
  - destruct (String.eqb k' x); [reflexivity | exact IH].
Qed.

Lemma objKeys_objSet {V : Type} (o : JsObj V) k v :
  objKeys (objSet o k v) = if objHas o k then objKeys o else objKeys o ++ [k].
Proof.
  unfold objHas. induction o as [|[k' v'] o IH]; simpl; [reflexivity|].
  destruct (String.eqb k' k) eqn:E; simpl; [reflexivity|].
  rewrite IH. now destruct (objGet o k).
Qed.

Lemma collectOwn_NoDup own : forall all,
  List.NoDup (objKeys all) -> List.NoDup (objKeys (collectOwn all own)).
Proof.
  unfold collectOwn. induction own as [|[k pd] own IH]; intros all Hnd; simpl;
    [assumption|].
  apply IH. destruct (objHas all k) eqn:Hk; [assumption|].
  rewrite objKeys_objSet, Hk. apply NoDup_ListNoDup, NoDup_app.
  split; [now apply NoDup_ListNoDup|]. split; [|apply NoDup_singleton].
  intros x Hx Hx'. apply list_elem_of_In in Hx. apply list_elem_of_singleton in Hx'.
  subst. apply objGet_keys in Hx as [v Hv]. unfold objHas in Hk. now rewrite Hv in Hk.
Qed.

Lemma recursiveCollect_NoDup th start fuel :
  forall t all all',
    recursiveCollectProperties fuel th start t all = Ok all' ->
    List.NoDup (objKeys all) -> List.NoDup (objKeys all').
Proof.
  induction fuel as [|fuel IH]; intros t all all';
    cbn [recursiveCollectProperties]; [discriminate|].
  destruct (objGet th t) as [d|]; [|now intros [= <-]].
  destruct (negb _ && negb _); [now intros [= <-]|].
  destruct (negb _ && includes _ _).
  { intros [= <-] Hnd. now apply collectOwn_NoDup. }
  intros H Hnd. apply collectOwn_NoDup with (own := properties d) in Hnd.
  revert H Hnd. generalize (collectOwn all (properties d)). generalize (extends d).
  intros es. induction es as [|e es IHes]; intros a; simpl.
  - now intros [= <-].
  - intros H Hnd. apply bind_Ok in H as (a1 & H1 & H). eauto.
Qed.

Lemma addField_loop (typeToThingTalk : string -> result TType) self th all resolved :
  Forall2 (fun p r => getBestPropertyTypeWith typeToThingTalk th (fst p) (snd p) = Ok r)
          all resolved ->
  List.NoDup (objKeys all) ->
  forall fields anyfield,
    (forall k, In k (objKeys all) -> objGet fields k = None) ->
    foldM (addField posTag clean pluralize typeToThingTalk self th) all (fields, anyfield)
    = Ok (fields ++ survivingFields posTag clean pluralize self all resolved,
          anyfield || negb (forallb resolvesToNone resolved)).
Proof.
  intros HF. induction HF as [|[k pd] r all resolved Hr HF IH]; intros Hnd fields anyfield Hfresh.
  - simpl. now rewrite app_nil_r, orb_false_r.
  - simpl in Hnd. apply NoDup_cons_iff in Hnd as [Hk Hnd].
    cbn [foldM]. unfold addField at 1. cbn [fst snd] in *. rewrite Hr. cbn [bind].
    destruct r as [[schemaOrgType ttType]|]; cbn [bind].
    + rewrite objSet_fresh by (apply Hfresh; now left).
      rewrite IH; [| assumption |].
      * rewrite <- app_assoc. simpl. now rewrite orb_true_r.
      * intros k' Hk'. rewrite objGet_snoc_other; [apply Hfresh; now right|].
        intros ->. contradiction.
    + rewrite IH; [reflexivity | assumption |]. intros k' Hk'. apply Hfresh. now right.
Qed.

(** When every collected property has been resolved: if none of them has a
    type, [makeCompoundType] throws the error that names the starting type;
    otherwise it returns the compound type whose fields are those of the
    properties that have a type, in collection order. *)
Lemma makeCompoundType_fields fuel self th start all resolved :
  recursiveCollectProperties fuel th start start [] = Ok all ->
  Forall2 (fun p r => getBestPropertyType posTag clean pluralize fuel self th
                                          (fst p) (snd p) = Ok r)
          all resolved ->
  makeCompoundType posTag clean pluralize fuel self th start =
  if forallb resolvesToNone resolved then Err (StructNoFields start)
  else Ok (TCompound start (survivingFields posTag clean pluralize self all resolved)).
Proof.
  intros Hall Hres. unfold makeCompoundType, makeCompoundTypeWith. rewrite Hall. cbn [bind].
  rewrite (addField_loop _ self th all resolved Hres).
  - cbn [bind fst snd orb app]. now destruct (forallb resolvesToNone resolved).
  - apply (recursiveCollect_NoDup _ _ _ _ _ _ Hall). constructor.
  - reflexivity.
Qed.

Lemma resolveAll_Forall2 resolve all : forall resolved,
  resolveAll resolve all = Ok resolved ->
  Forall2 (fun p r => resolve (fst p) (snd p) = Ok r) all resolved.
Proof.
  induction all as [|p all IH]; intros resolved; cbn [resolveAll].
  - intros [= <-]. constructor.
  - intros H. apply bind_Ok in H as (r & Hr & H).
    apply bind_Ok in H as (rs & Hrs & H). injection H as <-.
    constructor; [assumption | now apply IH].
Qed.

(** A resolution that throws ends the loop over [allproperties], whatever
    fields the loop holds by then. *)
Lemma addField_fails (typeToThingTalk : string -> result TType) self th all e :
  resolveAll (getBestPropertyTypeWith typeToThingTalk th) all = Err e ->
  forall state,
    foldM (addField posTag clean pluralize typeToThingTalk self th) all state = Err e.
Proof.
  induction all as [|p all IH]; cbn [resolveAll foldM]; [discriminate|].
  intros H state. unfold addField at 1.
  destruct (getBestPropertyTypeWith typeToThingTalk th (fst p) (snd p)) as [r|e'];
    cbn [bind] in *.
  - destruct (resolveAll (getBestPropertyTypeWith typeToThingTalk th) all) as [rs|e'];
      cbn [bind] in H; [discriminate|].
    injection H as ->. destruct r as [[schemaOrgType ttType]|]; cbn [bind];
      now apply IH.
  - congruence.
Qed.

Lemma survivingFields_keys self all resolved :
  objKeys (survivingFields posTag clean pluralize self all resolved)
  = survivingNames all resolved.
Proof.
  revert resolved. induction all as [|p all IH]; intros [|r resolved]; try reflexivity.
  cbn [survivingFields survivingNames].
  destruct r as [[schemaOrgType ttType]|]; cbn [fieldOf resolvesToNone]; [|apply IH].
  unfold objKeys in *. cbn [map fst]. now rewrite IH.
Qed.

Lemma survivingFields_names self all resolved k a :
  In (k, a) (survivingFields posTag clean pluralize self all resolved) -> argName a = k.
Proof.
  revert resolved. induction all as [|p all IH]; intros [|r resolved]; try (intros []).
  cbn [survivingFields].
  destruct r as [[schemaOrgType ttType]|]; cbn [fieldOf]; [|apply IH].
  intros [H|H]; [|now apply IH with resolved]. now injection H as <- <-.
Qed.

(** C7, as the code has it.  [makeCompoundType] asks for the resolution of
    every collected property, in collection order.  When a resolution
    throws, [makeCompoundType] throws the same error, whatever properties
    have a type: the error of a candidate struct without fields names that
    struct, not the starting type.  When all of them return: if none has a
    type, [makeCompoundType] throws the error that names the starting type;
    otherwise it returns the compound type of that name whose fields are
    the properties that have a type, in collection order, each under the
    name of its property. *)
Theorem makeCompoundType_outcome fuel self th start :
  match recursiveCollectProperties fuel th start start [] with
  | Err e => makeCompoundType posTag clean pluralize fuel self th start = Err e
  | Ok all =>
      match resolveAll (getBestPropertyType posTag clean pluralize fuel self th) all with
      | Err e => makeCompoundType posTag clean pluralize fuel self th start = Err e
      | Ok resolved =>
          if forallb resolvesToNone resolved
          then makeCompoundType posTag clean pluralize fuel self th start
               = Err (StructNoFields start)
          else exists fields,
              makeCompoundType posTag clean pluralize fuel self th start
              = Ok (TCompound start fields) /\
              objKeys fields = survivingNames all resolved /\
              forall k a, In (k, a) fields -> argName a = k
      end
  end.
Proof.
  destruct (recursiveCollectProperties fuel th start start []) as [all|e] eqn:Hall.
  - destruct (resolveAll _ all) as [resolved|e] eqn:Hres.
    + apply resolveAll_Forall2 in Hres.
      rewrite (makeCompoundType_fields fuel self th start all resolved Hall Hres).
      destruct (forallb resolvesToNone resolved); [reflexivity|].
      eexists. split; [reflexivity|]. split.
      * apply survivingFields_keys.
      * intros k a. apply survivingFields_names.
    + unfold makeCompoundType, makeCompoundTypeWith. rewrite Hall. cbn [bind].
      unfold getBestPropertyType in Hres.
      now rewrite (addField_fails _ self th all e Hres).
  - unfold makeCompoundType, makeCompoundTypeWith. now rewrite Hall.
Qed.

End CompoundFields.

(** ** Property types *)

Lemma bestCandidate_max th candidates :
  option_map snd (bestCandidate th candidates) = maxScore (candidateScore th) candidates.
Proof.
  unfold bestCandidate, maxScore.
  assert (G : forall (best : option (string * Z)) m, option_map snd best = m ->
    option_map snd
      (fold_left (fun best type =>
                    let score := candidateScore th type in
                    match best with
                    | None => Some (type, score)
                    | Some (_, bestScore) =>
                        if (bestScore <? score)%Z then Some (type, score) else best
                    end) candidates best)
    = fold_left (fun m type => match m with
                               | None => Some (candidateScore th type)
                               | Some z => Some (Z.max z (candidateScore th type))
                               end) candidates m).
  { induction candidates as [|c cs IH]; intros best m E; simpl; [assumption|].
    apply IH. destruct best as [[b s]|]; simpl in *; subst; simpl; [|reflexivity].
    destruct (s <? candidateScore th c)%Z eqn:L; simpl; f_equal; lia. }
  now apply G.
Qed.

Lemma negativeMax_all score candidates :
  negativeMax (maxScore score candidates) <-> forall t, In t candidates -> (score t < 0)%Z.
Proof.
  unfold maxScore.
  assert (G : forall m, negativeMax
                (fold_left (fun m type => match m with
                                          | None => Some (score type)
                                          | Some z => Some (Z.max z (score type))
                                          end) candidates m)
              <-> negativeMax m /\ forall t, In t candidates -> (score t < 0)%Z).
  { induction candidates as [|c cs IH]; intros m; simpl.
    - split; [intros H; split; [assumption | intros t []] | tauto].
    - rewrite IH. destruct m as [z|]; simpl; split.
      + intros [H1 H2]. split; [lia|]. intros t [<-|Hin]; [lia | auto].
      + intros [H1 H2]. split; [|auto]. specialize (H2 c (or_introl eq_refl)). lia.
      + intros [H1 H2]. split; [exact I|]. intros t [<-|Hin]; auto.
      + intros [_ H2]. split; auto. }
  rewrite G. simpl. tauto.
Qed.

Lemma candidateScore_negative th type :
  (candidateScore th type < 0)%Z <-> (specScore th type < 0)%Z.
Proof.
  unfold candidateScore, specScore, isStruct, objHas.
  destruct (objGet th type) as [d|]; destruct (String.eqb type "Text");
    destruct (objGet BUILTIN_TYPEMAP type); destruct (objGet th "isItemList");
    try destruct (isEnum d); try destruct (representAsStruct d); cbn; lia.
Qed.

(** Where no node is called [isItemList], no builtin name is a node and
    the candidate is not both, the scores are those of the specification. *)
Lemma candidateScore_spec th type :
  objHas th "isItemList" = false ->
  (objHas BUILTIN_TYPEMAP type = true -> objHas th type = false) ->
  candidateScore th type = specScore th type.
Proof.
  unfold candidateScore, specScore, isStruct, objHas. intros H1 H2.
  destruct (objGet th "isItemList"); [discriminate|].
  destruct (String.eqb type "Text") eqn:ET.
  - apply String.eqb_eq in ET. subst. specialize (H2 eq_refl).
    destruct (objGet th "Text"); [discriminate | reflexivity].
  - destruct (objGet th type) as [d|]; destruct (objGet BUILTIN_TYPEMAP type);
      try (now specialize (H2 eq_refl)); try destruct (isEnum d);
      try destruct (representAsStruct d); reflexivity.
Qed.

Section PropertyTypes.

Variable posTag : list string -> list string.
Variable clean : string -> string.
Variable pluralize : string -> string.

Lemma getBestPropertyTypeWith_none typeToThingTalk th propname property :
  getBestPropertyTypeWith typeToThingTalk th propname property = Ok None <->
  includes BLACKLISTED_PROPERTIES propname = true \/
  negativeMax (maxScore (specScore th) (types property)).
Proof.
  assert (Hneg : negativeMax (maxScore (specScore th) (types property)) <->
                 negativeMax (maxScore (candidateScore th) (types property))).
  { rewrite !negativeMax_all. split; intros H t Ht; apply candidateScore_negative; auto. }
  rewrite Hneg, <- bestCandidate_max. unfold getBestPropertyTypeWith.
  destruct (includes BLACKLISTED_PROPERTIES propname); [tauto|].
  destruct (bestCandidate th (types property)) as [[best s]|];
    cbn [option_map snd negativeMax]; [|tauto].
  destruct (s <? 0)%Z eqn:L.
  - split; [intros _; right; lia | reflexivity].
  - split; [|intros [H|H]; [discriminate | lia]].
    destruct (objGet PROPERTY_TYPE_OVERRIDE propname); [discriminate|].
    destruct (String.eqb best "QuantitativeValue").
    + destruct (testIgnoreCase "number" propname || testIgnoreCase "level" propname
                 || testIgnoreCase "quantity" propname);
        [discriminate|]. destruct (testIgnoreCase _ _); discriminate.
    + destruct (typeToThingTalk best); simpl; discriminate.
Qed.

(** C6. [getBestPropertyType] returns the pair of [undefined] exactly when
    the property is black-listed or the maximum of the candidate scores is
    negative; the loops over properties then go on with the next property,
    their state unchanged. *)
Theorem getBestPropertyType_none fuel self th propname property :
  (getBestPropertyType posTag clean pluralize fuel self th propname property = Ok None <->
   includes BLACKLISTED_PROPERTIES propname = true \/
   negativeMax (maxScore (specScore th) (types property))) /\
  (getBestPropertyType posTag clean pluralize fuel self th propname property = Ok None ->
   (forall state,
      addField posTag clean pluralize
               (typeToThingTalk posTag clean pluralize fuel self th) self th
               state (propname, property) = Ok state) /\
   (forall args,
      addArgument posTag clean pluralize fuel self th args (propname, property)
      = Ok args)).
Proof.
  split; [apply getBestPropertyTypeWith_none|]. intros H. split.
  - intros state. unfold addField. cbn [fst snd].
    unfold getBestPropertyType in H. now rewrite H.
  - intros args. unfold addArgument. cbn [fst snd]. now rewrite H.
Qed.

Lemma BUILTIN_TYPEMAP_not_array x t :
  objGet BUILTIN_TYPEMAP x = Some t -> isArray t = false.
Proof.
  unfold BUILTIN_TYPEMAP. cbn [objGet].
  repeat (destruct (String.eqb _ x); [now intros [= <-]|]). discriminate.
Qed.

Lemma typeToThingTalk_array fuel self th x t :
  typeToThingTalk posTag clean pluralize fuel self th x = Ok t -> isArray t = true ->
  objHas BUILTIN_TYPEMAP x = false /\ isItemListType th x = true.
Proof.
  destruct fuel as [|fuel]; cbn [typeToThingTalk]; [discriminate|].
  unfold objHas, isItemListType.
  destruct (objGet BUILTIN_TYPEMAP x) as [t0|] eqn:Hb.
  { intros [= <-] Ha. apply BUILTIN_TYPEMAP_not_array in Hb. congruence. }
  destruct (objGet th x) as [d|]; [|discriminate].
  destruct (isItemList d); [auto|].
  destruct (isEnum d && _); [now intros [= <-]|].
  destruct (representAsStruct d); [|now intros [= <-]].
  unfold makeCompoundTypeWith. intros H.
  apply bind_Ok in H as (all & _ & H). apply bind_Ok in H as (state & _ & H).
  destruct (negb (snd state)); [discriminate|]. now injection H as <-.
Qed.

(** C5, as the code has it.  For a property of the forced-not-array set the
    resolved type is never wrapped in an array: it is an array only when the
    winning candidate is itself a list-wrapper class, whose own translation
    is the array of its element type. *)
Theorem forced_not_array fuel self th propname property best t :
  In propname PROPERTY_FORCE_NOT_ARRAY ->
  getBestPropertyType posTag clean pluralize fuel self th propname property
  = Ok (Some (best, t)) ->
  isArray t = true ->
  typeToThingTalk posTag clean pluralize fuel self th best = Ok t /\
  objHas BUILTIN_TYPEMAP best = false /\ isItemListType th best = true.
Proof.
  intros [<-|[]]. unfold getBestPropertyType, getBestPropertyTypeWith, arrayHeuristic.
  cbn [includes existsb String.eqb Ascii.eqb Bool.eqb orb PROPERTY_FORCE_NOT_ARRAY
       BLACKLISTED_PROPERTIES]. 
  destruct (bestCandidate th (types property)) as [[b s]|]; [|discriminate].
  destruct (s <? 0)%Z; [discriminate|].
  change (objGet PROPERTY_TYPE_OVERRIDE "offers") with (@None TType). cbv iota.
  destruct (String.eqb b "QuantitativeValue").
  { destruct (testIgnoreCase "number" "offers" || testIgnoreCase "level" "offers"
              || testIgnoreCase "quantity" "offers");
      [intros [= _ <-]; discriminate|].
    destruct (testIgnoreCase _ _); intros [= _ <-]; discriminate. }
  intros H Ha. apply bind_Ok in H as (tt & Htt & H).
  assert (E : t = tt /\ best = b).
  { destruct (isItemListType th b); destruct (isBoolean tt || isEnumType tt);
      injection H as <- <-; auto. }
  destruct E as [-> ->]. split; [assumption|].
  eapply typeToThingTalk_array; eassumption.
Qed.

End PropertyTypes.

(** ** Canonical phrases *)

Section Canonical.

Variable posTag : list string -> list string.
Variable clean : string -> string.
Variable pluralize : string -> string.

(** C4, as the code has it.  On a property without a manual override, when
    the candidates have not populated the role [base] and the flag is set,
    [makeArgCanonical] adds the raw identifier as the single [base]
    template and leaves the other roles as the candidates made them, so
    that a record no candidate has populated holds that template alone;
    when [base] is populated, or the flag is not set, nothing is added. *)
Theorem base_fallback self name ptype :
  objGet PROPERTY_CANONICAL_OVERRIDE name = None ->
  (if _manual self then objGet MANUAL_PROPERTY_CANONICAL_OVERRIDE name else None)
  = None ->
  let canonical := synthesized posTag clean pluralize self name ptype in
  let result := makeArgCanonical posTag clean pluralize self name ptype in
  (canonical = [] -> _always_base_canonical self = true ->
   result = [("base", [name])]) /\
  (objHas canonical "base" = false -> _always_base_canonical self = true ->
   objGet result "base" = Some [name] /\
   forall role, role <> "base" -> objGet result role = objGet canonical role) /\
  (objHas canonical "base" = true \/ _always_base_canonical self = false ->
   result = canonical).
Proof.
  intros H1 H2 canonical result. subst result. unfold makeArgCanonical.
  rewrite H1, H2. fold canonical. split; [|split].
  - intros E Hflag. rewrite E, Hflag. reflexivity.
  - intros Hb Hflag. rewrite Hb, Hflag. cbn [negb andb]. split.
    + rewrite objGet_objSet. now rewrite String.eqb_refl.
    + intros role Hne. rewrite objGet_objSet.
      destruct (String.eqb_spec "base" role) as [E|_]; [congruence | reflexivity].
  - intros [Hb|Hflag]; [rewrite Hb | rewrite Hflag; rewrite andb_false_r]; reflexivity.
Qed.

(** ** Emitted names *)

Lemma emittedName_keyword name : In name KEYWORDS -> emittedName name = "_" +:+ name.
Proof. intros H. unfold emittedName. apply includes_true in H. now rewrite H. Qed.

Lemma emittedName_other name : ~ In name KEYWORDS -> emittedName name = name.
Proof.
  intros H. unfold emittedName. destruct (includes KEYWORDS name) eqn:E; [|reflexivity].
  apply includes_true in E. contradiction.
Qed.

(** The arguments that [run] makes of the properties of an emitted type
    carry the name with the underscore where it is a keyword, and so does
    the query of the type. *)
Lemma addArgument_name fuel self th args p args' :
  addArgument posTag clean pluralize fuel self th args p = Ok args' ->
  args' = args \/
  exists a, args' = args ++ [a] /\ argName a = emittedName (fst p).
Proof.
  unfold addArgument. intros H. apply bind_Ok in H as (r & _ & H).
  destruct r as [[best ty]|]; injection H as <-; [right | now left].
  eexists. split; reflexivity.
Qed.

Lemma emitType_name fuel self th queries typename queries' :
  emitType posTag clean pluralize fuel self th queries typename = Ok queries' ->
  queries' = queries \/
  exists f, queries' = objSet queries (emittedName typename) f /\
            fname f = emittedName typename.
Proof.
  unfold emitType. destruct (objGet th typename) as [d|]; [|discriminate].
  destruct (String.eqb typename "ItemList" || isItemList d); [intros [= <-]; now left|].
  intros H. apply bind_Ok in H as (args & _ & H). injection H as <-. right.
  eexists. split; reflexivity.
Qed.

End Canonical.

(** ** The properties on the sample hierarchies *)

Lemma emitted_parents_first_witness :
  (forall t, In t ["Thing"; "Store"] <->
             exists d, objGet keywordClassified t = Some d /\ emittable d = true) /\
  (forall t d p, In t ["Thing"; "Store"] -> objGet keywordClassified t = Some d ->
                 In p (extends d) -> In p ["Thing"; "Store"] ->
                 before ["Thing"; "Store"] p t) /\
  (forall t d p, In t (emittedTypes keywordClassified ["Thing"; "Store"]) ->
                 objGet keywordClassified t = Some d -> In p (extends d) ->
                 In p (emittedTypes keywordClassified ["Thing"; "Store"]) ->
                 before (emittedTypes keywordClassified ["Thing"; "Store"]) p t).
Proof.
  apply (emitted_parents_first 5 keywordClassified ["Thing"; "Store"]).
  vm_compute. reflexivity.
Defined.

Lemma first_seen_property_wins_witness :
  (forall p pd, objGet [] p = Some pd ->
     objGet [("a", mkProperty ["A"] ""); ("q", mkProperty ["Text"] "")] p = Some pd) /\
  exists visited, visitedNodes 5 pairClassified "B" "B" = Ok visited /\
    forall p, objGet [("a", mkProperty ["A"] ""); ("q", mkProperty ["Text"] "")] p
              = firstSeen ([] :: map (ownProperties pairClassified) visited) p.
Proof.
  apply (first_seen_property_wins 5 pairClassified "B" "B" []). vm_compute. reflexivity.
Defined.

Lemma makeCompoundType_fields_witness :
  makeCompoundType nounTagger sameString sameString 5 sampleProcessor keywordClassified
                   "StructuredValue"
  = Ok (TCompound "StructuredValue"
          (survivingFields nounTagger sameString sameString sampleProcessor
             [("class", mkProperty ["Text"] "The class.")] [Some ("Text", TString)])).
Proof.
  apply (makeCompoundType_fields nounTagger sameString sameString 5 sampleProcessor
           keywordClassified "StructuredValue"
           [("class", mkProperty ["Text"] "The class.")] [Some ("Text", TString)]).
  - vm_compute. reflexivity.
  - repeat constructor.
Defined.

(** A structured value without properties: the named error. *)
Example makeCompoundType_no_fields :
  makeCompoundType nounTagger sameString sameString 5 sampleProcessor enumCycleClassified
                   "StructuredValue"
  = Err (StructNoFields "StructuredValue").
Proof. vm_compute. reflexivity. Qed.

(** C7, as stated, fails: of the two properties of the struct [S] the
    property [a] has a type, and [makeCompoundType] throws all the same;
    the error names [T], the struct without fields that is the type of [p],
    not the starting type.  More fuel does not change the outcome. *)
Lemma nested_struct_failure_propagates :
  classify 5 nestedRaw [] = Ok nestedClassified /\
  (exists d, objGet nestedClassified "S" = Some d /\
             representAsStruct d = true /\ isEnum d = false) /\
  recursiveCollectProperties 5 nestedClassified "S" "S" []
  = Ok [("a", mkProperty ["Text"] "The a."); ("p", mkProperty ["T"] "The p.")] /\
  getBestPropertyType nounTagger sameString sameString 5 sampleProcessor nestedClassified
                      "a" (mkProperty ["Text"] "The a.")
  = Ok (Some ("Text", TString)) /\
  makeCompoundType nounTagger sameString sameString 5 sampleProcessor nestedClassified "S"
  = Err (StructNoFields "T") /\
  forall fuel,
    3 <= fuel ->
    makeCompoundType nounTagger sameString sameString fuel sampleProcessor
                     nestedClassified "S"
    = Err (StructNoFields "T").
Proof.
  split; [vm_compute; reflexivity|].
  split; [eexists; split; [reflexivity|]; split; reflexivity|].
  split; [reflexivity|]. split; [vm_compute; reflexivity|].
  split; [vm_compute; reflexivity|].
  intros [|[|[|fuel]]] H; [lia | lia | lia |]. vm_compute. reflexivity.
Qed.

Lemma forced_not_array_witness :
  typeToThingTalk nounTagger sameString sameString 5 sampleProcessor catalogClassified
                  "OfferCatalog" = Ok (TArray (TEntity "org.schema:Thing")) /\
  objHas BUILTIN_TYPEMAP "OfferCatalog" = false /\
  isItemListType catalogClassified "OfferCatalog" = true.
Proof.
  apply (forced_not_array nounTagger sameString sameString 5 sampleProcessor
           catalogClassified "offers" offersProperty).
  - simpl. now left.
  - vm_compute. reflexivity.
  - reflexivity.
Defined.

(** C5, as stated, fails: [offers] is in the forced-not-array set, and
    with a list-wrapper class as its winning candidate its type is an
    array. *)
Lemma forced_not_array_property_is_array :
  In "offers" PROPERTY_FORCE_NOT_ARRAY /\
  isItemListType catalogClassified "OfferCatalog" = true /\
  getBestPropertyType nounTagger sameString sameString 5 sampleProcessor
                      catalogClassified "offers" offersProperty
  = Ok (Some ("OfferCatalog", TArray (TEntity "org.schema:Thing"))).
Proof.
  split; [now left|]. split; [reflexivity|]. vm_compute. reflexivity.
Qed.

Lemma base_fallback_witness :
  let canonical := synthesized nounTagger sameString sameString sampleProcessor
                               "isPartOf" TString in
  let result := makeArgCanonical nounTagger sameString sameString sampleProcessor
                                 "isPartOf" TString in
  (canonical = [] -> _always_base_canonical sampleProcessor = true ->
   result = [("base", ["isPartOf"])]) /\
  (objHas canonical "base" = false -> _always_base_canonical sampleProcessor = true ->
   objGet result "base" = Some ["isPartOf"] /\
   forall role, role <> "base" -> objGet result role = objGet canonical role) /\
  (objHas canonical "base" = true \/ _always_base_canonical sampleProcessor = false ->
   result = canonical).
Proof.
  apply (base_fallback nounTagger sameString sameString sampleProcessor "isPartOf" TString);
    reflexivity.
Defined.

(** C4, as stated, fails: the candidate [is part of] populates the role
    [reverse_property], and the fallback [base] entry is added all the
    same. *)
Lemma fallback_added_beside_populated_role :
  _always_base_canonical sampleProcessor = true /\
  synthesized nounTagger sameString sameString sampleProcessor "isPartOf" TString
  = [("reverse_property", ["part of"])] /\
  makeArgCanonical nounTagger sameString sameString sampleProcessor "isPartOf" TString
  = [("reverse_property", ["part of"]); ("base", ["isPartOf"])].
Proof. split; [reflexivity|]. split; vm_compute; reflexivity. Qed.

(** C10 on the sample: the property [class] of the emitted type [Store] is
    written [_class], the property [class] of the structured value inside
    the argument [spec] keeps its name. *)
Lemma compound_field_keeps_keyword_name :
  In "class" KEYWORDS /\
  exists queries store,
    emitQueries nounTagger sameString sameString 6 sampleProcessor keywordClassified
    = Ok queries /\
    objGet queries "Store" = Some store /\
    map argName (fargs store) = ["id"; "name"; "spec"; "_class"] /\
    exists spec fields,
      nth_error (fargs store) 2 = Some spec /\
      argType spec = TCompound "StructuredValue" fields /\
      map (fun f => argName (snd f)) fields = ["class"] /\
      objKeys fields = ["class"].
Proof.
  split; [vm_compute; tauto|].
  eexists _, _. split; [vm_compute; reflexivity|]. split; [reflexivity|].
  split; [reflexivity|]. eexists _, _. split; [reflexivity|].
  split; [reflexivity|]. split; reflexivity.
Qed.

(** ** The sequence of emitted queries *)

Section EmittedQueries.

Variable posTag : list string -> list string.
Variable clean : string -> string.
Variable pluralize : string -> string.

Lemma objHas_includes {V : Type} (o : JsObj V) k : objHas o k = includes (objKeys o) k.
Proof.
  destruct (objHas o k) eqn:H; symmetry.
  - apply includes_true. apply objGet_keys. now apply objHas_true.
  - destruct (includes (objKeys o) k) eqn:E; [|reflexivity].
    apply includes_true, objGet_keys, objHas_true in E. congruence.
Qed.

Lemma emitType_keys fuel self th queries typename queries' :
  emitType posTag clean pluralize fuel self th queries typename = Ok queries' ->
  objKeys queries' =
  fold_left setAdd (map emittedName (emittedTypes th [typename])) (objKeys queries).
Proof.
  unfold emitType, emittedTypes. cbn [List.filter].
  destruct (objGet th typename) as [d|]; [|discriminate].
  rewrite <- negb_orb.
  destruct (String.eqb typename "ItemList" || isItemList d); cbn [negb map fold_left].
  - now intros [= <-].
  - intros H. apply bind_Ok in H as (args & _ & H). injection H as <-.
    rewrite objKeys_objSet, objHas_includes. reflexivity.
Qed.

Lemma emitType_loop fuel self th order :
  forall queries queries',
    foldM (emitType posTag clean pluralize fuel self th) order queries = Ok queries' ->
    objKeys queries' =
    fold_left setAdd (map emittedName (emittedTypes th order)) (objKeys queries).
Proof.
  induction order as [|t order IH]; intros queries queries'; cbn [foldM].
  - now intros [= <-].
  - intros H. apply bind_Ok in H as (q1 & H1 & H).
    rewrite (IH _ _ H), (emitType_keys _ _ _ _ _ _ H1).
    change (t :: order) with ([t] ++ order). unfold emittedTypes.
    now rewrite List.filter_app, map_app, fold_left_app.
Qed.

(** The queries of the class are written in the order of [emittedTypes],
    each under its emitted name; a name that comes a second time takes the
    place of the first. *)
Lemma emitQueries_keys fuel self th queries :
  emitQueries posTag clean pluralize fuel self th = Ok queries ->
  exists order, toposortAll fuel th = Ok order /\
    objKeys queries = fold_left setAdd (map emittedName (emittedTypes th order)) [].
Proof.
  unfold emitQueries. intros H. apply bind_Ok in H as (order & Ho & H).
  exists order. split; [assumption|]. now apply emitType_loop in H.
Qed.

End EmittedQueries.

(** ** What the cycles that are left do to the translation *)

Lemma collect_enumCycle fuel :
  recursiveCollectProperties fuel enumCycleClassified "E" "E" [] = Err OutOfFuel \/
  recursiveCollectProperties fuel enumCycleClassified "E" "E" []
  = Ok [("p", mkProperty ["E"] "")].
Proof.
  destruct fuel as [|[|fuel]]; [left; reflexivity | left; reflexivity | right; reflexivity].
Qed.

Lemma enum_struct_compound_loops (translate : string -> result TType) fuel :
  translate "E" = Err OutOfFuel ->
  makeCompoundTypeWith nounTagger sameString sameString translate fuel sampleProcessor
                       enumCycleClassified "E" = Err OutOfFuel.
Proof.
  intros H. unfold makeCompoundTypeWith.
  destruct (collect_enumCycle fuel) as [-> | ->]; [reflexivity|].
  vm_compute. rewrite H. reflexivity.
Qed.

(** The enumeration of [enumCycleRaw] has no values, so it is translated as
    a struct, and the translation of its field [p] asks for the translation
    of the type itself: no amount of fuel is enough. *)
Lemma enum_struct_never_translates fuel :
  typeToThingTalk nounTagger sameString sameString fuel sampleProcessor
                  enumCycleClassified "E" = Err OutOfFuel.
Proof.
  induction fuel as [|fuel IH]; [reflexivity|].
  cbn [typeToThingTalk].
  change (objGet BUILTIN_TYPEMAP "E") with (@None TType). cbv iota.
  change (objGet enumCycleClassified "E")
    with (Some (mkType ["Enumeration"; "StructuredValue"] [("p", mkProperty ["E"] "")]
                       "" false true [] false None true true)).
  cbv iota. cbn [isItemList isEnum enum representAsStruct length Nat.ltb Nat.leb andb].
  now apply enum_struct_compound_loops.
Qed.

Lemma collect_inherited fuel :
  recursiveCollectProperties fuel inheritedClassified "A" "A" [] = Err OutOfFuel \/
  recursiveCollectProperties fuel inheritedClassified "A" "A" []
  = Ok [("p", mkProperty ["A"] "")].
Proof.
  destruct fuel as [|[|[|fuel]]];
    [left; reflexivity | left; reflexivity | left; reflexivity | right; reflexivity].
Qed.

Lemma inherited_compound_loops (translate : string -> result TType) fuel :
  translate "A" = Err OutOfFuel ->
  makeCompoundTypeWith nounTagger sameString sameString translate fuel sampleProcessor
                       inheritedClassified "A" = Err OutOfFuel.
Proof.
  intros H. unfold makeCompoundTypeWith.
  destruct (collect_inherited fuel) as [-> | ->]; [reflexivity|].
  vm_compute. rewrite H. reflexivity.
Qed.

(** [findCycle] follows the properties a type declares, [makeCompoundType]
    also those it inherits.  In [inheritedRaw] the type [A] inherits from
    [B] a property of type [A]: no struct-typed edge leaves [A], both stay
    structs, and the translation of [A] asks for itself. *)
Lemma inherited_field_cycle_is_left fuel :
  classify 5 inheritedRaw [] = Ok inheritedClassified /\
  isStruct inheritedClassified "A" = true /\
  (forall t, ~ structEdge inheritedClassified "A" t) /\
  typeToThingTalk nounTagger sameString sameString fuel sampleProcessor
                  inheritedClassified "A" = Err OutOfFuel.
Proof.
  split; [vm_compute; reflexivity|]. split; [reflexivity|]. split.
  - intros t (d & p & Hd & Hp & _). injection Hd as <-. destruct Hp.
  - induction fuel as [|fuel IH]; [reflexivity|].
    cbn [typeToThingTalk].
    change (objGet BUILTIN_TYPEMAP "A") with (@None TType). cbv iota.
    change (objGet inheritedClassified "A")
      with (Some (mkType ["B"] [] "" false false [] false None true true)).
    cbv iota. cbn [isItemList isEnum enum representAsStruct length Nat.ltb Nat.leb andb].
    now apply inherited_compound_loops.
Qed.

(** C1.  The claim fails on the code.  In [inheritedRaw] the type [A], not
    an enumeration, is still a struct after classification; the one
    property [makeCompoundType] collects for it is [p], inherited from [B],
    whose winning candidate is [A]: the type is a field of itself, and its
    translation never returns, whatever the fuel.  In [enumCycleRaw] the
    enumeration [E] is still a struct, lies on a cycle of struct-typed
    property edges, and its translation never returns either. *)
Theorem struct_cycles_survive_classification :
  (classify 5 inheritedRaw [] = Ok inheritedClassified /\
   (exists d, objGet inheritedClassified "A" = Some d /\
              representAsStruct d = true /\ isEnum d = false) /\
   recursiveCollectProperties 5 inheritedClassified "A" "A" []
   = Ok [("p", mkProperty ["A"] "")] /\
   bestCandidate inheritedClassified ["A"] = Some ("A", 3%Z) /\
   forall fuel,
     typeToThingTalk nounTagger sameString sameString fuel sampleProcessor
                     inheritedClassified "A" = Err OutOfFuel) /\
  (classify 5 enumCycleRaw [] = Ok enumCycleClassified /\
   isStruct enumCycleClassified "E" = true /\
   tc (structEdge enumCycleClassified) "E" "E" /\
   forall fuel,
     typeToThingTalk nounTagger sameString sameString fuel sampleProcessor
                     enumCycleClassified "E" = Err OutOfFuel).
Proof.
  split.
  - split; [vm_compute; reflexivity|].
    split; [eexists; split; [reflexivity|]; split; reflexivity|].
    split; [reflexivity|]. split; [reflexivity|].
    intros fuel. apply (inherited_field_cycle_is_left fuel).
  - destruct enum_struct_on_cycle as (H1 & H2 & H3).
    split; [assumption|]. split; [assumption|]. split; [assumption|].
    exact enum_struct_never_translates.
Qed.

(** C9.  The claim fails on the code.  In [collisionRaw] the class [new],
    a keyword, is written under the name [_new], which is the name of a
    class written before it: its definition takes the place of that class
    in the sequence of queries, before the definition of its parent [P]. *)
Theorem keyword_class_emitted_before_parent :
  classify 5 collisionRaw [] = Ok collisionClassified /\
  toposortAll 5 collisionClassified = Ok ["Thing"; "_new"; "P"; "new"] /\
  exists queries child parent,
    emitQueries nounTagger sameString sameString 5 sampleProcessor collisionClassified
    = Ok queries /\
    objKeys queries = ["Thing"; "_new"; "P"] /\
    objGet queries (emittedName "new") = Some child /\ fextends child = ["P"] /\
    objGet queries (emittedName "P") = Some parent /\ fname parent = "P" /\
    before (objKeys queries) (emittedName "new") (emittedName "P").
Proof.
  split; [vm_compute; reflexivity|]. split; [vm_compute; reflexivity|].
  eexists _, _, _. split; [vm_compute; reflexivity|].
  split; [reflexivity|]. split; [reflexivity|]. split; [reflexivity|].
  split; [reflexivity|]. split; [reflexivity|].
  exists ["Thing"], [], []. reflexivity.
Qed.

(** * Further properties *)

(** ** [isSubClass] *)

Lemma isSubClassLoop_total th call b es :
  (forall e, In e es -> objHas th e = true -> exists r, call e = Ok r) ->
  exists r, isSubClassLoop th call b es = Ok r.
Proof.
  intros Hcall. induction es as [|e es IH]; simpl; [eauto|].
  destruct (String.eqb e b); [eauto|].
  assert (IH' : exists r, isSubClassLoop th call b es = Ok r).
  { apply IH. intros e' Hin. apply Hcall. now right. }
  destruct (objHas th e) eqn:He; simpl; [|assumption].
  destruct (Hcall e (or_introl eq_refl) He) as [r ->]. simpl.
  destruct r; eauto.
Qed.

Lemma isSubClass_total th rank b :
  rankedRaw th rank ->
  forall fuel x, objHas th x = true -> rank x < fuel ->
  exists r, isSubClass fuel th x b = Ok r.
Proof.
  intros Hrank. induction fuel as [|fuel IH]; intros x Hx Hlt; [lia|]. simpl.
  apply objHas_true in Hx as [d Hd]. rewrite Hd.
  apply isSubClassLoop_total. intros e Hin He. apply IH; [assumption|].
  assert (rank e < rank x) by (apply Hrank; exists d; auto). lia.
Qed.

(** X1. On a hierarchy without a cycle of [extends], [isSubClass] returns,
    and its answer is [true] exactly when the type reaches [subtypeof]
    through the parents the hierarchy knows. *)
Theorem isSubClass_decides th rank fuel x b :
  rankedRaw th rank -> objHas th x = true -> rank x < fuel ->
  exists r, isSubClass fuel th x b = Ok r /\ (r = true <-> subClassOf th x b).
Proof.
  intros Hrank Hx Hlt.
  destruct (isSubClass_total th rank b Hrank fuel x Hx Hlt) as [r Hr].
  exists r. split; [assumption|]. eapply isSubClass_spec; eassumption.
Qed.

Lemma isSubClassLoop_error th call b es e0 :
  (forall e err, objHas th e = true -> call e = Err err -> err = OutOfFuel) ->
  isSubClassLoop th call b es = Err e0 -> e0 = OutOfFuel.
Proof.
  intros Hcall. induction es as [|e es IH]; simpl; [discriminate|].
  destruct (String.eqb e b); [discriminate|].
  destruct (objHas th e) eqn:He; simpl; [|assumption].
  destruct (call e) as [r|err] eqn:Hr; simpl.
  - destruct r; [discriminate | assumption].
  - intros [= <-]. eauto.
Qed.

Lemma isSubClass_error th b fuel :
  forall x e0, objHas th x = true -> isSubClass fuel th x b = Err e0 -> e0 = OutOfFuel.
Proof.
  induction fuel as [|fuel IH]; intros x e0 Hx; simpl; [now intros [= <-]|].
  apply objHas_true in Hx as [d Hd]. rewrite Hd.
  apply isSubClassLoop_error. intros e err He. now apply IH.
Qed.

Lemma isSubClassLoop_diverges th call b es :
  (forall e, In e es -> e <> b) ->
  (forall e, In e es -> objHas th e = true ->
             call e = Ok false \/ call e = Err OutOfFuel) ->
  (exists e, In e es /\ objHas th e = true /\ call e = Err OutOfFuel) ->
  isSubClassLoop th call b es = Err OutOfFuel.
Proof.
  intros Hne Hcall (e0 & Hin0 & He0 & Hdiv).
  induction es as [|e es IH]; [destruct Hin0|]. simpl.
  destruct (String.eqb_spec e b) as [->|_];
    [exfalso; apply (Hne b); [now left | reflexivity]|].
  assert (IH' : In e0 es -> isSubClassLoop th call b es = Err OutOfFuel).
  { intros Hin. apply IH; [| |assumption].
    - intros e' H'. apply Hne. now right.
    - intros e' H'. apply Hcall. now right. }
  destruct Hin0 as [->|Hin0].
  - now rewrite He0, Hdiv.
  - destruct (objHas th e) eqn:He; simpl; [|auto].
    destruct (Hcall e (or_introl eq_refl) He) as [-> | ->]; simpl; auto.
Qed.

(** X2. Where a type lies on a cycle of [extends] and does not reach
    [subtypeof], [isSubClass] never returns: it has no visited set. *)
Theorem isSubClass_cyclic_diverges th x b :
  tc (rawParentEdge th) x x -> ~ subClassOf th x b ->
  forall fuel, isSubClass fuel th x b = Err OutOfFuel.
Proof.
  intros Hcyc Hnot fuel. revert x Hcyc Hnot.
  induction fuel as [|fuel IH]; intros x Hcyc Hnot; [reflexivity|]. simpl.
  assert (Hnext : exists e, rawParentEdge th x e /\ tc (rawParentEdge th) e e).
  { inversion Hcyc as [? ? He | ? e ? He Hr]; subst.
    - exists x. auto.
    - exists e. split; [assumption|]. eapply tc_r; eassumption. }
  destruct Hnext as (e & (d & Hd & Hin & He) & Hcyce). rewrite Hd.
  assert (Hsub : forall e', In e' (rextends d) -> objHas th e' = true ->
                            ~ subClassOf th e' b).
  { intros e' Hin' He' Hs. apply Hnot. eapply sub_step; eassumption. }
  apply isSubClassLoop_diverges.
  - intros e' Hin' ->. apply Hnot. eapply sub_direct; eassumption.
  - intros e' Hin' He'. destruct (isSubClass fuel th e' b) as [r|err] eqn:Hr.
    + left. destruct r; [|reflexivity]. exfalso. apply (Hsub e' Hin' He').
      now apply (isSubClass_spec _ _ _ _ _ Hr).
    + right. f_equal. eapply isSubClass_error; eassumption.
  - exists e. split; [assumption|]. split; [assumption|]. apply IH; auto.
Qed.

(** ** The flag pass *)

Lemma getItemType_known typename th :
  getItemType typename th = "Thing" \/ objHas th (getItemType typename th) = true.
Proof.
  unfold getItemType.
  repeat match goal with
         | |- context [if endsWith ?a ?b then _ else _] => destruct (endsWith a b)
         | |- context [if objHas ?o ?k then _ else _] => destruct (objHas o k) eqn:?
         end; auto.
Qed.

Lemma classifyType_flags fuel th enums x d d' :
  classifyType fuel th enums x d = Ok d' ->
  extends d' = rextends d /\ properties d' = rproperties d /\ comment d' = rcomment d /\
  (isAction d' = true <-> subClassOf th x "Action") /\
  (isEnum d' = true <-> objHas enums x = true \/ subClassOf th x "Enumeration") /\
  (isItemList d' = true <-> subClassOf th x "ItemList") /\
  (representAsStruct d' = true <-> structLineage th x) /\
  isStructSubType d' = representAsStruct d' /\
  enum d' = (if isEnum d' then match objGet enums x with Some vs => vs | None => [] end
             else []) /\
  itemType d' = (if isItemList d' then Some (getItemType x th) else None).
Proof.
  intros H. pose proof (classifyType_spec _ _ _ _ _ _ H) as (_ & _ & Hst).
  unfold classifyType in H.
  apply bind_Ok in H as (act & Hact & H). apply bind_Ok in H as (en & Hen & H).
  apply bind_Ok in H as (il & Hil & H). apply bind_Ok in H as (st & _ & H).
  injection H as <-. cbn [extends properties comment isAction isEnum isItemList
                          representAsStruct isStructSubType enum itemType] in *.
  repeat split; try reflexivity; try apply Hst.
  - intros ->. now apply (isSubClass_spec _ _ _ _ _ Hact).
  - intros Hs. now apply (isSubClass_spec _ _ _ _ _ Hact).
  - intros ->. destruct (objHas enums x); [now left|]. right.
    now apply (isSubClass_spec _ _ _ _ _ Hen).
  - intros [He|Hs].
    + rewrite He in Hen. now injection Hen.
    + destruct (objHas enums x); [now injection Hen|].
      now apply (isSubClass_spec _ _ _ _ _ Hen).
  - intros ->. now apply (isSubClass_spec _ _ _ _ _ Hil).
  - intros Hs. now apply (isSubClass_spec _ _ _ _ _ Hil).
Qed.

(** X3. The flag pass keeps the keys, the parents, the properties and the
    comment of every node, and where it returns its flags say what they are
    named for: [isAction], [isEnum] and [isItemList] hold exactly for the
    transitive subclasses of [Action], [Enumeration] (or the types with
    declared values) and [ItemList]; both struct flags hold exactly in the
    structured lineages; [enum] is the list of declared values; a
    list-wrapper, and no other node, has an element type, which is [Thing]
    or a node of the hierarchy. *)
Theorem classifyFlags_flags fuel th enums th0 :
  classifyFlags fuel th enums = Ok th0 ->
  objKeys th0 = objKeys th /\
  forall x d', objGet th0 x = Some d' ->
    exists d, objGet th x = Some d /\
      extends d' = rextends d /\ properties d' = rproperties d /\
      comment d' = rcomment d /\
      (isAction d' = true <-> subClassOf th x "Action") /\
      (isEnum d' = true <-> objHas enums x = true \/ subClassOf th x "Enumeration") /\
      (isItemList d' = true <-> subClassOf th x "ItemList") /\
      (representAsStruct d' = true <-> structLineage th x) /\
      isStructSubType d' = representAsStruct d' /\
      enum d' = (if isEnum d' then match objGet enums x with Some vs => vs | None => [] end
                 else []) /\
      (if isItemList d'
       then exists item, itemType d' = Some item /\
                         (item = "Thing" \/ objHas th item = true)
       else itemType d' = None).
Proof.
  intros H. apply classifyEntries_spec in H as [K G]. split; [assumption|].
  intros x d' Hd'. destruct (G x d' Hd') as (d & Hd & Hc). exists d.
  split; [assumption|].
  destruct (classifyType_flags _ _ _ _ _ _ Hc)
    as (E1 & E2 & E3 & F1 & F2 & F3 & F4 & F5 & F6 & F7).
  repeat (split; [assumption|]).
  rewrite F7. destruct (isItemList d'); [|reflexivity].
  eexists. split; [reflexivity | apply getItemType_known].
Qed.

(** ** The cycle search and the cycle-breaking loop *)

Lemma keySet_size_le th : size (keySet th) <= length (objKeys th).
Proof.
  unfold keySet. induction (objKeys th) as [|k ks IH].
  - rewrite list_to_set_nil, size_empty. reflexivity.
  - rewrite list_to_set_cons, size_union_alt, size_singleton. cbn [length].
    assert (size (list_to_set ks ∖ {[k]} : gset string) <= size (list_to_set ks : gset string))
      by (apply subseteq_size; set_solver).
    lia.
Qed.

(** X4. Started on a node with an empty visited set, [findCycle] returns
    on every hierarchy, cyclic or not, and answers [true] exactly when the
    node lies on a cycle of struct-typed property edges. *)
Theorem findCycle_decides th x fuel :
  length (objKeys th) < fuel -> objHas th x = true ->
  exists b visited, findCycle fuel th x x ∅ = Ok (b, visited) /\
                    (b = true <-> tc (structEdge th) x x).
Proof.
  intros Hlen Hx.
  destruct (findCycle_total th x fuel x ∅ Hx) as (b & V & H & _).
  { pose proof (keySet_size_le th).
    assert (size (keySet th ∖ ∅) <= size (keySet th)) by (apply subseteq_size; set_solver).
    lia. }
  exists b, V. split; [assumption|]. destruct b.
  - split; [intros _; eapply findCycle_complete; eassumption | reflexivity].
  - split; [discriminate|]. intros Hc. exfalso. eapply findCycle_sound; eassumption.
Qed.

Lemma breakCycleStep_changes fuel th k th' :
  breakCycleStep fuel th k = Ok th' ->
  forall x, isStruct th x = true -> isStruct th' x = false ->
  (exists d, objGet th x = Some d /\ isEnum d = false) /\ tc (structEdge th) x x.
Proof.
  unfold breakCycleStep. destruct (objGet th k) as [d|] eqn:Hd; [|discriminate].
  destruct (isEnum d) eqn:He; [intros [= <-] x; congruence|].
  destruct (representAsStruct d) eqn:Hr; simpl; [|intros [= <-] x; congruence].
  intros H. apply bind_Ok in H as ([b V] & Hf & H). simpl in H.
  destruct b; injection H as <-; [|intros x; congruence].
  intros x Hx. rewrite isStruct_assignStruct.
  destruct (String.eqb_spec x k) as [->|_]; [|congruence]. intros _.
  split; [eauto|]. eapply findCycle_complete; eassumption.
Qed.

Lemma breakCycles_changes fuel th0 ks :
  forall th th', demotion th0 th -> foldM (breakCycleStep fuel) ks th = Ok th' ->
  forall x, isStruct th x = true -> isStruct th' x = false ->
  (exists d, objGet th0 x = Some d /\ isEnum d = false) /\ tc (structEdge th0) x x.
Proof.
  induction ks as [|k ks IH]; intros th th' D; simpl.
  - intros [= <-] x. congruence.
  - intros H x Hx Hx'. apply bind_Ok in H as (th1 & H1 & H).
    destruct (breakCycleStep_spec _ _ _ _ H1) as (D1 & _ & _).
    destruct (isStruct th1 x) eqn:E.
    + eapply (IH th1 th'); eauto using demotion_trans.
    + destruct (breakCycleStep_changes _ _ _ _ H1 x Hx E) as ((d & Hd & He) & Hc).
      split; [|eapply demotion_cycle; eassumption].
      destruct D as [_ G]. destruct (G x d Hd) as (d0 & Hd0 & Ed & _).
      exists d0. split; [assumption|]. rewrite Ed in He. exact He.
Qed.

Lemma breakCycles_returns fuel ks :
  forall th, length (objKeys th) < fuel -> (forall k, In k ks -> objHas th k = true) ->
  exists th', foldM (breakCycleStep fuel) ks th = Ok th'.
Proof.
  induction ks as [|k ks IH]; intros th Hlen Hks; simpl; [eauto|].
  assert (Hstep : exists th1, breakCycleStep fuel th k = Ok th1).
  { unfold breakCycleStep.
    destruct (proj1 (objHas_true th k) (Hks k (or_introl eq_refl))) as [d ->].
    destruct (isEnum d); [eauto|]. destruct (representAsStruct d); simpl; [|eauto].
    destruct (findCycle_total th k fuel k ∅) as (b & V & -> & _).
    - apply Hks. now left.
    - pose proof (keySet_size_le th).
      assert (size (keySet th ∖ ∅) <= size (keySet th))
        by (apply subseteq_size; set_solver).
      lia.
    - simpl. destruct b; eauto. }
  destruct Hstep as [th1 H1]. rewrite H1. simpl.
  destruct (breakCycleStep_spec _ _ _ _ H1) as (D1 & _ & _).
  apply IH.
  - destruct D1 as [K1 _]. now rewrite K1.
  - intros k' Hin. rewrite (demotion_objHas th th1 k' D1). apply Hks. now right.
Qed.

(** X5. The cycle-breaking loop returns on every hierarchy. It changes
    nothing but [representAsStruct], never sets it, and clears it only on
    types that are not enumerations and lie on a cycle of struct-typed
    property edges of the hierarchy it was given. *)
Theorem breakCycles_effect fuel th :
  length (objKeys th) < fuel ->
  exists th', breakCycles fuel th = Ok th' /\ demotion th th' /\
    forall x, isStruct th x = true -> isStruct th' x = false ->
      (exists d, objGet th x = Some d /\ isEnum d = false) /\ tc (structEdge th) x x.
Proof.
  intros Hlen.
  destruct (breakCycles_returns fuel (objKeys th) th Hlen) as (th' & H).
  { intros k Hk. apply objHas_true. now apply objGet_keys. }
  exists th'. split; [exact H|]. split; [now apply breakCycles_spec in H|].
  exact (breakCycles_changes fuel th (objKeys th) th th' (demotion_refl th) H).
Qed.

(** ** Ancestor propagation *)

Lemma propagateStep_cases fuel th k th' :
  propagateStep fuel th k = Ok th' ->
  th' = th \/
  exists d, objGet th k = Some d /\ isEnum d = false /\ representAsStruct d = false /\
            clearsFrom th th' [k].
Proof.
  unfold propagateStep. destruct (objGet th k) as [d|] eqn:Hd; [|discriminate].
  destruct (isEnum d) eqn:He; [intros [= <-]; now left|].
  destruct (representAsStruct d) eqn:Hr; [intros [= <-]; now left|].
  intros H. right. exists d. repeat split; try assumption;
    apply recursiveMakeNonStruct_spec in H; try apply H; apply objHas_true; eauto.
Qed.

Lemma propagate_changes fuel th0 ks :
  forall th th', demotion th0 th ->
    (forall y, isStruct th0 y = true -> isStruct th y = false -> belowNonStruct th0 y) ->
    foldM (propagateStep fuel) ks th = Ok th' ->
    forall y, isStruct th0 y = true -> isStruct th' y = false -> belowNonStruct th0 y.
Proof.
  induction ks as [|k ks IH]; intros th th' D Inv; simpl.
  - now intros [= <-].
  - intros H. apply bind_Ok in H as (th1 & H1 & H).
    destruct (propagateStep_cases _ _ _ _ H1) as [-> | (d & Hd & He & Hr & C)];
      [eapply IH; eassumption|].
    destruct C as (D1 & _ & N1).
    apply (IH th1 th' (demotion_trans _ _ _ D D1)); [|assumption].
    intros y Hy0 Hy1. destruct (isStruct th y) eqn:Hy; [|auto].
    destruct (N1 y Hy Hy1) as (z & [<-|[]] & Hz).
    apply (demotion_ancestors th0 th k y D) in Hz.
    destruct D as [K G]. destruct (G k d Hd) as (d0 & Hd0 & Ed & _).
    destruct (representAsStruct d0) eqn:Hr0.
    + destruct (Inv k) as (z & dz & Hz1 & Hz2 & Hz3 & Hz4).
      * unfold isStruct. now rewrite Hd0.
      * unfold isStruct. now rewrite Hd.
      * exists z, dz. repeat split; try assumption. eapply rtc_trans; eassumption.
    + exists k, d0. repeat split; try assumption. rewrite Ed in He. exact He.
Qed.

(** X6. Ancestor propagation changes nothing but [representAsStruct] and
    never sets it; a struct stops being one exactly when it is an ancestor
    of a node that is neither an enumeration nor a struct. *)
Theorem propagate_effect fuel th th' :
  propagateNonStruct fuel th = Ok th' ->
  demotion th th' /\
  forall y, isStruct th y = true -> (isStruct th' y = false <-> belowNonStruct th y).
Proof.
  intros H. pose proof (propagate_loop _ _ _ _ H) as (D & _ & S).
  split; [assumption|]. intros y Hy. split.
  - apply (propagate_changes fuel th (objKeys th) th th' (demotion_refl th)); auto.
    intros y' H1 H2. congruence.
  - intros (z & dz & Hz & He & Hr & Hzy).
    destruct (demotion_get _ _ _ _ D Hz) as (dz' & Hz' & Ez & Mz).
    assert (Hset : settled th' z).
    { apply (S z dz'); [|assumption|rewrite Ez; exact He].
      apply objGet_keys. eauto. }
    apply Hset.
    + unfold isStruct. rewrite Hz'. destruct (representAsStruct dz') eqn:E; [|reflexivity].
      specialize (Mz eq_refl). congruence.
    + now apply (demotion_ancestors th th' z y D).
Qed.

Lemma demotion_ranked th th' rank : demotion th th' -> ranked th rank -> ranked th' rank.
Proof. intros D R a b H. apply R. now apply (demotion_parentEdge th th' a b D). Qed.

Lemma recursiveMakeNonStruct_total rank fuel :
  forall th z, ranked th rank -> objHas th z = true -> rank z < fuel ->
  exists th', recursiveMakeNonStruct fuel th z = Ok th'.
Proof.
  induction fuel as [|fuel IH]; intros th z R Hz Hlt; [lia|]. simpl.
  apply objHas_true in Hz as [d Hd]. rewrite Hd.
  pose proof (demotion_assign th z) as D0.
  assert (G : forall es s, demotion th s -> (forall e, In e es -> In e (extends d)) ->
            exists s', foldM (fun th' _extend =>
                                if negb (objHas th' _extend) then Ok th'
                                else recursiveMakeNonStruct fuel th' _extend) es s = Ok s').
  { induction es as [|e es IHes]; intros s D Hsub; simpl; [eauto|].
    assert (Hstep : exists s1, (if negb (objHas s e) then Ok s
                                else recursiveMakeNonStruct fuel s e) = Ok s1 /\
                               demotion s s1).
    { destruct (objHas s e) eqn:He; simpl.
      - destruct (IH s e) as [s1 H1].
        + eapply demotion_ranked; eassumption.
        + assumption.
        + assert (rank e < rank z); [|lia]. apply R. exists d.
          split; [assumption|]. split; [apply Hsub; now left|].
          now rewrite <- (demotion_objHas th s e D).
        + exists s1. split; [assumption|].
          now apply recursiveMakeNonStruct_spec in H1 as (D1 & _).
      - exists s. split; [reflexivity | apply demotion_refl]. }
    destruct Hstep as (s1 & -> & D1). simpl. apply IHes.
    - eapply demotion_trans; eassumption.
    - intros e' Hin. apply Hsub. now right. }
  apply G; auto.
Qed.

Lemma propagate_returns rank fuel ks :
  forall th, ranked th rank -> (forall x, objHas th x = true -> rank x < fuel) ->
    (forall k, In k ks -> objHas th k = true) ->
    exists th', foldM (propagateStep fuel) ks th = Ok th'.
Proof.
  induction ks as [|k ks IH]; intros th R Hfuel Hks; simpl; [eauto|].
  assert (Hstep : exists th1, propagateStep fuel th k = Ok th1).
  { unfold propagateStep.
    destruct (proj1 (objHas_true th k) (Hks k (or_introl eq_refl))) as [d Hd]. rewrite Hd.
    destruct (isEnum d); [eauto|]. destruct (representAsStruct d); [eauto|].
    apply (recursiveMakeNonStruct_total rank);
      [assumption | apply Hks; now left | apply Hfuel, Hks; now left]. }
  destruct Hstep as [th1 H1]. rewrite H1. simpl.
  assert (D1 : demotion th th1).
  { destruct (propagateStep_cases _ _ _ _ H1) as [-> | (d & _ & _ & _ & C)];
      [apply demotion_refl | apply C]. }
  apply IH.
  - eapply demotion_ranked; eassumption.
  - intros x Hx. apply Hfuel. now rewrite <- (demotion_objHas th th1 x D1).
  - intros k' Hin. rewrite (demotion_objHas th th1 k' D1). apply Hks. now right.
Qed.

(** ** The classifier on a hierarchy without cycles of [extends] *)

Lemma anySubClass_total th rank x fuel bases :
  rankedRaw th rank -> objHas th x = true -> rank x < fuel ->
  exists r, anySubClass fuel th x bases = Ok r.
Proof.
  intros R Hx Hlt. induction bases as [|b bases IH]; simpl; [eauto|].
  destruct (isSubClass_total th rank b R fuel x Hx Hlt) as [r ->]. simpl.
  destruct r; eauto.
Qed.

Lemma classifyType_total th rank enums x d fuel :
  rankedRaw th rank -> objHas th x = true -> rank x < fuel ->
  exists d', classifyType fuel th enums x d = Ok d'.
Proof.
  intros R Hx Hlt. unfold classifyType.
  destruct (isSubClass_total th rank "Action" R fuel x Hx Hlt) as [act ->]. cbn [bind].
  assert (Hen : exists en, (if objHas enums x then Ok true
                            else isSubClass fuel th x "Enumeration") = Ok en).
  { destruct (objHas enums x); [eauto|]. now apply (isSubClass_total th rank). }
  destruct Hen as [en ->]. cbn [bind].
  destruct (isSubClass_total th rank "ItemList" R fuel x Hx Hlt) as [il ->]. cbn [bind].
  assert (Hst : exists st, (if includes STRUCTURED_HIERARCHIES x then Ok true
                            else anySubClass fuel th x STRUCTURED_HIERARCHIES) = Ok st).
  { destruct (includes STRUCTURED_HIERARCHIES x); [eauto|].
    now apply (anySubClass_total th rank). }
  destruct Hst as [st ->]. cbn [bind]. eauto.
Qed.

Lemma classifyEntries_total th rank enums fuel entries :
  rankedRaw th rank -> (forall x, objHas th x = true -> rank x < fuel) ->
  (forall e, In e entries -> objHas th (fst e) = true) ->
  exists res, classifyEntries fuel th enums entries = Ok res.
Proof.
  intros R Hfuel. induction entries as [|[k d] entries IH]; intros Hin; simpl; [eauto|].
  destruct (classifyType_total th rank enums k d fuel R) as [d' ->].
  - apply (Hin (k, d)). now left.
  - apply Hfuel. apply (Hin (k, d)). now left.
  - simpl. destruct IH as [res ->]; [intros e He; apply Hin; now right|]. simpl. eauto.
Qed.

(** X7. On a hierarchy without a cycle of [extends] the classifier returns:
    with fuel above the rank of every node and above the number of nodes
    (the depth of the recursion of [isSubClass] and
    [recursiveMakeNonStruct], and of [findCycle]), it yields a hierarchy
    with the same keys. *)
Theorem classify_total raw rank enums fuel :
  rankedRaw raw rank -> (forall x, objHas raw x = true -> rank x < fuel) ->
  length (objKeys raw) < fuel ->
  exists th, classify fuel raw enums = Ok th /\ objKeys th = objKeys raw.
Proof.
  intros R Hfuel Hlen. unfold classify, classifyFlags.
  destruct (classifyEntries_total raw rank enums fuel raw R Hfuel) as [th0 H0].
  { intros [k d] Hin. apply objHas_true, objGet_keys. unfold objKeys.
    apply in_map_iff. exists (k, d). auto. }
  rewrite H0. simpl. apply classifyEntries_spec in H0 as [K0 G0].
  assert (Hhas : forall x, objHas th0 x = true -> objHas raw x = true).
  { intros x Hx. apply objHas_true, objGet_keys. rewrite <- K0.
    now apply objGet_keys, objHas_true. }
  assert (R0 : ranked th0 rank).
  { intros a b (da & Hda & Hb & Hhb). apply R.
    destruct (G0 a da Hda) as (ra & Hra & Hc).
    apply classifyType_spec in Hc as (E & _ & _). exists ra.
    split; [assumption|]. split; [now rewrite <- E | now apply Hhas]. }
  destruct (breakCycles_returns fuel (objKeys th0) th0) as [th1 H1].
  { now rewrite K0. }
  { intros k Hk. apply objHas_true. now apply objGet_keys. }
  change (foldM (breakCycleStep fuel) (objKeys th0) th0) with (breakCycles fuel th0) in H1.
  rewrite H1. simpl. pose proof (breakCycles_spec _ _ _ H1) as [D1 _].
  destruct (propagate_returns rank fuel (objKeys th1) th1) as [th2 H2].
  - eapply demotion_ranked; eassumption.
  - intros x Hx. apply Hfuel, Hhas. now rewrite <- (demotion_objHas th0 th1 x D1).
  - intros k Hk. apply objHas_true. now apply objGet_keys.
  - exists th2. split; [exact H2|].
    pose proof (propagate_loop _ _ _ _ H2) as ([K2 _] & _).
    destruct D1 as [K1 _]. congruence.
Qed.

(** ** The emission order *)

Lemma setAdd_NoDup o x : List.NoDup o -> List.NoDup (setAdd o x).
Proof.
  intros H. unfold setAdd. destruct (includes o x) eqn:E; [assumption|].
  apply NoDup_ListNoDup, NoDup_app. split; [now apply NoDup_ListNoDup|].
  split; [|apply NoDup_singleton]. intros y Hy Hy'.
  apply list_elem_of_singleton in Hy'. subst. apply list_elem_of_In in Hy.
  apply includes_true in Hy. congruence.
Qed.

Lemma toposort_NoDup th fuel :
  forall t o o', toposort fuel th t o = Ok o' -> List.NoDup o -> List.NoDup o'.
Proof.
  induction fuel as [|fuel IH]; intros t o o'; simpl; [discriminate|].
  destruct (objGet th t) as [d|]; [|discriminate].
  destruct (isAction d || isEnum d || representAsStruct d); [now intros [= <-]|].
  intros H Hnd. apply bind_Ok in H as (o1 & H1 & H). injection H as <-.
  apply setAdd_NoDup. revert o o1 H1 Hnd. generalize (extends d).
  intros es. induction es as [|e es IHes]; intros o o1; simpl.
  - now intros [= <-].
  - intros H Hnd. apply bind_Ok in H as (o2 & H2 & H). apply (IHes o2 o1 H).
    destruct (negb (objHas th e)); [now injection H2 as <-|eauto].
Qed.

Lemma toposort_total th rank fuel :
  ranked th rank ->
  forall t o, objHas th t = true -> rank t < fuel ->
  exists o', toposort fuel th t o = Ok o'.
Proof.
  intros R. induction fuel as [|fuel IH]; intros t o Ht Hlt; [lia|]. simpl.
  apply objHas_true in Ht as [d Hd]. rewrite Hd.
  destruct (isAction d || isEnum d || representAsStruct d); [eauto|].
  assert (G : forall es o, (forall e, In e es -> In e (extends d)) ->
            exists o1, foldM (fun o _extend =>
                                if negb (objHas th _extend) then Ok o
                                else toposort fuel th _extend o) es o = Ok o1).
  { induction es as [|e es IHes]; intros o0 Hsub; simpl; [eauto|].
    assert (Hstep : exists o2, (if negb (objHas th e) then Ok o0
                                else toposort fuel th e o0) = Ok o2).
    { destruct (objHas th e) eqn:He; simpl; [|eauto]. apply IH; [assumption|].
      assert (rank e < rank t); [|lia]. apply R. exists d.
      split; [assumption|]. split; [apply Hsub; now left | assumption]. }
    destruct Hstep as [o2 ->]. simpl. apply IHes. intros e' Hin. apply Hsub. now right. }
  destruct (G (extends d) o) as [o1 ->]; [auto|]. simpl. eauto.
Qed.

(** X8. On a classified hierarchy without a cycle of [extends] the
    topological sort returns, and no type comes twice in its order. *)
Theorem toposortAll_total th rank fuel :
  ranked th rank -> (forall x, objHas th x = true -> rank x < fuel) ->
  exists order, toposortAll fuel th = Ok order /\ List.NoDup order.
Proof.
  intros R Hfuel. unfold toposortAll.
  assert (G : forall ks o, (forall k, In k ks -> objHas th k = true) -> List.NoDup o ->
            exists o', foldM (fun order type => if includes order type then Ok order
                                                else toposort fuel th type order) ks o
                       = Ok o' /\ List.NoDup o').
  { induction ks as [|k ks IH]; intros o Hks Hnd; simpl; [eauto|].
    assert (Hstep : exists o1, (if includes o k then Ok o else toposort fuel th k o)
                               = Ok o1 /\ List.NoDup o1).
    { destruct (includes o k); [eauto|].
      destruct (toposort_total th rank fuel R k o) as [o1 H1];
        [apply Hks; now left | apply Hfuel, Hks; now left |].
      exists o1. split; [assumption|]. eapply toposort_NoDup; eassumption. }
    destruct Hstep as (o1 & -> & Hnd1). simpl. apply IH; [|assumption].
    intros k' Hin. apply Hks. now right. }
  apply G; [|constructor]. intros k Hk. apply objHas_true. now apply objGet_keys.
Qed.

(** ** The property type resolver *)

Lemma bestCandidate_first_max_aux th candidates :
  firstMaximal th candidates (bestCandidate th candidates).
Proof.
  unfold bestCandidate.
  assert (G : forall cs seen best, firstMaximal th seen best ->
    firstMaximal th (seen ++ cs)
      (fold_left (fun best type =>
                    let score := candidateScore th type in
                    match best with
                    | None => Some (type, score)
                    | Some (_, bestScore) =>
                        if (bestScore <? score)%Z then Some (type, score) else best
                    end) cs best)).
  { induction cs as [|c cs IH]; intros seen best Inv; simpl.
    - now rewrite app_nil_r.
    - change (c :: cs) with ([c] ++ cs). rewrite app_assoc. apply IH.
      destruct best as [[b s]|]; simpl in *.
      + destruct Inv as (Es & l1 & l2 & -> & H1 & H2).
        destruct (s <? candidateScore th c)%Z eqn:L; simpl.
        * split; [reflexivity|]. exists (l1 ++ b :: l2), []. split; [reflexivity|].
          split; [|intros ? []]. intros c' Hin. apply in_app_or in Hin as [Hin|[<-|Hin]].
          -- specialize (H1 c' Hin). lia.
          -- lia.
          -- specialize (H2 c' Hin). lia.
        * split; [assumption|]. exists l1, (l2 ++ [c]).
          split; [now rewrite <- app_assoc|]. split; [assumption|].
          intros c' Hin. apply in_app_or in Hin as [Hin|[<-|[]]]; [auto | lia].
      + subst. split; [reflexivity|]. exists [], []. split; [reflexivity|].
        split; intros ? []. }
  apply (G candidates [] None). reflexivity.
Qed.

(** X9. The scoring loop picks the first of the candidates with the
    greatest score: the candidates before it score less, those after it no
    more; it picks nothing only when there is no candidate. *)
Theorem bestCandidate_first_max th candidates :
  match bestCandidate th candidates with
  | None => candidates = []
  | Some (best, bestScore) =>
      bestScore = candidateScore th best /\
      exists before_ after, candidates = before_ ++ best :: after /\
        (forall c, In c before_ -> (candidateScore th c < bestScore)%Z) /\
        (forall c, In c after -> (candidateScore th c <= bestScore)%Z)
  end.
Proof. exact (bestCandidate_first_max_aux th candidates). Qed.

Section Resolver.

Variable posTag : list string -> list string.
Variable clean : string -> string.
Variable pluralize : string -> string.

Lemma bestCandidate_member th cs b s : bestCandidate th cs = Some (b, s) -> In b cs.
Proof.
  intros H. pose proof (bestCandidate_first_max_aux th cs) as Hm. rewrite H in Hm.
  destruct Hm as (_ & l1 & l2 & -> & _). apply in_or_app. right. now left.
Qed.

(** X10. A property with a type override never needs the translation of
    its candidates: whatever the fuel and the hierarchy, the resolver
    returns, with nothing (black-listed, or no known candidate) or with the
    override beside one of the candidates. *)
Theorem property_type_override fuel self th propname property override :
  objGet PROPERTY_TYPE_OVERRIDE propname = Some override ->
  getBestPropertyType posTag clean pluralize fuel self th propname property = Ok None \/
  exists best,
    getBestPropertyType posTag clean pluralize fuel self th propname property
    = Ok (Some (best, override)) /\ In best (types property).
Proof.
  intros Ho. unfold getBestPropertyType, getBestPropertyTypeWith.
  destruct (includes BLACKLISTED_PROPERTIES propname); [now left|].
  destruct (bestCandidate th (types property)) as [[best s]|] eqn:Hb; [|now left].
  destruct (s <? 0)%Z; [now left|]. rewrite Ho. right. exists best.
  split; [reflexivity|]. eapply bestCandidate_member; eassumption.
Qed.

Lemma PROPERTY_TYPE_OVERRIDE_plain x t :
  objGet PROPERTY_TYPE_OVERRIDE x = Some t -> isArray t = false /\ t <> TAny.
Proof.
  unfold PROPERTY_TYPE_OVERRIDE. cbn [objGet].
  repeat (destruct (String.eqb _ x); [intros [= <-]; split; [reflexivity | discriminate]|]).
  discriminate.
Qed.

Lemma typeToThingTalk_any fuel self th x :
  typeToThingTalk posTag clean pluralize fuel self th x = Ok TAny ->
  x = "DataType" \/ x = "QuantitativeValue".
Proof.
  destruct fuel as [|fuel]; cbn [typeToThingTalk]; [discriminate|].
  destruct (objGet BUILTIN_TYPEMAP x) as [t0|] eqn:Hb.
  { intros [= ->]. revert Hb. unfold BUILTIN_TYPEMAP. cbn [objGet].
    repeat match goal with
           | |- context [String.eqb ?a x] =>
               destruct (String.eqb_spec a x) as [<-|_]; [intros [= ]; auto|]
           end; discriminate. }
  destruct (objGet th x) as [d|]; [|discriminate].
  destruct (isItemList d).
  { destruct (itemType d); [|discriminate]. intros H.
    apply bind_Ok in H as (t & _ & H). discriminate. }
  destruct (isEnum d && _); [discriminate|].
  destruct (representAsStruct d); [|discriminate].
  unfold makeCompoundTypeWith. intros H.
  apply bind_Ok in H as (all & _ & H). apply bind_Ok in H as (state & _ & H).
  destruct (negb (snd state)); discriminate.
Qed.

(** X11. The resolver wraps no boolean and no enumeration in an array, and
    gives the type [Any] to no property but one whose winning candidate is
    [DataType]: when the winning candidate is not a list-wrapper class, a
    resolved array type has an element type that is neither. *)
Theorem resolved_type_shape fuel self th propname property best t :
  getBestPropertyType posTag clean pluralize fuel self th propname property
  = Ok (Some (best, t)) ->
  (t = TAny -> best = "DataType") /\
  (isItemListType th best = false ->
   forall elem, t = TArray elem -> isBoolean elem = false /\ isEnumType elem = false).
Proof.
  unfold getBestPropertyType, getBestPropertyTypeWith.
  destruct (includes BLACKLISTED_PROPERTIES propname); [discriminate|].
  destruct (bestCandidate th (types property)) as [[b s]|]; [|discriminate].
  destruct (s <? 0)%Z; [discriminate|].
  destruct (objGet PROPERTY_TYPE_OVERRIDE propname) as [o|] eqn:Ho.
  { intros [= <- <-]. apply PROPERTY_TYPE_OVERRIDE_plain in Ho as [Ha Hn].
    split; [contradiction|]. intros _ elem ->. discriminate. }
  destruct (String.eqb_spec b "QuantitativeValue") as [->|Hqv].
  { destruct (testIgnoreCase "number" propname || testIgnoreCase "level" propname
              || testIgnoreCase "quantity" propname);
      [|destruct (testIgnoreCase "duration" propname)];
      intros [= <- <-]; (split; [discriminate | intros _ elem; discriminate]). }
  intros H. apply bind_Ok in H as (tt & Htt & H). cbv beta zeta in H.
  destruct (isBoolean tt || isEnumType tt) eqn:Hbe.
  - injection H as <- <-. split.
    + intros ->. apply typeToThingTalk_any in Htt as [->| ->]; [reflexivity | contradiction].
    + intros Hil elem ->.
      apply (typeToThingTalk_array posTag clean pluralize) in Htt as [_ Hil'];
        [congruence | reflexivity].
  - destruct (isItemListType th b) eqn:Hil.
    + injection H as <- <-. split; [|intros Hc; congruence].
      intros ->. apply typeToThingTalk_any in Htt as [->| ->]; [reflexivity | contradiction].
    + destruct (arrayHeuristic th propname property); injection H as <- <-.
      * split; [discriminate|]. intros _ elem [= <-].
        now apply orb_false_iff in Hbe.
      * split.
        -- intros ->. apply typeToThingTalk_any in Htt as [->| ->];
             [reflexivity | contradiction].
        -- intros _ elem ->.
           apply (typeToThingTalk_array posTag clean pluralize) in Htt as [_ Hil'];
             [congruence | reflexivity].
Qed.

End Resolver.

(** ** The compound type builder *)

Lemma visitedNodes_loop (visit : string -> result (list string)) es :
  forall seen r,
    foldM (fun s e => do more <- visit e; Ok (s ++ more)) es seen = Ok r ->
    forall v, In v r -> In v seen \/ exists e more, In e es /\ visit e = Ok more /\ In v more.
Proof.
  induction es as [|e es IH]; intros seen r; simpl.
  - intros [= <-] v Hv. now left.
  - intros H v Hv. apply bind_Ok in H as (s1 & H1 & H).
    apply bind_Ok in H1 as (more & Hm & H1). injection H1 as <-.
    destruct (IH _ _ H v Hv) as [Hin | (e' & more' & He' & Hm' & Hin)].
    + apply in_app_or in Hin as [Hin|Hin]; [now left|]. right. exists e, more. auto.
    + right. exists e', more'. auto.
Qed.

Lemma visitedNodes_lineage th start fuel :
  includes STRUCT_INCLUDE_THING_PROPERTIES start = false ->
  forall t vs, visitedNodes fuel th start t = Ok vs ->
  forall v, In v vs ->
    objHas th t = true /\ rtc (parentEdge th) t v /\
    exists d, objGet th v = Some d /\ isStructSubType d = true.
Proof.
  intros Hstart. induction fuel as [|fuel IH]; intros t vs; cbn [visitedNodes];
    [discriminate|].
  rewrite Hstart. cbn [negb andb].
  destruct (objGet th t) as [d|] eqn:Hd; [|intros [= <-] v []].
  destruct (isStructSubType d) eqn:Hs; cbn [negb]; [|intros [= <-] v []].
  assert (Ht : objHas th t = true) by (apply objHas_true; eauto).
  destruct (includes STRUCTURED_HIERARCHIES t).
  { intros [= <-] v [<-|[]]. repeat split; [assumption | apply rtc_refl | eauto]. }
  intros H v Hv. apply bind_Ok in H as (above & Ha & H). injection H as <-.
  destruct Hv as [<-|Hv]; [repeat split; [assumption | apply rtc_refl | eauto]|].
  destruct (visitedNodes_loop _ _ _ _ Ha v Hv) as [[] | (e & more & He & Hm & Hin)].
  destruct (IH e more Hm v Hin) as (Hhe & Hr & Hdv).
  split; [assumption|]. split; [|assumption].
  eapply rtc_l; [|exact Hr]. exists d. auto.
Qed.

Lemma firstSeen_found objs p pd :
  firstSeen objs p = Some pd -> exists o, In o objs /\ objGet o p = Some pd.
Proof.
  induction objs as [|o objs IH]; simpl; [discriminate|].
  destruct (objGet o p) as [pd'|] eqn:E.
  - intros [= <-]. exists o. auto.
  - intros H. destruct (IH H) as (o' & Hin & Ho'). exists o'. auto.
Qed.

(** X12. Unless the starting type is one of those marked to take the
    properties of [Thing], every property [makeCompoundType] collects is
    declared by the starting type or one of its ancestors, on a node inside
    a structured lineage: nothing comes from the non-struct side of the
    hierarchy. *)
Theorem collected_from_lineage fuel th start all :
  includes STRUCT_INCLUDE_THING_PROPERTIES start = false ->
  recursiveCollectProperties fuel th start start [] = Ok all ->
  forall p pd, objGet all p = Some pd ->
  exists t d, rtc (parentEdge th) start t /\ objGet th t = Some d /\
              isStructSubType d = true /\ objGet (properties d) p = Some pd.
Proof.
  intros Hstart H p pd Hp. apply recursiveCollect_spec in H as (vs & Hv & G).
  rewrite G in Hp. simpl in Hp. apply firstSeen_found in Hp as (o & Ho & Hop).
  apply in_map_iff in Ho as (t & <- & Ht).
  destruct (visitedNodes_lineage th start fuel Hstart start vs Hv t Ht)
    as (_ & Hr & d & Hd & Hs).
  exists t, d. unfold ownProperties in Hop. rewrite Hd in Hop. auto.
Qed.

Section CompoundShape.

Variable posTag : list string -> list string.
Variable clean : string -> string.
Variable pluralize : string -> string.

Lemma objSet_In {V : Type} (o : JsObj V) k v e :
  In e (objSet o k v) -> e = (k, v) \/ In e o.
Proof.
  induction o as [|[k' v'] o IH]; simpl.
  - intros [<-|[]]. now left.
  - destruct (String.eqb_spec k' k) as [->|_]; simpl.
    + intros [<-|H]; auto.
    + intros [<-|H]; [auto|]. destruct (IH H); auto.
Qed.

Lemma objSet_NoDup {V : Type} (o : JsObj V) k v :
  List.NoDup (objKeys o) -> List.NoDup (objKeys (objSet o k v)).
Proof.
  intros H. rewrite objKeys_objSet. destruct (objHas o k) eqn:E; [assumption|].
  apply NoDup_ListNoDup, NoDup_app. split; [now apply NoDup_ListNoDup|].
  split; [|apply NoDup_singleton]. intros y Hy Hy'.
  apply list_elem_of_singleton in Hy'. subst. apply list_elem_of_In in Hy.
  apply objGet_keys, objHas_true in Hy. congruence.
Qed.

Lemma addField_invariant typeToThingTalk self th ps :
  forall state state',
    foldM (addField posTag clean pluralize typeToThingTalk self th) ps state = Ok state' ->
    (snd state = true <-> fst state <> []) -> List.NoDup (objKeys (fst state)) ->
    (forall k a, In (k, a) (fst state) ->
                 argName a = k /\ includes BLACKLISTED_PROPERTIES k = false) ->
    (snd state' = true <-> fst state' <> []) /\ List.NoDup (objKeys (fst state')) /\
    (forall k a, In (k, a) (fst state') ->
                 argName a = k /\ includes BLACKLISTED_PROPERTIES k = false).
Proof.
  induction ps as [|[k pd] ps IH]; intros state state'; cbn [foldM].
  - intros [= <-]. auto.
  - intros H I1 I2 I3. apply bind_Ok in H as (s1 & H1 & H). apply (IH _ _ H);
      unfold addField in H1; cbn [fst snd] in H1;
      apply bind_Ok in H1 as (r & Hr & H1);
      (destruct r as [[best ty]|]; [|injection H1 as <-; assumption]);
      injection H1 as <-; cbn [fst snd].
    + split; [intros _ E | reflexivity]. destruct (fst state); simpl in E.
      * discriminate.
      * destruct p as [k' v']. destruct (String.eqb k' k); discriminate.
    + now apply objSet_NoDup.
    + intros k' a Hin. apply objSet_In in Hin as [[= -> ->]|Hin]; [|auto].
      split; [reflexivity|]. unfold getBestPropertyTypeWith in Hr.
      destruct (includes BLACKLISTED_PROPERTIES k); [discriminate | reflexivity].
Qed.

(** X13. Whatever [makeCompoundType] returns is a compound type named after
    the starting type, with at least one field, no two fields with the same
    name, every field filed under the name of its property, and no field
    for a black-listed property. *)
Theorem makeCompoundType_shape fuel self th start t :
  makeCompoundType posTag clean pluralize fuel self th start = Ok t ->
  exists fields, t = TCompound start fields /\ fields <> [] /\
    List.NoDup (objKeys fields) /\
    forall k a, In (k, a) fields ->
                argName a = k /\ includes BLACKLISTED_PROPERTIES k = false.
Proof.
  unfold makeCompoundType, makeCompoundTypeWith. intros H.
  apply bind_Ok in H as (all & _ & H). apply bind_Ok in H as (state & Hs & H).
  apply addField_invariant in Hs as (I1 & I2 & I3); cbn [fst snd].
  - destruct (snd state) eqn:E; [|discriminate]. injection H as <-.
    exists (fst state). split; [reflexivity|]. split; [now apply I1|]. auto.
  - split; [discriminate | intros E; now contradiction E].
  - constructor.
  - intros k a [].
Qed.

End CompoundShape.

(** ** The canonical phrase synthesizer *)

Lemma grows_refl c : grows c c.
Proof. intros role. split; [exists []; now rewrite app_nil_r | auto]. Qed.

Lemma grows_trans c1 c2 c3 : grows c1 c2 -> grows c2 c3 -> grows c1 c3.
Proof.
  intros G1 G2 role. destruct (G1 role) as ((a1 & E1) & H1 & N1).
  destruct (G2 role) as ((a2 & E2) & H2 & N2). split; [|split].
  - exists (a1 ++ a2). now rewrite E2, E1, app_assoc.
  - auto.
  - intros Hn. now rewrite N2, N1.
Qed.

Section CanonicalGrowth.

Variable posTag : list string -> list string.
Variable clean : string -> string.
Variable pluralize : string -> string.

Lemma addPhrases_grows c r ps : In r SYNTHESIZED_ROLES -> grows c (addPhrases c r ps).
Proof.
  intros Hr role. unfold addPhrases, phrasesOf, objHas. rewrite objGet_objSet.
  destruct (String.eqb_spec r role) as [->|Hne].
  - split; [eauto|]. split; [reflexivity | contradiction].
  - split; [exists []; now rewrite app_nil_r | auto].
Qed.

Lemma addCanonical_grows canonical name ptype :
  grows canonical (addCanonical posTag pluralize canonical name ptype).
Proof.
  assert (Hb : In "base" SYNTHESIZED_ROLES) by (simpl; auto).
  assert (Hv : In "verb" SYNTHESIZED_ROLES) by (simpl; auto).
  assert (Hp : In "passive_verb" SYNTHESIZED_ROLES) by (simpl; auto).
  assert (Hr : In "reverse_property" SYNTHESIZED_ROLES) by (simpl; auto).
  unfold addCanonical.
  repeat match goal with
         | |- grows ?c ?c => apply grows_refl
         | |- grows ?c (addPhrases (addPhrases ?c ?r1 ?p1) _ _) =>
             apply (grows_trans c (addPhrases c r1 p1)); apply addPhrases_grows;
             assumption
         | |- grows _ (addPhrases _ _ _) => apply addPhrases_grows; assumption
         | |- grows _ (if ?b then _ else _) => destruct b
         | |- grows _ (let x := _ in _) => cbv zeta
         end.
Qed.

(** X14. [addCanonical] only ever adds: every role keeps the phrases it has,
    in their order, the new ones coming after them; no role is removed, and
    no role but [base], [verb], [passive_verb] and [reverse_property] is
    touched. *)
Theorem addCanonical_appends canonical name ptype role :
  (exists added,
     phrasesOf (addCanonical posTag pluralize canonical name ptype) role
     = phrasesOf canonical role ++ added) /\
  (objHas canonical role = true ->
   objHas (addCanonical posTag pluralize canonical name ptype) role = true) /\
  (~ In role SYNTHESIZED_ROLES ->
   objGet (addCanonical posTag pluralize canonical name ptype) role
   = objGet canonical role).
Proof. exact (addCanonical_grows canonical name ptype role). Qed.

Lemma synthesized_grows self name ptype :
  grows [] (synthesized posTag clean pluralize self name ptype).
Proof.
  unfold synthesized. generalize (dedupe [] (canonicalCandidates clean self name)).
  intros cs.
  assert (G : forall cs acc, grows [] acc ->
    grows [] (fold_left (fun canonical candidate =>
                           addCanonical posTag pluralize canonical candidate ptype)
                        cs acc)).
  { clear cs. induction cs as [|c cs IH]; intros acc Hacc; simpl; [assumption|].
    apply IH. eapply grows_trans; [exact Hacc | apply addCanonical_grows]. }
  apply G, grows_refl.
Qed.

Lemma table_entries (P : JsObj (list string) -> bool) (table : JsObj (JsObj (list string)))
  name c :
  forallb (fun e => P (snd e)) table = true -> objGet table name = Some c -> P c = true.
Proof.
  intros H Hg. apply objGet_In in Hg. rewrite forallb_forall in H. exact (H _ Hg).
Qed.

(** X15. With the flag for a base form set, the record [makeArgCanonical]
    returns has the role [base], for every property name, the manual tables
    included; the record of a property without a manual override has no
    role but [base], [verb], [passive_verb] and [reverse_property]. *)
Theorem makeArgCanonical_roles self name ptype :
  (_always_base_canonical self = true ->
   objHas (makeArgCanonical posTag clean pluralize self name ptype) "base" = true) /\
  (objGet PROPERTY_CANONICAL_OVERRIDE name = None ->
   (if _manual self then objGet MANUAL_PROPERTY_CANONICAL_OVERRIDE name else None)
   = None ->
   forall role,
     objHas (makeArgCanonical posTag clean pluralize self name ptype) role = true ->
     In role SYNTHESIZED_ROLES).
Proof.
  unfold makeArgCanonical. split.
  - intros Hflag. destruct (objGet PROPERTY_CANONICAL_OVERRIDE name) as [c|] eqn:H1.
    { apply (table_entries (fun c => objHas c "base") PROPERTY_CANONICAL_OVERRIDE name c);
        [vm_compute; reflexivity | assumption]. }
    destruct (if _manual self then objGet MANUAL_PROPERTY_CANONICAL_OVERRIDE name
              else None) as [c|] eqn:H2.
    { destruct (_manual self); [|discriminate].
      apply (table_entries (fun c => objHas c "base")
                           MANUAL_PROPERTY_CANONICAL_OVERRIDE name c);
        [vm_compute; reflexivity | assumption]. }
    rewrite Hflag, andb_true_r.
    destruct (objHas (synthesized posTag clean pluralize self name ptype) "base") eqn:Hb;
      cbn [negb]; [assumption|].
    unfold objHas. rewrite objGet_objSet. now rewrite String.eqb_refl.
  - intros -> -> role.
    pose proof (synthesized_grows self name ptype) as G.
    assert (Hsyn : objHas (synthesized posTag clean pluralize self name ptype) role = true ->
                   In role SYNTHESIZED_ROLES).
    { intros Hr. destruct (in_dec string_dec role SYNTHESIZED_ROLES) as [Hin|Hn];
        [assumption|]. destruct (G role) as (_ & _ & N). unfold objHas in Hr.
      rewrite (N Hn) in Hr. discriminate. }
    destruct (negb _ && _); [|exact Hsyn].
    unfold objHas at 1. rewrite objGet_objSet.
    destruct (String.eqb_spec "base" role) as [<-|_]; [intros _; simpl; auto|exact Hsyn].
Qed.

End CanonicalGrowth.

(** ** The emitter *)

Lemma emittedName_not_keyword name : ~ In (emittedName name) KEYWORDS.
Proof.
  unfold emittedName. destruct (includes KEYWORDS name) eqn:E.
  - unfold KEYWORDS. simpl. intros H.
    repeat (destruct H as [H|H]; [discriminate H|]). exact H.
  - intros H. apply includes_true in H. congruence.
Qed.

Section EmittedShape.

Variable posTag : list string -> list string.
Variable clean : string -> string.
Variable pluralize : string -> string.

Lemma addArgument_loop fuel self th ps :
  forall args args',
    foldM (addArgument posTag clean pluralize fuel self th) ps args = Ok args' ->
    exists rest, args' = args ++ rest /\
      forall a, In a rest -> exists p, In p ps /\ argName a = emittedName (fst p).
Proof.
  induction ps as [|p ps IH]; intros args args'; cbn [foldM].
  - intros [= <-]. exists []. split; [now rewrite app_nil_r | intros a []].
  - intros H. apply bind_Ok in H as (a1 & H1 & H).
    destruct (IH _ _ H) as (rest & -> & Hrest).
    apply addArgument_name in H1 as [-> | (a & -> & Ha)].
    + exists rest. split; [reflexivity|]. intros a Hin.
      destruct (Hrest a Hin) as (p' & Hp' & E). exists p'. split; [now right | assumption].
    + exists (a :: rest). split; [now rewrite <- app_assoc|].
      intros a' [<-|Hin]; [exists p; split; [now left | assumption]|].
      destruct (Hrest a' Hin) as (p' & Hp' & E). exists p'. split; [now right | assumption].
Qed.

Lemma emitType_query fuel self th queries t queries' :
  emitType posTag clean pluralize fuel self th queries t = Ok queries' ->
  (forall d, objGet th t = Some d -> emittable d = true) ->
  queries' = queries \/
  exists f, queries' = objSet queries (emittedName t) f /\
            queryOf self th (emittedName t) f.
Proof.
  unfold emitType. destruct (objGet th t) as [d|] eqn:Hd; [|discriminate].
  destruct (String.eqb_spec t "ItemList") as [->|Hne]; cbn [orb];
    [intros [= <-]; now left|].
  destruct (isItemList d) eqn:Hil; [intros [= <-]; now left|].
  intros H Hem. apply bind_Ok in H as (args & Ha & H). injection H as <-. right.
  eexists. split; [reflexivity|]. split; [reflexivity|]. exists t, d.
  apply addArgument_loop in Ha as (rest & -> & Hrest). cbn [fextends fargs].
  repeat (split; [auto; fail|]). exists rest. split; [|assumption].
  now destruct (String.eqb t "Thing").
Qed.

Lemma emitType_queries fuel self th order :
  forall queries queries',
    foldM (emitType posTag clean pluralize fuel self th) order queries = Ok queries' ->
    (forall t d, In t order -> objGet th t = Some d -> emittable d = true) ->
    (forall name f, objGet queries name = Some f -> queryOf self th name f) ->
    forall name f, objGet queries' name = Some f -> queryOf self th name f.
Proof.
  induction order as [|t order IH]; intros queries queries'; cbn [foldM].
  - now intros [= <-].
  - intros H Hem Inv. apply bind_Ok in H as (q1 & H1 & H).
    apply (IH _ _ H); [intros t' d' Hin; apply Hem; now right|].
    apply emitType_query in H1 as [-> | (f & -> & Hq)];
      [assumption | | intros d; apply Hem; now left].
    intros name f'. rewrite objGet_objSet.
    destruct (String.eqb_spec (emittedName t) name) as [<-|_]; [|apply Inv].
    now intros [= <-].
Qed.

(** X16. Every query [run] writes is the query of a type that is not an
    action, an enumeration, a struct or a list wrapper; it is filed under
    its own name, starts with the argument [id] (and [name], unless the
    type is [Thing]) and goes on with arguments named after properties of
    the type; neither its name nor the name of any of its arguments is a
    keyword. *)
Theorem emitQueries_shape fuel self th queries name f :
  emitQueries posTag clean pluralize fuel self th = Ok queries ->
  objGet queries name = Some f ->
  queryOf self th name f /\ ~ In name KEYWORDS /\
  forall a, In a (fargs f) -> ~ In (argName a) KEYWORDS.
Proof.
  unfold emitQueries. intros H Hf. apply bind_Ok in H as (order & Ho & H).
  unfold toposortAll in Ho.
  apply toposortAll_loop in Ho as ([I1 _] & _ & _);
    [| intros k Hk; apply objHas_true; now apply objGet_keys | apply parentsFirst_nil].
  assert (Hq : queryOf self th name f).
  { apply (emitType_queries _ _ _ _ _ _ H); [| discriminate | assumption].
    intros t d Hin Hd. destruct (I1 t Hin) as (d' & Hd' & Hem). congruence. }
  split; [assumption|].
  destruct Hq as (_ & t & d & -> & _ & _ & _ & _ & _ & rest & -> & Hrest).
  split; [apply emittedName_not_keyword|].
  intros a [<-|Hin]; [vm_compute; intuition discriminate|].
  apply in_app_or in Hin as [Hin|Hin].
  - destruct (String.eqb t "Thing"); [destruct Hin|].
    destruct Hin as [<-|[]]. vm_compute. intuition discriminate.
  - destruct (Hrest a Hin) as (p & _ & ->). apply emittedName_not_keyword.
Qed.

End EmittedShape.

(** ** The sequence of the queries written *)

Lemma toposortAll_NoDup fuel th order :
  toposortAll fuel th = Ok order -> List.NoDup order.
Proof.
  unfold toposortAll.
  assert (G : forall ks o o',
             foldM (fun order type => if includes order type then Ok order
                                      else toposort fuel th type order) ks o = Ok o' ->
             List.NoDup o -> List.NoDup o').
  { induction ks as [|k ks IH]; intros o o'; cbn [foldM].
    - now intros [= <-].
    - intros H Hnd. apply bind_Ok in H as (o1 & H1 & H). apply (IH _ _ H).
      destruct (includes o k); [now injection H1 as <-|].
      eapply toposort_NoDup; eassumption. }
  intros H. apply (G _ _ _ H). constructor.
Qed.

Lemma map_inj_NoDup (f : string -> string) l x y :
  List.NoDup (map f l) -> In x l -> In y l -> f x = f y -> x = y.
Proof.
  induction l as [|a l IH]; intros Hnd Hx Hy E; [destruct Hx|].
  cbn [map] in Hnd. apply NoDup_cons_iff in Hnd as [Ha Hnd].
  destruct Hx as [->|Hx], Hy as [->|Hy]; auto.
  - exfalso. apply Ha. rewrite E. now apply in_map.
  - exfalso. apply Ha. rewrite <- E. now apply in_map.
Qed.

Lemma map_NoDup_sub (f : string -> string) l big :
  List.NoDup l -> (forall x, In x l -> In x big) -> List.NoDup (map f big) ->
  List.NoDup (map f l).
Proof.
  intros Hl Hsub Hbig. induction Hl as [|a l Ha Hl IH]; cbn [map]; constructor.
  - intros Hin. apply in_map_iff in Hin as (y & E & Hy). apply Ha.
    assert (y = a); [|now subst].
    apply (map_inj_NoDup f big); [assumption | apply Hsub; now right
                                  | apply Hsub; now left | assumption].
  - apply IH. intros x Hx. apply Hsub. now right.
Qed.

Lemma fold_setAdd_fresh l : forall acc,
  List.NoDup (acc ++ l) -> fold_left setAdd l acc = acc ++ l.
Proof.
  induction l as [|x l IH]; intros acc Hnd; cbn [fold_left].
  - now rewrite app_nil_r.
  - unfold setAdd at 2. destruct (includes acc x) eqn:E.
    + apply includes_true in E. apply NoDup_remove_2 in Hnd.
      exfalso. apply Hnd. apply in_or_app. now left.
    + change (x :: l) with ([x] ++ l) in *. rewrite app_assoc in *. now apply IH.
Qed.

Lemma before_map (f : string -> string) l a b :
  before l a b -> before (map f l) (f a) (f b).
Proof.
  intros (l1 & l2 & l3 & ->). exists (map f l1), (map f l2), (map f l3).
  now rewrite map_app, (map_cons f a), map_app.
Qed.

Lemma emittableTypes_In th t d :
  objGet th t = Some d -> emittable d = true -> In t (emittableTypes th).
Proof.
  intros Hd He. unfold emittableTypes. apply in_map_iff. exists (t, d).
  split; [reflexivity|]. apply filter_In. split; [now apply objGet_In | exact He].
Qed.

Section EmittedSequence.

Variable posTag : list string -> list string.
Variable clean : string -> string.
Variable pluralize : string -> string.

(** X26. Where no two of the types that are not actions, enumerations or
    structs are written under the same name (a keyword [k] is written
    [_k]), the queries [run] writes are, in order and one for one, those of
    the types of [order] that are not list wrappers, and the query of a
    type comes after the queries of its parents. *)
Theorem emitted_sequence_parents_first fuel self th queries :
  emitQueries posTag clean pluralize fuel self th = Ok queries ->
  List.NoDup (map emittedName (emittableTypes th)) ->
  (exists order, toposortAll fuel th = Ok order /\
                 objKeys queries = map emittedName (emittedTypes th order)) /\
  forall t d p dp,
    objGet th t = Some d -> emittable d = true ->
    t <> "ItemList" -> isItemList d = false ->
    In p (extends d) ->
    objGet th p = Some dp -> emittable dp = true ->
    p <> "ItemList" -> isItemList dp = false ->
    before (objKeys queries) (emittedName p) (emittedName t).
Proof.
  intros H Hnames.
  destruct (emitQueries_keys posTag clean pluralize fuel self th queries H)
    as (order & Ho & Hk).
  pose proof (emitted_parents_first fuel th order Ho) as (M & _ & B).
  pose proof (toposortAll_NoDup fuel th order Ho) as Hnd.
  assert (Hsub : forall x, In x (emittedTypes th order) -> In x (emittableTypes th)).
  { intros x Hx. apply filter_In in Hx as [Hx _]. apply M in Hx as (dx & Hdx & Hem).
    eapply emittableTypes_In; eassumption. }
  assert (Hkeys : objKeys queries = map emittedName (emittedTypes th order)).
  { rewrite Hk. apply (fold_setAdd_fresh _ []). cbn [app].
    apply map_NoDup_sub with (big := emittableTypes th); [|assumption..].
    unfold emittedTypes. now apply List.NoDup_filter. }
  split; [exists order; now split|].
  assert (Hin : forall x dx, objGet th x = Some dx -> emittable dx = true ->
                             x <> "ItemList" -> isItemList dx = false ->
                             In x (emittedTypes th order)).
  { intros x dx Hdx Hem Hx Hil. apply filter_In. split; [apply M; eauto|].
    rewrite Hdx, Hil. apply String.eqb_neq in Hx. now rewrite Hx. }
  intros t d p dp Hd Hem Ht Hil Hp Hdp Hemp Hpn Hpil. rewrite Hkeys.
  apply before_map. eapply B; eauto.
Qed.

End EmittedSequence.

(** ** The graph builder *)

Lemma substring_all s : substring 0 (String.length s) s = s.
Proof. induction s as [|c s IH]; simpl; [reflexivity | now rewrite IH]. Qed.

Lemma prefix_split p : forall s,
  String.prefix p s = true ->
  s = p +:+ substring (String.length p) (String.length s - String.length p) s.
Proof.
  induction p as [|c p IH]; intros s H.
  - simpl. rewrite Nat.sub_0_r, substring_all. reflexivity.
  - destruct s as [|c' s]; simpl in H; [discriminate|].
    destruct (ascii_dec c c') as [->|]; [|discriminate].
    apply IH in H. unfold String.append; fold String.append. simpl.
    f_equal. exact H.
Qed.

Lemma prefix_append p s : String.prefix p (p +:+ s) = true.
Proof.
  induction p as [|c p IH]; [now destruct s|].
  unfold String.append; fold String.append. simpl.
  destruct (ascii_dec c c); [assumption | congruence].
Qed.

Lemma substring_append p s :
  substring (String.length p) (String.length (p +:+ s) - String.length p) (p +:+ s) = s.
Proof.
  induction p as [|c p IH].
  - simpl. rewrite Nat.sub_0_r. apply substring_all.
  - unfold String.append; fold String.append. simpl. assumption.
Qed.

Lemma getId_Built id name : getId id = Built name <-> id = SCHEMA_ORG +:+ name.
Proof.
  unfold getId, startsWith, dropStart. split.
  - destruct (String.prefix SCHEMA_ORG id) eqn:E; [|discriminate].
    intros [= <-]. now apply prefix_split.
  - intros ->. rewrite prefix_append. f_equal. apply substring_append.
Qed.

Lemma objKeys_updateNode th k f : objKeys (updateNode th k f) = objKeys th.
Proof.
  unfold objKeys, updateNode. rewrite map_map. apply map_ext.
  intros [k' v]. simpl. now destruct (String.eqb k' k).
Qed.

Lemma objGet_updateNode th k f x :
  objGet (updateNode th k f) x =
  if String.eqb k x then option_map f (objGet th x) else objGet th x.
Proof.
  induction th as [|[k' v] th IH]; simpl.
  - now destruct (String.eqb k x).
  - destruct (String.eqb_spec k' k) as [->|Hk]; simpl.
    + destruct (String.eqb k x); [reflexivity|]. rewrite IH.
      destruct (String.eqb_spec k x); [|reflexivity]. reflexivity.
    + destruct (String.eqb_spec k' x) as [->|Hx].
      * destruct (String.eqb_spec k x); [congruence | reflexivity].
      * assumption.
Qed.

Lemma objGet_ensureType th k x :
  objGet (ensureType th k) x =
  match objGet th x with
  | Some d => Some d
  | None => if String.eqb k x
            then Some {| rextends := []; rproperties := []; rcomment := "" |}
            else None
  end.
Proof.
  unfold ensureType, objHas. destruct (objGet th k) eqn:E.
  - destruct (objGet th x) eqn:Ex; [reflexivity|].
    destruct (String.eqb_spec k x); [congruence | reflexivity].
  - rewrite objGet_objSet. destruct (String.eqb_spec k x) as [->|].
    + now rewrite E.
    + now destruct (objGet th x).
Qed.

Lemma ensureType_NoDup th k : List.NoDup (objKeys th) -> List.NoDup (objKeys (ensureType th k)).
Proof.
  unfold ensureType. destruct (objHas th k); [auto | apply objSet_NoDup].
Qed.

Lemma kept_true id :
  kept id = true <-> objHas BUILTIN_TYPEMAP id = false /\ ~ In id BLACKLISTED_TYPES.
Proof.
  unfold kept. rewrite andb_true_iff, !negb_true_iff.
  rewrite <- (includes_true BLACKLISTED_TYPES id).
  destruct (includes BLACKLISTED_TYPES id); intuition congruence.
Qed.

(** What one turn of the loop does to [typeHierarchy]. *)
Inductive tripleEffect (th : JsObj RawDef) (triple : Triple) : JsObj RawDef -> Prop :=
| effectSkip : tripleEffect th triple th
| effectProperty p domains ranges :
    t_id triple = SCHEMA_ORG +:+ p ->
    t_type triple = "rdf:Property" ->
    supersededBy triple = false ->
    includesOf (domainIncludes triple) = Built domains ->
    includesOf (rangeIncludes triple) = Built ranges ->
    ~ In p BLACKLISTED_PROPERTIES ->
    tripleEffect th triple
      (addToDomains p (mkProperty ranges (rdfs_comment triple)) domains th)
| effectClass name _extends :
    t_id triple = SCHEMA_ORG +:+ name ->
    kept name = true ->
    t_type triple = "rdfs:Class" ->
    tripleEffect th triple
      (updateNode (ensureType th name) name
                  (declareClass name (rdfs_comment triple) _extends)).

Lemma processTriple_effect th enums triple th' enums' :
  processTriple (th, enums) triple = Built (th', enums') ->
  tripleEffect th triple th'.
Proof.
  unfold processTriple.
  destruct (getId (t_id triple)) as [id|] eqn:Hid; [|discriminate].
  apply getId_Built in Hid. cbn [buildBind].
  destruct (objHas BUILTIN_TYPEMAP id) eqn:Hb; [intros [= <- <-]; constructor|].
  destruct (includes BLACKLISTED_TYPES id) eqn:Hbl; [intros [= <- <-]; constructor|].
  assert (Hk : kept id = true) by (unfold kept; now rewrite Hb, Hbl).
  destruct (startsWith (t_type triple) SCHEMA_ORG).
  { destruct (getId (t_type triple)); [|discriminate]. cbn [buildBind].
    intros [= <- <-]. constructor. }
  destruct (String.eqb_spec (t_type triple) "rdf:Property") as [Ht|_].
  { destruct (supersededBy triple) eqn:Hs; [intros [= <- <-]; constructor|].
    destruct (includesOf (domainIncludes triple)) as [domains|] eqn:Hd; [|discriminate].
    destruct (includesOf (rangeIncludes triple)) as [ranges|] eqn:Hr; [|discriminate].
    cbn [buildBind].
    destruct (includes BLACKLISTED_PROPERTIES id) eqn:Hp; [intros [= <- <-]; constructor|].
    intros [= <- <-]. eapply effectProperty; eauto.
    intros Hin. apply includes_true in Hin. congruence. }
  destruct (String.eqb_spec (t_type triple) "rdfs:Class") as [Ht|_]; [|discriminate].
  destruct (getIncludes _) as [_extends|]; [|discriminate]. cbn [buildBind].
  intros [= <- <-]. now apply effectClass.
Qed.

Lemma addToDomains_ind (P : JsObj RawDef -> Prop) name pd domains :
  (forall th domain, P th -> In domain domains -> kept domain = true ->
     P (updateNode (ensureType th domain) domain (setProperty name pd))) ->
  forall th, P th -> P (addToDomains name pd domains th).
Proof.
  unfold addToDomains. induction domains as [|domain domains IH]; intros Hstep th H.
  - exact H.
  - cbn [fold_left]. apply IH.
    + intros th1 d1 H1 Hin. apply Hstep; [assumption | now right].
    + destruct (objHas BUILTIN_TYPEMAP domain) eqn:Hb; [assumption|].
      destruct (includes BLACKLISTED_TYPES domain) eqn:Hbl; [assumption|].
      apply Hstep; [assumption | now left |]. unfold kept. now rewrite Hb, Hbl.
Qed.

Lemma buildGraph_ind (P : JsObj RawDef -> Prop) triples :
  (forall th triple th', In triple triples -> P th -> tripleEffect th triple th' -> P th') ->
  forall th enums th' enums',
  buildGraph triples (th, enums) = Built (th', enums') -> P th -> P th'.
Proof.
  induction triples as [|triple triples IH]; intros Hstep th enums th' enums';
    cbn [buildGraph].
  - intros [= <- <-]. auto.
  - destruct (processTriple (th, enums) triple) as [[th1 enums1]|] eqn:E;
      cbn [buildBind]; [|discriminate].
    intros H HP. eapply IH; [| exact H |].
    + intros t0 tr t1 Hin. apply Hstep. now right.
    + eapply Hstep; [now left | exact HP |]. eapply processTriple_effect; eassumption.
Qed.

(** X17. [getId] undoes the prefixing with [http://schema.org/]: it returns
    [name] exactly on the identifier [http://schema.org/name], and its
    assertion fails on every identifier that is not of this form. *)
Theorem getId_strips_prefix id :
  match getId id with
  | Built name => id = SCHEMA_ORG +:+ name
  | Failed e => e = AssertionError /\ forall name, id <> SCHEMA_ORG +:+ name
  end.
Proof.
  destruct (getId id) as [name|e] eqn:E.
  - now apply getId_Built.
  - split.
    + unfold getId in E. destruct (startsWith id SCHEMA_ORG); congruence.
    + intros name Hid. apply getId_Built in Hid. congruence.
Qed.

Lemma cleanNode_setProperty name p pd d :
  cleanNode name d -> ~ In p BLACKLISTED_PROPERTIES -> cleanNode name (setProperty p pd d).
Proof.
  intros (Hk & He & Hp & Hn) Hnot. repeat split; cbn [setProperty rextends rproperties].
  - assumption.
  - assumption.
  - intros q Hq. rewrite objKeys_objSet in Hq.
    destruct (objHas (rproperties d) p); [now apply Hp|].
    apply in_app_or in Hq as [Hq|[<-|[]]]; [now apply Hp | assumption].
  - now apply objSet_NoDup.
Qed.

Lemma cleanNode_declareClass name comment _extends d :
  cleanNode name d -> cleanNode name (declareClass name comment _extends d).
Proof.
  intros (Hk & He & Hp & Hn). repeat split; cbn [declareClass rextends rproperties];
    try assumption.
  intros ex Hex.
  destruct ((length (List.filter (fun ex => negb (includes BLACKLISTED_TYPES ex)) _extends)
             =? 0)%nat && negb (String.eqb name "Thing")).
  - destruct Hex as [<-|[]]. intros Hin. apply includes_true in Hin.
    vm_compute in Hin. discriminate.
  - apply filter_In in Hex as [_ Hex]. apply negb_true_iff in Hex.
    intros Hin. apply includes_true in Hin. congruence.
Qed.

Lemma cleanNode_fresh name :
  kept name = true ->
  cleanNode name {| rextends := []; rproperties := []; rcomment := "" |}.
Proof.
  intros Hk. repeat split; simpl; try tauto. constructor.
Qed.

Lemma wellBuilt_update th name f :
  wellBuilt th -> kept name = true ->
  (forall d, cleanNode name d -> cleanNode name (f d)) ->
  wellBuilt (updateNode (ensureType th name) name f).
Proof.
  intros [Hnd Hclean] Hk Hf. split.
  - rewrite objKeys_updateNode. now apply ensureType_NoDup.
  - intros x d. rewrite objGet_updateNode, objGet_ensureType.
    destruct (String.eqb_spec name x) as [<-|Hx].
    + destruct (objGet th name) as [d0|] eqn:E; cbn [option_map]; intros [= <-];
        apply Hf; [now apply Hclean | now apply cleanNode_fresh].
    + destruct (objGet th x) as [d0|] eqn:E; [|discriminate].
      intros [= <-]. now apply Hclean.
Qed.

Lemma tripleEffect_wellBuilt th triple th' :
  tripleEffect th triple th' -> wellBuilt th -> wellBuilt th'.
Proof.
  intros [|p domains ranges _ _ _ _ _ Hp|name _extends _ Hk _] H.
  - assumption.
  - apply addToDomains_ind; [|assumption].
    intros th1 domain H1 _ Hk. apply wellBuilt_update; [assumption..|].
    intros d Hd. now apply cleanNode_setProperty.
  - apply wellBuilt_update; [assumption..|].
    intros d Hd. now apply cleanNode_declareClass.
Qed.

(** X18. The hierarchy the loop over [@graph] builds holds every class
    once, no class under a builtin or black-listed name, no black-listed
    parent in an [extends] list and no black-listed property; each class
    holds each of its properties once. *)
Theorem buildGraph_wellBuilt triples th enums :
  buildGraph triples ([], []) = Built (th, enums) -> wellBuilt th.
Proof.
  intros H. eapply (buildGraph_ind wellBuilt); [| exact H |].
  - intros th0 triple th1 _ H0 He. eapply tripleEffect_wellBuilt; eassumption.
  - split; [constructor | intros name d [=]].
Qed.

Lemma hasParent_update th name x f :
  (forall d, rextends d <> [] -> rextends (f d) <> []) ->
  x <> name ->
  hasParent th name -> hasParent (updateNode (ensureType th x) x f) name.
Proof.
  intros Hf Hx (d & Hd & He). exists d. split; [|assumption].
  rewrite objGet_updateNode, objGet_ensureType, Hd.
  destruct (String.eqb_spec x name); [congruence | reflexivity].
Qed.

Lemma declareClass_parent name comment _extends d :
  name <> "Thing" -> rextends (declareClass name comment _extends d) <> [].
Proof.
  intros Hn. cbn [declareClass rextends].
  destruct (String.eqb_spec name "Thing") as [|_]; [contradiction|].
  destruct (List.filter _ _extends) as [|e l]; simpl; discriminate.
Qed.

Lemma tripleEffect_hasParent th triple th' name :
  tripleEffect th triple th' -> hasParent th name -> hasParent th' name.
Proof.
  intros [|p domains ranges _ _ _ _ _ Hp|x _extends _ Hk _] H.
  - assumption.
  - apply addToDomains_ind; [|assumption].
    intros th1 domain (d & Hd & He) _ Hk.
    destruct (String.eqb_spec domain name) as [->|Hx].
    + exists (setProperty p (mkProperty ranges (rdfs_comment triple)) d). split.
      * rewrite objGet_updateNode, objGet_ensureType, Hd, String.eqb_refl.
        reflexivity.
      * exact He.
    + exists d. split; [|assumption].
      rewrite objGet_updateNode, objGet_ensureType, Hd.
      destruct (String.eqb_spec domain name); [congruence | reflexivity].
  - destruct H as (d & Hd & He).
    destruct (String.eqb_spec x name) as [->|Hx].
    + exists (declareClass name (rdfs_comment triple) _extends d). split.
      * rewrite objGet_updateNode, objGet_ensureType, Hd, String.eqb_refl.
        reflexivity.
      * intros Hn. now apply declareClass_parent.
    + exists d. split; [|assumption].
      rewrite objGet_updateNode, objGet_ensureType, Hd.
      destruct (String.eqb_spec x name); [congruence | reflexivity].
Qed.

Lemma processTriple_declares th enums triple th' enums' name :
  declares triple name ->
  processTriple (th, enums) triple = Built (th', enums') ->
  hasParent th' name.
Proof.
  intros (Hid & Hk & Ht). apply getId_Built in Hid. apply kept_true in Hk as Hk'.
  destruct Hk' as [Hb Hbl].
  assert (Hbl' : includes BLACKLISTED_TYPES name = false).
  { destruct (includes BLACKLISTED_TYPES name) eqn:E; [|reflexivity].
    apply includes_true in E. contradiction. }
  unfold processTriple. rewrite Hid. cbn [buildBind]. rewrite Hb, Hbl', Ht.
  change (startsWith "rdfs:Class" SCHEMA_ORG) with false.
  change (String.eqb "rdfs:Class" "rdf:Property") with false.
  change (String.eqb "rdfs:Class" "rdfs:Class") with true.
  cbv iota.
  destruct (getIncludes _) as [_extends|]; cbn [buildBind]; [|discriminate].
  intros [= <- <-].
  destruct (objGet (ensureType th name) name) as [d|] eqn:E.
  - exists (declareClass name (rdfs_comment triple) _extends d). split.
    + rewrite objGet_updateNode, String.eqb_refl, E. reflexivity.
    + intros Hn. now apply declareClass_parent.
  - rewrite objGet_ensureType, String.eqb_refl in E.
    destruct (objGet th name); discriminate.
Qed.

(** X19. Every class the graph declares (an [rdfs:Class] triple whose name
    is neither a builtin nor black-listed) is in the hierarchy built, and
    unless it is [Thing] its [extends] list is not empty there, whatever
    triples come after its declaration. *)
Theorem declared_class_has_parent triples th enums triple name :
  buildGraph triples ([], []) = Built (th, enums) ->
  In triple triples -> declares triple name ->
  hasParent th name.
Proof.
  generalize (@nil (string * RawDef)) (@nil (string * list string)).
  induction triples as [|t triples IH]; intros th0 enums0 H Hin Hd; [destruct Hin|].
  cbn [buildGraph] in H.
  destruct (processTriple (th0, enums0) t) as [[th1 enums1]|] eqn:E;
    cbn [buildBind] in H; [|discriminate].
  destruct Hin as [->|Hin].
  - eapply (buildGraph_ind (fun th => hasParent th name)); [| exact H |].
    + intros tha tr thb _ Ha He. eapply tripleEffect_hasParent; eassumption.
    + eapply processTriple_declares; eassumption.
  - eapply IH; eassumption.
Qed.

(** X20. Every property of a class of the hierarchy built was put there by
    a triple of the graph: an [rdf:Property] triple of that name that is
    not superseded, lists the class among its domains, and whose ranges and
    comment are the candidate types and the comment recorded. *)
Theorem property_from_triple triples th enums domain d p pd :
  buildGraph triples ([], []) = Built (th, enums) ->
  objGet th domain = Some d -> objGet (rproperties d) p = Some pd ->
  exists triple, In triple triples /\ definesProperty triple domain p pd.
Proof.
  intros H. revert domain d p pd.
  eapply (buildGraph_ind
            (fun th => forall domain d p pd,
                 objGet th domain = Some d -> objGet (rproperties d) p = Some pd ->
                 exists triple, In triple triples /\ definesProperty triple domain p pd));
    [| exact H |].
  - intros th0 triple th1 Hin H0 He. destruct He as [|q domains ranges Hid Ht Hs Hd Hr Hq|x _extends _ Hk _].
    + assumption.
    + apply (addToDomains_ind
               (fun th => forall domain d p pd,
                    objGet th domain = Some d -> objGet (rproperties d) p = Some pd ->
                    exists triple, In triple triples /\
                                   definesProperty triple domain p pd)); [|assumption].
      intros th2 dom H2 Hdom Hk domain d p pd.
      rewrite objGet_updateNode, objGet_ensureType.
      destruct (String.eqb_spec dom domain) as [->|Hx].
      * destruct (objGet th2 domain) as [d0|] eqn:E0; cbn [option_map];
          intros [= <-]; cbn [setProperty rproperties]; rewrite objGet_objSet;
          destruct (String.eqb_spec q p) as [->|Hqp].
        -- intros [= <-]. exists triple. split; [assumption|].
           repeat split; eauto.
        -- intros Hp. eapply H2; eassumption.
        -- intros [= <-]. exists triple. split; [assumption|].
           repeat split; eauto.
        -- discriminate.
      * destruct (objGet th2 domain) as [d0|] eqn:E0; [|discriminate].
        intros [= <-] Hp. eapply H2; eassumption.
    + intros domain d p pd. rewrite objGet_updateNode, objGet_ensureType.
      destruct (String.eqb_spec x domain) as [->|Hx].
      * destruct (objGet th0 domain) as [d0|] eqn:E0; cbn [option_map];
          intros [= <-]; cbn [declareClass rproperties]; [|discriminate].
        intros Hp. eapply H0; eassumption.
      * destruct (objGet th0 domain) as [d0|] eqn:E0; [|discriminate].
        intros [= <-] Hp. eapply H0; eassumption.
  - intros domain d p pd [=].
Qed.

Lemma append_inj p a b : p +:+ a = p +:+ b -> a = b.
Proof.
  induction p as [|c p IH]; [auto|].
  unfold String.append; fold String.append. intros [= H]. auto.
Qed.

Lemma objGet_ensureEnum enums k x :
  objGet (ensureEnum enums k) x =
  match objGet enums x with
  | Some l => Some l
  | None => if String.eqb k x then Some [] else None
  end.
Proof.
  unfold ensureEnum, objHas. destruct (objGet enums k) eqn:E.
  - destruct (objGet enums x) eqn:Ex; [reflexivity|].
    destruct (String.eqb_spec k x); [congruence | reflexivity].
  - rewrite objGet_objSet. destruct (String.eqb_spec k x) as [->|].
    + now rewrite E.
    + now destruct (objGet enums x).
Qed.

Lemma enumValueOf_other triple id enumtype :
  t_id triple = SCHEMA_ORG +:+ id ->
  kept id = false \/ startsWith (t_type triple) SCHEMA_ORG = false ->
  enumValueOf enumtype triple = [].
Proof.
  intros Hid H. apply getId_Built in Hid. unfold enumValueOf. rewrite Hid.
  destruct H as [->|H]; [reflexivity|].
  destruct (String.eqb_spec (t_type triple) (SCHEMA_ORG +:+ enumtype)) as [E|_];
    [|now rewrite andb_false_r].
  rewrite E in H. unfold startsWith in H. rewrite prefix_append in H. discriminate.
Qed.

Lemma processTriple_enums th enums triple th' enums' :
  processTriple (th, enums) triple = Built (th', enums') ->
  (forall e l, objGet enums e = Some l -> l <> []) ->
  (forall e, phrasesOf enums' e = phrasesOf enums e ++ enumValueOf e triple) /\
  (forall e l, objGet enums' e = Some l -> l <> []).
Proof.
  unfold processTriple.
  destruct (getId (t_id triple)) as [id|] eqn:Hid; [|discriminate].
  apply getId_Built in Hid. cbn [buildBind]. intros H Hne.
  assert (Hsame : kept id = false \/ startsWith (t_type triple) SCHEMA_ORG = false ->
                  enums' = enums ->
                  (forall e, phrasesOf enums' e = phrasesOf enums e ++ enumValueOf e triple) /\
                  (forall e l, objGet enums' e = Some l -> l <> [])).
  { intros Hc ->. split; [|assumption]. intros e.
    rewrite (enumValueOf_other triple id e Hid Hc). now rewrite app_nil_r. }
  unfold kept in Hsame.
  destruct (objHas BUILTIN_TYPEMAP id) eqn:Hb;
    [injection H as <- <-; apply Hsame; auto|].
  destruct (includes BLACKLISTED_TYPES id) eqn:Hbl;
    [injection H as <- <-; apply Hsame; auto|].
  destruct (startsWith (t_type triple) SCHEMA_ORG) eqn:Hst.
  - destruct (getId (t_type triple)) as [enumtype|] eqn:Ht; [|discriminate].
    apply getId_Built in Ht. cbn [buildBind] in H. injection H as <- <-.
    split.
    + intros e. unfold phrasesOf, enumValueOf.
      rewrite objGet_objSet, !objGet_ensureEnum, String.eqb_refl.
      rewrite (proj2 (getId_Built _ _) Hid). unfold kept. rewrite Hb, Hbl, Ht.
      cbn [negb andb].
      destruct (String.eqb_spec enumtype e) as [->|Hx].
      * rewrite String.eqb_refl. now destruct (objGet enums e).
      * destruct (String.eqb_spec (SCHEMA_ORG +:+ enumtype) (SCHEMA_ORG +:+ e)) as [E|_].
        -- apply append_inj in E. contradiction.
        -- rewrite app_nil_r. now destruct (objGet enums e).
    + intros e l. rewrite objGet_objSet, !objGet_ensureEnum.
      destruct (String.eqb_spec enumtype e) as [->|Hx].
      * intros [= <-]. rewrite String.eqb_refl.
        now destruct (objGet enums e) as [[|]|].
      * destruct (objGet enums e) eqn:E; [|discriminate]. intros [= <-]. eauto.
  - destruct (String.eqb (t_type triple) "rdf:Property").
    { destruct (supersededBy triple); [injection H as <- <-; apply Hsame; auto|].
      destruct (includesOf (domainIncludes triple)); [|discriminate].
      destruct (includesOf (rangeIncludes triple)); [|discriminate].
      cbn [buildBind] in H.
      destruct (includes BLACKLISTED_PROPERTIES id);
        injection H as <- <-; apply Hsame; auto. }
    destruct (String.eqb (t_type triple) "rdfs:Class"); [|discriminate].
    destruct (getIncludes _); [|discriminate]. cbn [buildBind] in H.
    injection H as <- <-. apply Hsame; auto.
Qed.

Lemma buildGraph_enums triples : forall th enums th' enums',
  buildGraph triples (th, enums) = Built (th', enums') ->
  (forall e l, objGet enums e = Some l -> l <> []) ->
  (forall e, phrasesOf enums' e = phrasesOf enums e ++ enumValues triples e) /\
  (forall e l, objGet enums' e = Some l -> l <> []).
Proof.
  induction triples as [|t triples IH]; intros th enums th' enums' H Hne;
    cbn [buildGraph] in H.
  - injection H as <- <-. split; [|assumption]. intros e. simpl. now rewrite app_nil_r.
  - destruct (processTriple (th, enums) t) as [[th1 enums1]|] eqn:E;
      cbn [buildBind] in H; [|discriminate].
    destruct (processTriple_enums _ _ _ _ _ E Hne) as [H1 Hne1].
    destruct (IH _ _ _ _ H Hne1) as [H2 Hne2]. split; [|assumption].
    intros e. rewrite H2, H1. unfold enumValues. simpl. now rewrite app_assoc.
Qed.

(** X21. The table of enumerations the loop builds holds, for every
    enumeration, the names of the triples typed by it, in the order of the
    graph, builtin and black-listed names left out; an enumeration without
    such a triple has no entry. *)
Theorem enum_values_in_order triples th enums enumtype :
  buildGraph triples ([], []) = Built (th, enums) ->
  objGet enums enumtype =
  match enumValues triples enumtype with
  | [] => None
  | values => Some values
  end.
Proof.
  intros H. apply buildGraph_enums in H as [H Hne]; [|intros e l [=]].
  specialize (H enumtype). specialize (Hne enumtype).
  unfold phrasesOf in H. simpl in H.
  destruct (objGet enums enumtype) as [l|].
  - rewrite <- H. destruct l; [now destruct (Hne [])|reflexivity].
  - now rewrite <- H.
Qed.

Lemma processTriple_accepted state triple state' :
  processTriple state triple = Built state' -> accepted triple.
Proof.
  destruct state as [th enums]. unfold processTriple.
  destruct (getId (t_id triple)) as [id|] eqn:Hid; [|discriminate].
  apply getId_Built in Hid. cbn [buildBind]. intros H. exists id. split; [assumption|].
  intros Hk. apply kept_true in Hk as [Hb Hbl]. rewrite Hb in H.
  destruct (includes BLACKLISTED_TYPES id) eqn:E;
    [apply includes_true in E; contradiction|].
  destruct (startsWith (t_type triple) SCHEMA_ORG); [now left|]. right.
  destruct (String.eqb_spec (t_type triple) "rdf:Property"); [now left|]. right.
  destruct (String.eqb_spec (t_type triple) "rdfs:Class"); [assumption | discriminate].
Qed.

(** X22. The loop over [@graph] returns only when every triple is named
    under [http://schema.org/] (also the triples it skips) and every triple
    it does not skip is an enumeration value, an [rdf:Property] or an
    [rdfs:Class]; on any other graph [run] throws. *)
Theorem buildGraph_accepts triples state state' :
  buildGraph triples state = Built state' ->
  forall triple, In triple triples -> accepted triple.
Proof.
  revert state. induction triples as [|t triples IH]; intros state H triple Hin;
    [destruct Hin|].
  cbn [buildGraph] in H.
  destruct (processTriple state t) as [state1|] eqn:E; cbn [buildBind] in H;
    [|discriminate].
  destruct Hin as [<-|Hin].
  - eapply processTriple_accepted; eassumption.
  - eapply IH; eassumption.
Qed.

(** ** The paraphrase HIT creator *)

Lemma decimal_inj a b : decimal a = decimal b -> a = b.
Proof.
  unfold decimal. intros H. apply Unsigned.to_uint_inj.
  apply (f_equal NilEmpty.uint_of_string) in H. rewrite !NilEmpty.usu in H.
  congruence.
Qed.

Ltac key_differs :=
  match goal with
  | |- context [String.eqb ?a ?b] =>
      let E := fresh "E" in
      destruct (String.eqb_spec a b) as [E|_];
      [ exfalso; cbv beta iota delta [String.append] in E;
        first [ discriminate E
              | injection E as E; apply decimal_inj in E; lia ]
      | ]
  end.

Lemma taskFrom_fresh pre n rows : forall a,
  pre = "id" \/ pre = "thingtalk" \/ pre = "sentence" ->
  n < a \/ a + length rows <= n ->
  objGet (taskFrom a rows) (pre +:+ decimal n) = None.
Proof.
  induction rows as [|row rows IH]; intros a Hpre Hn; [reflexivity|].
  cbn [taskFrom objGet length] in *.
  assert (a <> n) by lia.
  destruct Hpre as [->|[->| ->]]; repeat key_differs;
    apply IH; auto; lia.
Qed.

Lemma objGet_app_fresh {V : Type} (o o' : JsObj V) k :
  objGet o k = None -> objGet (o ++ o') k = objGet o' k.
Proof.
  induction o as [|[k' v] o IH]; simpl; [reflexivity|].
  destruct (String.eqb k' k); [discriminate | assumption].
Qed.

Lemma taskFrom_app xs ys : forall a,
  taskFrom a (xs ++ ys) = taskFrom a xs ++ taskFrom (a + length xs) ys.
Proof.
  induction xs as [|x xs IH]; intros a; simpl.
  - now rewrite Nat.add_0_r.
  - rewrite IH. now rewrite Nat.add_succ_r.
Qed.

Lemma buffer_step done row :
  objSet (objSet (objSet (taskFrom 1 done)
                         ("id" +:+ decimal (S (length done))) (row_id row))
                 ("thingtalk" +:+ decimal (S (length done))) (target_code row))
         ("sentence" +:+ decimal (S (length done))) (utterance row)
  = taskFrom 1 (done ++ [row]).
Proof.
  rewrite taskFrom_app. cbn [taskFrom Nat.add].
  rewrite (objSet_fresh (taskFrom 1 done)) by (apply taskFrom_fresh; auto; lia).
  rewrite (objSet_fresh (_ ++ _)).
  2:{ rewrite objGet_app_fresh by (apply taskFrom_fresh; auto; lia).
      cbn [objGet]. now key_differs. }
  rewrite (objSet_fresh (_ ++ _)).
  2:{ rewrite <- app_assoc, objGet_app_fresh by (apply taskFrom_fresh; auto; lia).
      cbn [objGet app]. now repeat key_differs. }
  now rewrite <- !app_assoc.
Qed.

Lemma hits_short k rows : forall i buffer,
  i + length rows < k ->
  hits {| _sentencesPerTask := k; _i := i; _buffer := buffer |} rows = [].
Proof.
  induction rows as [|row rows IH]; intros i buffer H; [reflexivity|].
  cbn [hits length] in *. unfold _transform. cbn [_i _buffer _sentencesPerTask].
  destruct (Nat.eqb_spec (S i) k) as [E|_]; [lia|]. cbn [app].
  apply IH. lia.
Qed.

Lemma hits_fill k more g : forall done,
  length done + length g = k -> g <> [] ->
  hits {| _sentencesPerTask := k; _i := length done; _buffer := taskFrom 1 done |}
       (g ++ more)
  = taskFrom 1 (done ++ g) :: hits (newCreator k) more.
Proof.
  induction g as [|row g IH]; intros done Hlen Hg; [contradiction|].
  cbn [hits length app] in *. unfold _transform. cbn [_i _buffer _sentencesPerTask].
  rewrite buffer_step.
  destruct (Nat.eqb_spec (S (length done)) k) as [E|E].
  - destruct g; [|simpl in Hlen; lia]. reflexivity.
  - replace (S (length done)) with (length (done ++ [row]))
      by (rewrite length_app; simpl; lia).
    rewrite IH.
    + now rewrite <- app_assoc.
    + rewrite length_app. simpl. lia.
    + intros ->. simpl in Hlen. lia.
Qed.

(** X23. With a positive number of sentences per task, the stream passes
    on one object per full group of that many rows, in order: the object of
    a group holds the columns [idN], [thingtalkN] and [sentenceN] of its
    N-th row, N counting from 1 in every group; the rows after the last full
    group are not passed on, [_flush] dropping them. *)
Theorem hits_grouped k groups rest :
  0 < k -> Forall (fun g => length g = k) groups -> length rest < k ->
  hits (newCreator k) (concat groups ++ rest) = map (taskFrom 1) groups.
Proof.
  intros Hk Hg Hrest. induction Hg as [|g groups Hlen _ IH].
  - apply hits_short. simpl. assumption.
  - cbn [concat map]. rewrite <- app_assoc.
    change (newCreator k) with
      {| _sentencesPerTask := k; _i := length (@nil InputRow); _buffer := taskFrom 1 [] |}.
    rewrite hits_fill.
    + now rewrite IH.
    + simpl. assumption.
    + intros ->. simpl in Hlen. lia.
Qed.



(** ** The further properties on the samples *)

Lemma rankedRawb_sound th rank : rankedRawb th rank = true -> rankedRaw th rank.
Proof.
  unfold rankedRawb. rewrite forallb_forall. intros H a b (d & Hd & Hin & Hb).
  apply objGet_In in Hd. specialize (H _ Hd). rewrite forallb_forall in H.
  specialize (H _ Hin). cbn [fst snd] in H. rewrite Hb in H.
  now apply Nat.ltb_lt in H.
Qed.

Lemma rankedb_sound th rank : rankedb th rank = true -> ranked th rank.
Proof.
  unfold rankedb. rewrite forallb_forall. intros H a b (d & Hd & Hin & Hb).
  apply objGet_In in Hd. specialize (H _ Hd). rewrite forallb_forall in H.
  specialize (H _ Hin). cbn [fst snd] in H. rewrite Hb in H.
  now apply Nat.ltb_lt in H.
Qed.

Lemma sampleRank_bound x : sampleRank x < 5.
Proof. unfold sampleRank. repeat destruct (String.eqb _ _); lia. Qed.

Lemma loopRaw_closed x b : subClassOf loopRaw x b -> b = "A" \/ b = "B".
Proof.
  induction 1 as [x d b Hd Hin|x d e b Hd Hin He _ IH]; [|assumption].
  unfold loopRaw in Hd. cbn [objGet] in Hd. destruct (String.eqb "A" x).
  - injection Hd as <-. destruct Hin as [<-|[]]. now right.
  - destruct (String.eqb "B" x); [|discriminate].
    injection Hd as <-. destruct Hin as [<-|[]]. now left.
Qed.

Lemma isSubClass_decides_witness :
  exists r, isSubClass 5 pairRaw "A" "Thing" = Ok r /\
            (r = true <-> subClassOf pairRaw "A" "Thing").
Proof.
  apply (isSubClass_decides pairRaw sampleRank 5 "A" "Thing").
  - apply rankedRawb_sound. vm_compute. reflexivity.
  - reflexivity.
  - vm_compute. lia.
Defined.

Lemma isSubClass_cyclic_diverges_witness :
  isSubClass 1000 loopRaw "A" "Thing" = Err OutOfFuel.
Proof.
  apply (isSubClass_cyclic_diverges loopRaw "A" "Thing").
  - apply tc_l with "B"; [|apply tc_once];
      (eexists; split; [reflexivity|]; split; [now left | reflexivity]).
  - intros H. apply loopRaw_closed in H as [H|H]; discriminate.
Defined.

Lemma classifyFlags_flags_witness : objKeys pairFlagged = objKeys pairRaw.
Proof.
  apply (classifyFlags_flags 5 pairRaw [] pairFlagged). vm_compute. reflexivity.
Defined.

Lemma findCycle_decides_witness :
  exists b visited, findCycle 5 pairFlagged "A" "A" ∅ = Ok (b, visited) /\
                    (b = true <-> tc (structEdge pairFlagged) "A" "A").
Proof.
  apply (findCycle_decides pairFlagged "A" 5); [simpl; lia | reflexivity].
Defined.

Lemma breakCycles_effect_witness :
  exists th', breakCycles 5 pairFlagged = Ok th' /\ demotion pairFlagged th' /\
    forall x, isStruct pairFlagged x = true -> isStruct th' x = false ->
      (exists d, objGet pairFlagged x = Some d /\ isEnum d = false) /\
      tc (structEdge pairFlagged) x x.
Proof.
  apply (breakCycles_effect 5 pairFlagged). simpl. lia.
Defined.

Lemma propagate_effect_witness :
  demotion pairBroken pairClassified /\
  forall y, isStruct pairBroken y = true ->
            (isStruct pairClassified y = false <-> belowNonStruct pairBroken y).
Proof.
  apply (propagate_effect 5 pairBroken pairClassified). vm_compute. reflexivity.
Defined.

Lemma classify_total_witness :
  exists th, classify 5 pairRaw [] = Ok th /\ objKeys th = objKeys pairRaw.
Proof.
  apply (classify_total pairRaw sampleRank [] 5).
  - apply rankedRawb_sound. vm_compute. reflexivity.
  - intros x _. apply sampleRank_bound.
  - simpl. lia.
Defined.

Lemma toposortAll_total_witness :
  exists order, toposortAll 5 keywordClassified = Ok order /\ List.NoDup order.
Proof.
  apply (toposortAll_total keywordClassified sampleRank 5).
  - apply rankedb_sound. vm_compute. reflexivity.
  - intros x _. apply sampleRank_bound.
Defined.

Lemma property_type_override_witness :
  getBestPropertyType nounTagger sameString sameString 0 sampleProcessor
                      keywordClassified "telephone" (mkProperty ["Text"] "")
  = Ok None \/
  exists best,
    getBestPropertyType nounTagger sameString sameString 0 sampleProcessor
                        keywordClassified "telephone" (mkProperty ["Text"] "")
    = Ok (Some (best, TEntity "tt:phone_number")) /\
    In best (types (mkProperty ["Text"] "")).
Proof.
  apply (property_type_override nounTagger sameString sameString 0 sampleProcessor
           keywordClassified "telephone" (mkProperty ["Text"] "")).
  reflexivity.
Defined.

Lemma resolved_type_shape_witness :
  (TString = TAny -> "Text" = "DataType") /\
  (isItemListType keywordClassified "Text" = false ->
   forall elem, TString = TArray elem ->
                isBoolean elem = false /\ isEnumType elem = false).
Proof.
  apply (resolved_type_shape nounTagger sameString sameString 5 sampleProcessor
           keywordClassified "class" (mkProperty ["Text"] "The class.")).
  vm_compute. reflexivity.
Defined.

Lemma collected_from_lineage_witness :
  exists t d, rtc (parentEdge pairClassified) "B" t /\
              objGet pairClassified t = Some d /\
              isStructSubType d = true /\
              objGet (properties d) "q" = Some (mkProperty ["Text"] "").
Proof.
  apply (collected_from_lineage 5 pairClassified "B"
           [("a", mkProperty ["A"] ""); ("q", mkProperty ["Text"] "")]);
    [reflexivity | vm_compute; reflexivity | reflexivity].
Defined.

Lemma makeCompoundType_shape_witness :
  exists fields,
    TCompound "StructuredValue"
      (survivingFields nounTagger sameString sameString sampleProcessor
         [("class", mkProperty ["Text"] "The class.")] [Some ("Text", TString)])
    = TCompound "StructuredValue" fields /\ fields <> [] /\
    List.NoDup (objKeys fields) /\
    forall k a, In (k, a) fields ->
                argName a = k /\ includes BLACKLISTED_PROPERTIES k = false.
Proof.
  apply (makeCompoundType_shape nounTagger sameString sameString 5 sampleProcessor
           keywordClassified "StructuredValue").
  vm_compute. reflexivity.
Defined.

Lemma makeArgCanonical_roles_witness :
  objHas (makeArgCanonical nounTagger sameString sameString sampleProcessor
                           "isPartOf" TString) "base" = true.
Proof.
  apply (makeArgCanonical_roles nounTagger sameString sameString sampleProcessor
           "isPartOf" TString).
  reflexivity.
Defined.

Lemma emitQueries_shape_witness :
  exists queries store,
    emitQueries nounTagger sameString sameString 6 sampleProcessor keywordClassified
    = Ok queries /\
    objGet queries "Store" = Some store /\
    queryOf sampleProcessor keywordClassified "Store" store /\
    ~ In "Store" KEYWORDS /\
    forall a, In a (fargs store) -> ~ In (argName a) KEYWORDS.
Proof.
  eexists _, _. split; [vm_compute; reflexivity|]. split; [reflexivity|].
  eapply (emitQueries_shape nounTagger sameString sameString 6 sampleProcessor
            keywordClassified);
    [vm_compute; reflexivity | reflexivity].
Defined.

Lemma buildGraph_wellBuilt_witness : wellBuilt (fst sampleBuilt).
Proof.
  apply (buildGraph_wellBuilt sampleGraph (fst sampleBuilt) (snd sampleBuilt)).
  vm_compute. reflexivity.
Defined.

Lemma declared_class_has_parent_witness : hasParent (fst sampleBuilt) "Store".
Proof.
  apply (declared_class_has_parent sampleGraph (fst sampleBuilt) (snd sampleBuilt)
           (classTriple "Store" None) "Store").
  - vm_compute. reflexivity.
  - simpl. tauto.
  - repeat split.
Defined.

Lemma property_from_triple_witness :
  exists triple, In triple sampleGraph /\
    definesProperty triple "Store" "openingHours" (mkProperty ["Text"] "").
Proof.
  apply (property_from_triple sampleGraph (fst sampleBuilt) (snd sampleBuilt) "Store"
           (rawNode ["Thing"] [("openingHours", mkProperty ["Text"] "")]));
    [vm_compute; reflexivity | reflexivity | reflexivity].
Defined.

Lemma enum_values_in_order_witness :
  objGet (snd sampleBuilt) "DayOfWeek" = Some ["Friday"; "Monday"].
Proof.
  apply (enum_values_in_order sampleGraph (fst sampleBuilt) (snd sampleBuilt) "DayOfWeek").
  vm_compute. reflexivity.
Defined.

Lemma buildGraph_accepts_witness : accepted (valueTriple "Friday" "DayOfWeek").
Proof.
  apply (buildGraph_accepts sampleGraph ([], []) sampleBuilt).
  - vm_compute. reflexivity.
  - simpl. tauto.
Defined.

Lemma hits_grouped_witness :
  hits (newCreator 2) (map sampleRow ["a"; "b"; "c"; "d"; "e"])
  = [ taskFrom 1 (map sampleRow ["a"; "b"]); taskFrom 1 (map sampleRow ["c"; "d"]) ].
Proof.
  apply (hits_grouped 2 [map sampleRow ["a"; "b"]; map sampleRow ["c"; "d"]]
           (map sampleRow ["e"])).
  - lia.
  - repeat constructor.
  - simpl. lia.
Defined.

Lemma emitted_sequence_parents_first_witness :
  exists queries,
    emitQueries nounTagger sameString sameString 6 sampleProcessor keywordClassified
    = Ok queries /\
    before (objKeys queries) (emittedName "Thing") (emittedName "Store").
Proof.
  eexists. split; [vm_compute; reflexivity|].
  eapply (proj2 (emitted_sequence_parents_first nounTagger sameString sameString 6
                   sampleProcessor keywordClassified _ _ _)
            "Store" _ "Thing" _);
    try reflexivity; try discriminate.
  simpl. now left.
  Unshelve.
  - vm_compute. reflexivity.
  - vm_compute. constructor; [intros [H|[]]; discriminate|].
    constructor; [intros []|constructor].
Defined.
